(** * go-react: the room subscription registry and its broadcast

    A shallow embedding of [internal/api] of CassianoJunior/go-react: the
    handlers [handleSubscribe] and [handleCreateRoomMessage], the broadcast
    [notifyClients], the shared map [subscribers] and the mutex that guards it.

    The goroutines run as threads of an interleaving machine, one statement
    per step; the statements are named after the lines they stand for. *)

From Stdlib Require Import Ascii.
From stdpp Require Import base gmap sets list strings.

Open Scope string_scope.
Open Scope list_scope.

#[local] Set Warnings "-register-all,-clear-no-such-hyp".

(** ** Data model *)

(** [*websocket.Conn]: a pointer, compared by identity. *)
Abbreviation Conn := nat (only parsing).

(** [context.CancelFunc]: named by the context it cancels. *)
Abbreviation CancelFunc := nat (only parsing).

(** [uuid.UUID], sixteen bytes read as one number. *)
Abbreviation UUID := N (only parsing).

(** The documents [encoding/json] writes for the values of this package. *)
Inductive JSON :=
| JNull
| JString (s : string)
| JObject (fields : list (string * JSON)).

(** [type MessageCreatedValue struct] *)
Record MessageCreatedValue := mkMessageCreatedValue {
  Id : string;           (* `json:"id"` *)
  Message_ : string      (* `json:"message"` *)
}.

(** The dynamic values stored in a field of type [any]. *)
Inductive any :=
| AnyNil
| AnyString (s : string)
| AnyMessageCreatedValue (v : MessageCreatedValue).

(** [type Message struct] *)
Record Message := mkMessage {
  RoomId : string;       (* `json:"-"` *)
  Kind : string;         (* `json:"kind"` *)
  Value : any            (* `json:"value"` *)
}.

Definition KindMessageCreated : string := "message_created".

(** ** JSON encoding driven by the struct tags *)

(** A struct as [encoding/json] sees it: the fields in declaration order,
    each with its tag and its encoded value. *)
Definition tagged := list (string * string * JSON).

(** A field tagged ["-"] is skipped; the others are written under their tag. *)
Definition marshal_fields (fs : tagged) : JSON :=
  JObject (omap (λ '(_, tag, v), if decide (tag = "-") then None else Some (tag, v)) fs).

Definition MessageCreatedValue_fields (v : MessageCreatedValue) : tagged :=
  [("Id", "id", JString (Id v)); ("Message", "message", JString (Message_ v))].

Definition marshal_any (a : any) : JSON :=
  match a with
  | AnyNil => JNull
  | AnyString s => JString s
  | AnyMessageCreatedValue v => marshal_fields (MessageCreatedValue_fields v)
  end.

Definition Message_fields (m : Message) : tagged :=
  [("RoomId", "-", JString (RoomId m));
   ("Kind", "kind", JString (Kind m));
   ("Value", "value", marshal_any (Value m))].

(** What [conn.WriteJSON(message)] puts on the wire. *)
Definition marshal_Message (m : Message) : JSON := marshal_fields (Message_fields m).

(** The keys of an object, in order. *)
Definition json_keys (j : JSON) : list string :=
  match j with JObject fs => fs.*1 | _ => [] end.

(** The first member stored under [k]. *)
Fixpoint assoc (k : string) (fs : list (string * JSON)) : option JSON :=
  match fs with
  | [] => None
  | (k', v) :: fs => if decide (k = k') then Some v else assoc k fs
  end.

Definition json_get (k : string) (j : JSON) : option JSON :=
  match j with JObject fs => assoc k fs | _ => None end.

Definition json_string (j : JSON) : option string :=
  match j with JString s => Some s | _ => None end.

(** Modelled from the spec: the client that parses the payload is not among
    these sources; the spec has it read back the [kind] and the [value] that
    were written.  A value of type [any] comes back as what its document
    denotes. *)
Definition unmarshal_any (j : JSON) : option any :=
  match j with
  | JNull => Some AnyNil
  | JString s => Some (AnyString s)
  | JObject _ =>
      id ← json_get "id" j ≫= json_string;
      text ← json_get "message" j ≫= json_string;
      Some (AnyMessageCreatedValue (mkMessageCreatedValue id text))
  end.

(** Modelled from the spec: the client's reading of a payload, as a decoding
    into [Message].  The field tagged ["-"] is never read and keeps its zero
    value. *)
Definition unmarshal_Message (j : JSON) : option Message :=
  kind ← json_get "kind" j ≫= json_string;
  value ← json_get "value" j ≫= unmarshal_any;
  Some (mkMessage EmptyString kind value).

(** ** The map [subscribers] *)

Abbreviation Subscribers := (gmap string (gmap nat nat)) (only parsing).

(** Lines 240-242: [if _, ok := handler.subscribers[rawRoomId]; !ok { ... make ... }] *)
Definition room_present (rawRoomId : string) (subs : Subscribers) : bool :=
  bool_decide (is_Some (subs !! rawRoomId)).

Definition make_room (rawRoomId : string) (subs : Subscribers) : Subscribers :=
  <[rawRoomId := ∅]> subs.

(** Line 246: [handler.subscribers[rawRoomId][conn] = cancel].  Storing into
    the nil map of an absent room panics: [None]. *)
Definition store_conn (rawRoomId : string) (conn : Conn) (cancel : CancelFunc)
    (subs : Subscribers) : option Subscribers :=
  match subs !! rawRoomId with
  | Some room => Some (<[rawRoomId := <[conn := cancel]> room]> subs)
  | None => None
  end.

(** Lines 240-246 together: the registration of a connection. *)
Definition subscribers_add (rawRoomId : string) (conn : Conn) (cancel : CancelFunc)
    (subs : Subscribers) : option Subscribers :=
  store_conn rawRoomId conn cancel
    (if room_present rawRoomId subs then subs else make_room rawRoomId subs).

(** Line 254: [delete(handler.subscribers[rawRoomId], conn)].  The inner map
    is shared by reference, so the deletion shows in [subscribers]; [delete]
    on the nil map of an absent room does nothing. *)
Definition delete_conn (rawRoomId : string) (conn : Conn) (subs : Subscribers) : Subscribers :=
  match subs !! rawRoomId with
  | Some room => <[rawRoomId := delete conn room]> subs
  | None => subs
  end.

(** The connections registered under a room; none when the room is absent. *)
Definition room_conns (rawRoomId : string) (subs : Subscribers) : gset nat :=
  match subs !! rawRoomId with
  | Some room => dom room
  | None => ∅
  end.

(** ** The store and the requests *)

Inductive pgerr :=
| ErrNoRows              (* [pgx.ErrNoRows] *)
| ErrOther.              (* any other failure of the store *)

Inductive result (A : Type) :=
| Ok (a : A)
| Err (e : pgerr).
Arguments Ok {A} a.
Arguments Err {A} e.

Record Room := mkRoom { ID : UUID; Theme : string }.

(** [*pgstore.Queries], as far as these handlers call it. *)
Record Queries := mkQueries {
  GetRoom : UUID → result Room;
  InsertMessage : UUID → string → result UUID
}.

Record Request := mkRequest {
  room_id : string;        (* [chi.URLParam(request, "room_id")] *)
  Body : string;           (* [request.Body] *)
  handshake : bool         (* whether [upgrader.Upgrade] will succeed *)
}.

Definition StatusBadRequest : nat := 400.
Definition StatusNotFound : nat := 404.
Definition StatusInternalServerError : nat := 500.

Inductive Response :=
| http_Error (error : string) (code : nat)     (* [http.Error(writer, error, code)] *)
| http_JSON (body : JSON).                     (* [writer.Write(response)], status 200 *)

(** What the server does that can be seen from outside a goroutine, in the
    order it does it.  [EvRespond] is a handler writing the response of its
    request.  [EvUpgrade None] is a failed [upgrader.Upgrade]: the upgrader
    has by then answered the request itself, or taken the connection over and
    closed it.  [EvErrorAfterUpgrade] is the [http.Error] of line 230, called
    on that used writer: it is not the response of the request; its text is
    added to what the upgrader answered or is dropped, and its status is not
    sent. *)
Inductive Event :=
| EvGetRoom (id : UUID)
| EvInsertMessage (roomID : UUID) (text : string)
| EvRespond (r : Response)
| EvUpgrade (conn : option nat)                  (* [upgrader.Upgrade], and what it gave *)
| EvErrorAfterUpgrade (error : string) (code : nat)
| EvGo (message : Message)                       (* [go handler.notifyClients(message)] *)
| EvNoSubscribers (rawRoomId : string)           (* ["No subscribers to notify"] *)
| EvWriteJSON (conn : nat) (payload : JSON) (ok : bool)
| EvCancel (cancel : nat)
| EvStore (rawRoomId : string) (conn : nat)
| EvDelete (rawRoomId : string) (conn : nat)
| EvClose (conn : nat).

(** ** Goroutines *)

(** [handleSubscribe] from line 238 on; the statements before it touch
    nothing shared and run in the step that starts the goroutine.  The
    [slog.Info] of line 244 is no statement of its own: it reads the address
    of the connection, which a connection over TCP has, and touches nothing
    shared. *)
Inductive sub_pc :=
| SubLockAdd          (* 238 handler.mutex.Lock() *)
| SubCheckRoom        (* 240 if _, ok := handler.subscribers[rawRoomId]; !ok *)
| SubMakeRoom         (* 241 handler.subscribers[rawRoomId] = make(...) *)
| SubStoreConn        (* 246 handler.subscribers[rawRoomId][conn] = cancel *)
| SubUnlockAdd        (* 248 handler.mutex.Unlock() *)
| SubWait             (* 250 <-ctx.Done() *)
| SubLockRemove       (* 252 handler.mutex.Lock() *)
| SubDeleteConn       (* 254 delete(handler.subscribers[rawRoomId], conn) *)
| SubUnlockRemove     (* 256 handler.mutex.Unlock() *)
| SubCloseConn        (* 234 defer conn.Close(), run on return *)
| SubReturned.

(** [notifyClients]. *)
Inductive pub_pc :=
| PubLock                              (* 187 handler.mutex.Lock() *)
| PubLookup                            (* 190-195 *)
| PubRange (rest : list (nat * nat))   (* 197-202, the entries still to visit *)
| PubUnlock                            (* 188 defer handler.mutex.Unlock() *)
| PubReturned.

Inductive Thread :=
| Subscribe (pc : sub_pc) (rawRoomId : string) (conn : nat) (cancel : nat)
| Notify (pc : pub_pc) (message : Message).

(** ** The state of the server *)

Record State := mkState {
  subscribers : gmap string (gmap nat nat);   (* handler.subscribers *)
  mutex : option nat;                         (* handler.mutex: the thread that locked it *)
  threads : list Thread;
  conns : nat;                                (* connections upgraded so far *)
  reqDone : gset nat;                         (* request contexts that have ended *)
  cancelled : gset nat;                       (* cancel functions that were called *)
  broken : gset nat;                          (* connections on which writes fail *)
  closed : gset nat;                          (* connections closed by the server *)
  events : list Event
}.

(** [NewHandler]: an empty map and an unlocked mutex. *)
Definition init : State :=
  mkState ∅ None [] 0 ∅ ∅ ∅ ∅ [].

Definition set_subscribers (subs : gmap string (gmap nat nat)) (st : State) : State :=
  mkState subs (mutex st) (threads st) (conns st) (reqDone st) (cancelled st)
          (broken st) (closed st) (events st).

Definition set_mutex (m : option nat) (st : State) : State :=
  mkState (subscribers st) m (threads st) (conns st) (reqDone st) (cancelled st)
          (broken st) (closed st) (events st).

Definition set_thread (i : nat) (t : Thread) (st : State) : State :=
  mkState (subscribers st) (mutex st) (<[i := t]> (threads st)) (conns st) (reqDone st)
          (cancelled st) (broken st) (closed st) (events st).

Definition spawn (ts : list Thread) (st : State) : State :=
  mkState (subscribers st) (mutex st) (threads st ++ ts) (conns st) (reqDone st)
          (cancelled st) (broken st) (closed st) (events st).

Definition alloc_conn (st : State) : State :=
  mkState (subscribers st) (mutex st) (threads st) (S (conns st)) (reqDone st)
          (cancelled st) (broken st) (closed st) (events st).

Definition end_request (k : nat) (st : State) : State :=
  mkState (subscribers st) (mutex st) (threads st) (conns st) ({[k]} ∪ reqDone st)
          (cancelled st) (broken st) (closed st) (events st).

Definition call_cancel (k : nat) (st : State) : State :=
  mkState (subscribers st) (mutex st) (threads st) (conns st) (reqDone st)
          ({[k]} ∪ cancelled st) (broken st) (closed st) (events st).

Definition break_conn (c : nat) (st : State) : State :=
  mkState (subscribers st) (mutex st) (threads st) (conns st) (reqDone st)
          (cancelled st) ({[c]} ∪ broken st) (closed st) (events st).

Definition close_conn (c : nat) (st : State) : State :=
  mkState (subscribers st) (mutex st) (threads st) (conns st) (reqDone st)
          (cancelled st) (broken st) ({[c]} ∪ closed st) (events st).

Definition emit (evs : list Event) (st : State) : State :=
  mkState (subscribers st) (mutex st) (threads st) (conns st) (reqDone st)
          (cancelled st) (broken st) (closed st) (events st ++ evs).

(** [ctx] of line 236 is done once its [cancel] was called or the request's
    own context has ended. *)
Definition ctx_done (st : State) (k : nat) : bool :=
  bool_decide (k ∈ reqDone st) || bool_decide (k ∈ cancelled st).

(** Whether a write on [conn] fails: the connection is one of those the
    transport reports an error on, its peer being gone, or the server has
    closed it.  A peer that has just gone may still get writes that return
    no error; its connection is in [broken] from the first write on that
    fails. *)
Definition write_fails (st : State) (conn : nat) : bool :=
  bool_decide (conn ∈ broken st) || bool_decide (conn ∈ closed st).

(** ** [notifyClients] *)

(** Lines 198-201, for one entry of the room. *)
Definition notify_one (message : Message) (st : State) (entry : nat * nat) : State :=
  let '(conn, cancel) := entry in
  if write_fails st conn
  then call_cancel cancel
         (emit [EvWriteJSON conn (marshal_Message message) false; EvCancel cancel] st)
  else emit [EvWriteJSON conn (marshal_Message message) true] st.

(** Lines 190-202: the body of [notifyClients] under the mutex.  [order] is
    the order in which [range] happens to visit the room. *)
Definition notifyClients (order : list (nat * nat)) (message : Message) (st : State) : State :=
  match subscribers st !! RoomId message with
  | None => emit [EvNoSubscribers (RoomId message)] st
  | Some room =>
      if decide (size room = 0)
      then emit [EvNoSubscribers (RoomId message)] st
      else foldl (notify_one message) st order
  end.

(** ** One step of a goroutine *)

Definition lock (i : nat) (st : State) : option State :=
  match mutex st with
  | None => Some (set_mutex (Some i) st)
  | Some _ => None                         (* blocked *)
  end.

Definition unlock (st : State) : option State :=
  match mutex st with
  | Some _ => Some (set_mutex None st)
  | None => None                           (* fatal: unlock of unlocked mutex *)
  end.

Definition subscribe_step (i : nat) (pc : sub_pc) (rawRoomId : string) (conn cancel : nat)
    (st : State) : option State :=
  let goto pc' st' := set_thread i (Subscribe pc' rawRoomId conn cancel) st' in
  match pc with
  | SubLockAdd => goto SubCheckRoom <$> lock i st
  | SubCheckRoom =>
      Some (goto (if room_present rawRoomId (subscribers st)
                  then SubStoreConn else SubMakeRoom) st)
  | SubMakeRoom =>
      Some (goto SubStoreConn (set_subscribers (make_room rawRoomId (subscribers st)) st))
  | SubStoreConn =>
      subs ← store_conn rawRoomId conn cancel (subscribers st);
      Some (goto SubUnlockAdd (emit [EvStore rawRoomId conn] (set_subscribers subs st)))
  | SubUnlockAdd => goto SubWait <$> unlock st
  | SubWait => if ctx_done st cancel then Some (goto SubLockRemove st) else None
  | SubLockRemove => goto SubDeleteConn <$> lock i st
  | SubDeleteConn =>
      Some (goto SubUnlockRemove
              (emit [EvDelete rawRoomId conn]
                 (set_subscribers (delete_conn rawRoomId conn (subscribers st)) st)))
  | SubUnlockRemove => goto SubCloseConn <$> unlock st
  | SubCloseConn => Some (goto SubReturned (emit [EvClose conn] (close_conn conn st)))
  | SubReturned => None
  end.

Definition notify_step (i : nat) (order : list (nat * nat)) (pc : pub_pc) (message : Message)
    (st : State) : option State :=
  let goto pc' st' := set_thread i (Notify pc' message) st' in
  match pc with
  | PubLock => goto PubLookup <$> lock i st
  | PubLookup =>
      match subscribers st !! RoomId message with
      | None => Some (goto PubUnlock (emit [EvNoSubscribers (RoomId message)] st))
      | Some room =>
          if decide (size room = 0)
          then Some (goto PubUnlock (emit [EvNoSubscribers (RoomId message)] st))
          else if decide (order ≡ₚ map_to_list room)
               then Some (goto (PubRange order) st)
               else None
      end
  | PubRange [] => Some (goto PubUnlock st)
  | PubRange (entry :: rest) => Some (goto (PubRange rest) (notify_one message st entry))
  | PubUnlock => goto PubReturned <$> unlock st
  | PubReturned => None
  end.

Definition thread_step (i : nat) (order : list (nat * nat)) (st : State) : option State :=
  t ← threads st !! i;
  match t with
  | Subscribe pc rawRoomId conn cancel => subscribe_step i pc rawRoomId conn cancel st
  | Notify pc message => notify_step i order pc message st
  end.

(** ** The handlers *)

Section Handlers.

(** [uuid.Parse], [uuid.UUID.String] and the decoding of the request body
    into [bodySchema] belong to libraries. *)
Variable uuid_Parse : string → option UUID.
Variable uuid_String : UUID → string.
Variable decode_message : string → option string.

(** [handleSubscribe], lines 206-236: up to the upgrade.  [fresh] is the
    connection [Upgrade] returns when it succeeds. *)
Definition handleSubscribe_open (q : Queries) (request : Request) (fresh : nat)
    : list Event * bool :=
  let rawRoomId := room_id request in
  match uuid_Parse rawRoomId with
  | None => ([EvRespond (http_Error "Invalid room id" StatusBadRequest)], false)
  | Some roomId =>
      match GetRoom q roomId with
      | Err ErrNoRows =>
          ([EvGetRoom roomId;
            EvRespond (http_Error "room not found" StatusNotFound)], false)
      | Err _ =>
          ([EvGetRoom roomId;
            EvRespond (http_Error "Something went wrong" StatusInternalServerError)], false)
      | Ok _ =>
          if handshake request
          then ([EvGetRoom roomId; EvUpgrade (Some fresh)], true)
          else ([EvGetRoom roomId; EvUpgrade None;
                 EvErrorAfterUpgrade "Failed to upgrade connection" StatusBadRequest],
                false)
      end
  end.

(** [type ResponseSchema struct { MessageId string `json:"message_id"` }] *)
Definition ResponseSchema_fields (messageId : string) : tagged :=
  [("MessageId", "message_id", JString messageId)].

(** [handleCreateRoomMessage], lines 304-358. *)
Definition handleCreateRoomMessage (q : Queries) (request : Request) : list Event :=
  let rawRoomId := room_id request in
  match uuid_Parse rawRoomId with
  | None => [EvRespond (http_Error "Invalid room id" StatusBadRequest)]
  | Some roomId =>
      EvGetRoom roomId ::
      match GetRoom q roomId with
      | Err ErrNoRows => [EvRespond (http_Error "room not found" StatusNotFound)]
      | Err _ => [EvRespond (http_Error "Something went wrong" StatusInternalServerError)]
      | Ok _ =>
          match decode_message (Body request) with
          | None => [EvRespond (http_Error "Invalid request body" StatusBadRequest)]
          | Some text =>
              EvInsertMessage roomId text ::
              match InsertMessage q roomId text with
              | Err _ =>
                  [EvRespond (http_Error "Something went wrong" StatusInternalServerError)]
              | Ok messageId =>
                  [EvRespond (http_JSON (marshal_fields
                                           (ResponseSchema_fields (uuid_String messageId))));
                   EvGo (mkMessage rawRoomId KindMessageCreated
                           (AnyMessageCreatedValue
                              (mkMessageCreatedValue (uuid_String messageId) text)))]
              end
          end
      end
  end.

(** The goroutines a handler starts. *)
Definition goroutines (evs : list Event) : list Thread :=
  omap (λ e, match e with EvGo m => Some (Notify PubLock m) | _ => None end) evs.

(** ** The server *)

Inductive Label :=
| Run (i : nat) (order : list (nat * nat))      (* goroutine [i] runs one statement *)
| ReqSubscribe (q : Queries) (request : Request)
| ReqCreateMessage (q : Queries) (request : Request)
| CtxEnd (k : nat)                              (* a request context ends *)
| ConnBreak (conn : nat).                       (* writes on a connection start to fail *)

Definition exec (l : Label) (st : State) : option State :=
  match l with
  | Run i order => thread_step i order st
  | ReqSubscribe q request =>
      let '(evs, upgraded) := handleSubscribe_open q request (conns st) in
      if upgraded
      then Some (alloc_conn
                   (spawn [Subscribe SubLockAdd (room_id request) (conns st) (conns st)]
                      (emit evs st)))
      else Some (emit evs st)
  | ReqCreateMessage q request =>
      let evs := handleCreateRoomMessage q request in
      Some (spawn (goroutines evs) (emit evs st))
  | CtxEnd k => Some (end_request k st)
  | ConnBreak conn => Some (break_conn conn st)
  end.

Fixpoint run (ls : list Label) (st : State) : option State :=
  match ls with
  | [] => Some st
  | l :: ls => exec l st ≫= run ls
  end.

Definition reachable (st : State) : Prop := ∃ ls, run ls init = Some st.

End Handlers.

(** ** What holds in every state the server reaches *)

(** Between a [Lock] and its [Unlock]. *)
Definition critical (t : Thread) : bool :=
  match t with
  | Subscribe pc _ _ _ =>
      match pc with
      | SubCheckRoom | SubMakeRoom | SubStoreConn | SubUnlockAdd
      | SubDeleteConn | SubUnlockRemove => true
      | _ => false
      end
  | Notify pc _ =>
      match pc with
      | PubLookup | PubRange _ | PubUnlock => true
      | _ => false
      end
  end.

(** About to run a statement that reads or writes [handler.subscribers]. *)
Definition touches_subscribers (t : Thread) : bool :=
  match t with
  | Subscribe pc _ _ _ =>
      match pc with
      | SubCheckRoom | SubMakeRoom | SubStoreConn | SubDeleteConn => true
      | _ => false
      end
  | Notify pc _ =>
      match pc with
      | PubLookup | PubRange _ => true
      | _ => false
      end
  end.

(** Past line 246 and not yet past line 254: the state Registered. *)
Definition registered (pc : sub_pc) : bool :=
  match pc with
  | SubUnlockAdd | SubWait | SubLockRemove | SubDeleteConn => true
  | _ => false
  end.

(** The adds to a room not yet matched by a remove, read off the log. *)
Definition replay (rawRoomId : string) (live : gset nat) (e : Event) : gset nat :=
  match e with
  | EvStore r conn => if decide (r = rawRoomId) then {[conn]} ∪ live else live
  | EvDelete r conn => if decide (r = rawRoomId) then live ∖ {[conn]} else live
  | _ => live
  end.

Definition live_conns (rawRoomId : string) (evs : list Event) : gset nat :=
  foldl (replay rawRoomId) ∅ evs.

(** The session a goroutine of [handleSubscribe] stands for, and whether
    it is registered. *)
Definition session (t : Thread) : option (string * nat * nat * bool) :=
  match t with
  | Subscribe pc r c k => Some (r, c, k, registered pc)
  | Notify _ _ => None
  end.

(** What a goroutine has read from the map between its [Lock] and its
    [Unlock] still holds when it goes on: what line 240 found, when lines 241
    and 246 run; the entries [range] took, while the loop visits them. *)
Definition room_ready (subs : gmap string (gmap nat nat)) (t : Thread) : Prop :=
  match t with
  | Subscribe SubMakeRoom r _ _ => subs !! r = None
  | Subscribe SubStoreConn r _ _ => is_Some (subs !! r)
  | Notify (PubRange rest) m =>
      ∀ c k, (c, k) ∈ rest → ∃ room, subs !! RoomId m = Some room ∧ room !! c = Some k
  | _ => True
  end.

(** Events that are no change of the map. *)
Definition quiet (e : Event) : Prop :=
  match e with EvStore _ _ | EvDelete _ _ => False | _ => True end.

Definition no_response (evs : list Event) : Prop := ∀ r, EvRespond r ∉ evs.

Record inv (st : State) : Prop := mkInv {
  inv_mutex : ∀ i t,
    threads st !! i = Some t → critical t = true → mutex st = Some i;
  inv_fresh : ∀ i pc r c k,
    threads st !! i = Some (Subscribe pc r c k) → c < conns st ∧ k = c;
  inv_unique : ∀ i j pc pc' r r' c k k',
    threads st !! i = Some (Subscribe pc r c k) →
    threads st !! j = Some (Subscribe pc' r' c k') → i = j;
  inv_entry : ∀ r room c k,
    subscribers st !! r = Some room → room !! c = Some k →
    ∃ i pc, threads st !! i = Some (Subscribe pc r c k) ∧ registered pc = true;
  inv_session : ∀ i pc r c k,
    threads st !! i = Some (Subscribe pc r c k) → registered pc = true →
    ∃ room, subscribers st !! r = Some room ∧ room !! c = Some k;
  inv_ready : ∀ i t,
    threads st !! i = Some t → room_ready (subscribers st) t;
  inv_log : ∀ r, room_conns r (subscribers st) = live_conns r (events st)
}.

(** The new events of [st'] over [st]. *)
Definition since (st st' : State) : list Event :=
  drop (length (events st)) (events st').

Definition is_write_to (conn : nat) (e : Event) : bool :=
  match e with EvWriteJSON c _ _ => bool_decide (c = conn) | _ => false end.

Definition is_cancel_of (cancel : nat) (e : Event) : bool :=
  match e with EvCancel k => bool_decide (k = cancel) | _ => false end.

(** How often a write to [conn] was attempted, and how often [cancel] was called. *)
Definition write_attempts (conn : nat) (evs : list Event) : nat :=
  length (List.filter (is_write_to conn) evs).

Definition cancel_calls (cancel : nat) (evs : list Event) : nat :=
  length (List.filter (is_cancel_of cancel) evs).

(** What one pass of the loop of lines 197-202 over [order] logs, writes
    failing as they do in [st]. *)
Fixpoint notify_events (message : Message) (st : State) (order : list (nat * nat))
    : list Event :=
  match order with
  | [] => []
  | (conn, cancel) :: rest =>
      (if write_fails st conn
       then [EvWriteJSON conn (marshal_Message message) false; EvCancel cancel]
       else [EvWriteJSON conn (marshal_Message message) true])
      ++ notify_events message st rest
  end.

(** The statements a registered session still has to run before it returns. *)
Definition steps_to_return (pc : sub_pc) : nat :=
  match pc with
  | SubUnlockAdd => 6
  | SubWait => 5
  | SubLockRemove => 4
  | SubDeleteConn => 3
  | _ => 0
  end.

(** The state a session leaves behind when it runs lines 250-256 and the
    deferred [Close] with no one in between. *)
Definition cleaned (i : nat) (rawRoomId : string) (conn cancel : nat) (st : State) : State :=
  set_thread i (Subscribe SubReturned rawRoomId conn cancel)
    (set_mutex None
       (emit [EvDelete rawRoomId conn; EvClose conn]
          (close_conn conn
             (set_subscribers (delete_conn rawRoomId conn (subscribers st)) st)))).

(** ** [handleCreateRoom] *)

(** What [handleCreateRoom] does that can be seen from outside. *)
Inductive RoomEvent :=
| RoomInsert (theme : string)      (* [handler.queries.InsertRoom(ctx, body.Theme)] *)
| RoomRespond (r : Response).

Section CreateRoom.

(** [UUID.String] and the decoding of the request body into
    [bodySchema { Theme }] belong to libraries. *)
Variable uuid_String : UUID → string.
Variable decode_theme : string → option string.

(** [type ResponseSchema struct { RoomId string `json:"room_id"` }] *)
Definition RoomSchema_fields (roomId : string) : tagged :=
  [("RoomId", "room_id", JString roomId)].

(** [handleCreateRoom], lines 272-297. *)
Definition handleCreateRoom (InsertRoom : string → result UUID) (request : Request)
    : list RoomEvent :=
  match decode_theme (Body request) with
  | None => [RoomRespond (http_Error "Invalid request body" StatusBadRequest)]
  | Some theme =>
      RoomInsert theme ::
      match InsertRoom theme with
      | Err _ =>
          [RoomRespond (http_Error "Something went wrong" StatusInternalServerError)]
      | Ok roomId =>
          [RoomRespond (http_JSON (marshal_fields (RoomSchema_fields (uuid_String roomId))))]
      end
  end.

End CreateRoom.

(** The responses among the events of a handler, in order. *)
Definition responses (evs : list Event) : list Response :=
  omap (λ e, match e with EvRespond r => Some r | _ => None end) evs.

Definition room_responses (evs : list RoomEvent) : list Response :=
  omap (λ e, match e with RoomRespond r => Some r | _ => None end) evs.

(** The status line of a response; [writer.Write] without a header is 200. *)
Definition status (r : Response) : nat :=
  match r with
  | http_Error _ code => code
  | http_JSON _ => 200
  end.

(** ** The life of a connection in the log *)

Definition is_about (conn : nat) (e : Event) : bool :=
  match e with
  | EvStore _ c | EvDelete _ c | EvClose c => bool_decide (c = conn)
  | _ => false
  end.

(** What the log says of the map entry and the closing of [conn]. *)
Definition about (conn : nat) (evs : list Event) : list Event :=
  List.filter (is_about conn) evs.

(** How far a session is: nothing yet, stored, deleted, closed. *)
Definition phase (pc : sub_pc) : nat :=
  match pc with
  | SubLockAdd | SubCheckRoom | SubMakeRoom | SubStoreConn => 0
  | SubUnlockAdd | SubWait | SubLockRemove | SubDeleteConn => 1
  | SubUnlockRemove | SubCloseConn => 2
  | SubReturned => 3
  end.

Definition lifecycle (rawRoomId : string) (conn : nat) : list Event :=
  [EvStore rawRoomId conn; EvDelete rawRoomId conn; EvClose conn].

(** More of what holds in every state the server reaches. *)
Record inv_life (st : State) : Prop := mkInvLife {
  life_holder : ∀ i,
    mutex st = Some i → ∃ t, threads st !! i = Some t ∧ critical t = true;
  life_closed : ∀ c,
    c ∈ closed st → ∃ i r k, threads st !! i = Some (Subscribe SubReturned r c k);
  life_cancelled : ∀ k, k ∈ cancelled st → k ∈ broken st;
  life_log : ∀ i pc r c k,
    threads st !! i = Some (Subscribe pc r c k) →
    about c (events st) = take (phase pc) (lifecycle r c);
  life_fresh : ∀ c, (conns st ≤ c)%nat → about c (events st) = []
}.

(** The statements the holder of the mutex has yet to run before it has
    unlocked it. *)
Definition steps_to_unlock (st : State) (t : Thread) : nat :=
  match t with
  | Subscribe pc r _ _ =>
      match pc with
      | SubCheckRoom => if room_present r (subscribers st) then 3 else 4
      | SubMakeRoom => 3
      | SubStoreConn => 2
      | SubUnlockAdd => 1
      | SubDeleteConn => 2
      | SubUnlockRemove => 1
      | _ => 0
      end
  | Notify pc m =>
      match pc with
      | PubLookup =>
          match subscribers st !! RoomId m with
          | Some room => if decide (size room = 0) then 2 else size room + 3
          | None => 2
          end
      | PubRange rest => length rest + 2
      | PubUnlock => 1
      | _ => 0
      end
  end.

(** The order that suits goroutine [i] at line 197. *)
Definition range_of (st : State) (t : Thread) : list (nat * nat) :=
  match t with
  | Notify _ m => default [] (map_to_list <$> subscribers st !! RoomId m)
  | _ => []
  end.

Definition is_write (e : Event) : bool :=
  match e with EvWriteJSON _ _ _ => true | _ => false end.

(** The calls of [WriteJSON] the holder of the mutex has yet to make before
    it has unlocked it. *)
Definition writes_to_unlock (st : State) (t : Thread) : nat :=
  match t with
  | Notify PubLookup m =>
      match subscribers st !! RoomId m with
      | Some room => size room
      | None => 0
      end
  | Notify (PubRange rest) _ => length rest
  | _ => 0
  end.

(** The cancel functions a pass over [order] calls, writes failing as they
    do in [st]. *)
Definition cancels_due (st : State) (order : list (nat * nat)) : gset nat :=
  list_to_set (filter (λ e, write_fails st e.1 = true) order).*2.

(** Of two states of the server, the later has all the earlier has. *)
Definition grows (st st' : State) : Prop :=
  reqDone st ⊆ reqDone st' ∧ cancelled st ⊆ cancelled st'
  ∧ broken st ⊆ broken st' ∧ closed st ⊆ closed st'
  ∧ dom (subscribers st) ⊆ dom (subscribers st')
  ∧ (conns st ≤ conns st')%nat
  ∧ (length (threads st) ≤ length (threads st'))%nat.

(** ** [main] *)

Module Main.

(** What [http.ListenAndServe] does before the interrupt arrives. *)
Inductive Served :=
| StillServing
| ServerClosed               (* it returned [http.ErrServerClosed] *)
| ServeFailed.               (* it returned another error *)

Record World := mkWorld {
  dotenv : bool;             (* [godotenv.Load] succeeds *)
  getenv : string → string;  (* [os.Getenv] *)
  pool : bool;               (* [pgxpool.New] succeeds *)
  ping : bool;               (* [pool.Ping] succeeds *)
  served : Served;
  interrupt : bool           (* an interrupt arrives on [quit] *)
}.

Inductive Step :=
| LoadEnv
| NewPool (connString : string)
| Ping
| ClosePool
| NewHandler
| ListenAndServe (addr : string)
| AwaitInterrupt
| Panic.

Inductive Exit := Returned | Panicked | Waiting.

(** Lines 24-31: [fmt.Sprintf("user=%s password=%s host=%s port=%s dbname=%s", ...)] *)
Definition connString (getenv : string → string) : string :=
  "user=" +:+ getenv "DATABASE_USER"
  +:+ " password=" +:+ getenv "DATABASE_PASSWORD"
  +:+ " host=" +:+ getenv "DATABASE_HOST"
  +:+ " port=" +:+ getenv "DATABASE_PORT"
  +:+ " dbname=" +:+ getenv "DATABASE_NAME".

(** [main] of the server.  A panic in [main] runs its deferred
    [pool.Close()]; a panic in the goroutine of line 45 ends the process
    with no deferred call of [main] run. *)
Definition main (w : World) : list Step * Exit :=
  if negb (dotenv w) then ([LoadEnv; Panic], Panicked)
  else
    let open := [LoadEnv; NewPool (connString (getenv w))] in
    if negb (pool w) then (open ++ [Panic], Panicked)
    else if negb (ping w) then (open ++ [Ping; Panic; ClosePool], Panicked)
    else
      let up := open ++ [Ping; NewHandler; ListenAndServe ":3333"] in
      match served w with
      | ServeFailed => (up ++ [Panic], Panicked)
      | _ =>
          if interrupt w
          then (up ++ [AwaitInterrupt; ClosePool], Returned)
          else (up ++ [AwaitInterrupt], Waiting)
      end.

Definition spaceless (s : string) : Prop := " "%char ∉ String.list_ascii_of_string s.

End Main.

(** ** An instance of the libraries *)

Module Lib.

(** A hexadecimal digit of either case, as [uuid.Parse] reads it. *)
Definition xvalue (c : ascii) : option N :=
  let n := N_of_ascii c in
  if (48 <=? n)%N && (n <=? 57)%N then Some (n - 48)%N
  else if (97 <=? n)%N && (n <=? 102)%N then Some (n - 87)%N
  else if (65 <=? n)%N && (n <=? 70)%N then Some (n - 55)%N
  else None.

Fixpoint xvalues (acc : N) (cs : list ascii) : option N :=
  match cs with
  | [] => Some acc
  | c :: cs => d ← xvalue c; xvalues (16 * acc + d)%N cs
  end.

Definition is_dash (c : option ascii) : bool :=
  match c with Some c => bool_decide (c = "-"%char) | None => false end.

(** The form xxxxxxxx-xxxx-xxxx-xxxx-xxxxxxxxxxxx of [uuid.Parse]. *)
Definition Parse (s : string) : option N :=
  let cs := String.list_ascii_of_string s in
  if bool_decide (length cs = 36)
     && is_dash (cs !! 8) && is_dash (cs !! 13)
     && is_dash (cs !! 18) && is_dash (cs !! 23)
  then xvalues 0 (take 8 cs ++ take 4 (drop 9 cs) ++ take 4 (drop 14 cs)
                    ++ take 4 (drop 19 cs) ++ drop 24 cs)
  else None.

Definition xdigit (n : N) : ascii :=
  if (n <? 10)%N then ascii_of_N (48 + n) else ascii_of_N (87 + n).

Fixpoint xdigits (len : nat) (n : N) (acc : list ascii) : list ascii :=
  match len with
  | O => acc
  | S len => xdigits len (n / 16)%N (xdigit (n mod 16)%N :: acc)
  end.

(** [UUID.String]: the lower-case form. *)
Definition String_ (u : N) : string :=
  let cs := xdigits 32 u [] in
  String.string_of_list_ascii
    (take 8 cs ++ "-"%char :: take 4 (drop 8 cs) ++ "-"%char :: take 4 (drop 12 cs)
       ++ "-"%char :: take 4 (drop 16 cs) ++ "-"%char :: drop 20 cs).

Definition dquote : ascii := ascii_of_nat 34.

Definition body_open : list ascii :=
  String.list_ascii_of_string "{" ++ dquote :: String.list_ascii_of_string "message"
    ++ dquote :: String.list_ascii_of_string ":" ++ [dquote].

Definition body_close : list ascii := [dquote; "}"%char].

Definition plain (c : ascii) : bool :=
  negb (bool_decide (c = dquote)) && negb (bool_decide (c = "\"%char))
  && (32 <=? N_of_ascii c)%N.

(** Bodies of the one form [{"message":"text"}], the text free of escapes. *)
Definition decode (body : string) : option string :=
  let cs := String.list_ascii_of_string body in
  let n := length cs in
  let a := length body_open in
  let b := length body_close in
  let text := take (n - (a + b)) (drop a cs) in
  if bool_decide (take a cs = body_open)
     && bool_decide (drop (n - b) cs = body_close)
     && (a + b <=? n)%nat && forallb plain text
  then Some (String.string_of_list_ascii text)
  else None.

Definition body_of (text : string) : string :=
  String.string_of_list_ascii (body_open ++ String.list_ascii_of_string text ++ body_close).

End Lib.

(** An instance of the decoder of [handleCreateRoom]. *)
Module LibRoom.

Definition body_open : list ascii :=
  String.list_ascii_of_string "{" ++ Lib.dquote :: String.list_ascii_of_string "theme"
    ++ Lib.dquote :: String.list_ascii_of_string ":" ++ [Lib.dquote].

(** Bodies of the one form [{"theme":"text"}], the text free of escapes. *)
Definition decode (body : string) : option string :=
  let cs := String.list_ascii_of_string body in
  let n := length cs in
  let a := length body_open in
  let b := length Lib.body_close in
  let text := take (n - (a + b)) (drop a cs) in
  if bool_decide (take a cs = body_open)
     && bool_decide (drop (n - b) cs = Lib.body_close)
     && (a + b <=? n)%nat && forallb Lib.plain text
  then Some (String.string_of_list_ascii text)
  else None.

Definition body_of (text : string) : string :=
  String.string_of_list_ascii
    (body_open ++ String.list_ascii_of_string text ++ Lib.body_close).

End LibRoom.

(** ** A run of the server *)

Module Demo.

(** One room in the store, named by a UUID whose upper-case and lower-case
    spellings both parse. *)
Definition room0 : N := 143098242404177361603877621312831893704.
Definition upper : string := "6BA7B810-9DAD-11D1-80B4-00C04FD430C8".
Definition lower : string := "6ba7b810-9dad-11d1-80b4-00c04fd430c8".

Definition store : Queries :=
  mkQueries
    (λ id, if decide (id = room0) then Ok (mkRoom id "general") else Err ErrNoRows)
    (λ _ _, Ok 7%N).

Definition subscribe_request (raw : string) : Request := mkRequest raw EmptyString true.
Definition post_request (raw text : string) : Request :=
  mkRequest raw (Lib.body_of text) false.

Definition go : list Label → State → option State :=
  run Lib.Parse Lib.String_ Lib.decode.

Definition after (ls : list Label) : State := default init (go ls init).

(** Lines 238-248 of goroutine [i]: five statements when the room has no
    slot yet, four when it has. *)
Definition register_first (i : nat) : list Label := replicate 5 (Run i []).
Definition register_next (i : nat) : list Label := replicate 4 (Run i []).

Definition one_subscriber : list Label :=
  ReqSubscribe store (subscribe_request lower) :: register_first 0.

Definition two_subscribers : list Label :=
  one_subscriber ++ ReqSubscribe store (subscribe_request lower) :: register_next 1.

(** Two sessions wait, the peer of the second is gone, a message was posted. *)
Definition broadcast_pending : list Label :=
  two_subscribers ++ [ConnBreak 1; ReqCreateMessage store (post_request lower "hello")].

Definition hello (raw : string) : Message :=
  mkMessage raw KindMessageCreated
    (AnyMessageCreatedValue (mkMessageCreatedValue (Lib.String_ 7) "hello")).

Definition both : gmap nat nat := <[0 := 0]> (<[1 := 1]> ∅).

(** A session from the request to the return: registered, its request's
    context ended, lines 250-256 and the deferred [Close] run. *)
Definition session_over : list Label :=
  one_subscriber ++ CtxEnd 0 :: replicate 5 (Run 0 []).

(** The broadcast of [broadcast_pending], run to its return. *)
Definition broadcast_done : list Label :=
  broadcast_pending ++ replicate 6 (Run 2 (map_to_list both)).

(** The same broadcast at line 197, the two entries still to visit. *)
Definition broadcast_running : list Label :=
  broadcast_pending ++ replicate 2 (Run 2 (map_to_list both)).

(** A request to create a room, and a store that numbers it [room0]. *)
Definition create_request : Request :=
  mkRequest EmptyString (LibRoom.body_of "general") false.
Definition insert_room (theme : string) : result N := Ok room0.

End Demo.

(** * Proofs *)

(** ** The map [subscribers] *)

Lemma room_conns_spec (subs : gmap string (gmap nat nat)) r c :
  c ∈ room_conns r subs ↔ ∃ room, subs !! r = Some room ∧ is_Some (room !! c).
Proof.
  unfold room_conns. destruct (subs !! r) as [room|] eqn:E.
  - rewrite elem_of_dom. naive_solver.
  - split; [set_solver | naive_solver].
Qed.

Lemma room_conns_make (subs : gmap string (gmap nat nat)) r r' :
  subs !! r = None → room_conns r' (make_room r subs) = room_conns r' subs.
Proof.
  intros E. unfold room_conns, make_room.
  destruct (decide (r = r')) as [<-|].
  - rewrite lookup_insert_eq, E. apply dom_empty_L.
  - by rewrite lookup_insert_ne.
Qed.

Lemma room_conns_store (subs subs' : gmap string (gmap nat nat)) r c k r' :
  store_conn r c k subs = Some subs' →
  room_conns r' subs' = if decide (r = r') then {[c]} ∪ room_conns r' subs
                        else room_conns r' subs.
Proof.
  unfold store_conn, room_conns. destruct (subs !! r) as [room|] eqn:E; [|done].
  intros [= <-]. case_decide as D.
  - subst r'. rewrite lookup_insert_eq, E. apply dom_insert_L.
  - by rewrite lookup_insert_ne.
Qed.

Lemma room_conns_delete (subs : gmap string (gmap nat nat)) r c r' :
  room_conns r' (delete_conn r c subs)
  = if decide (r = r') then room_conns r' subs ∖ {[c]} else room_conns r' subs.
Proof.
  unfold delete_conn, room_conns. destruct (subs !! r) as [room|] eqn:E.
  - case_decide as D.
    + subst r'. rewrite lookup_insert_eq, E. apply dom_delete_L.
    + by rewrite lookup_insert_ne.
  - case_decide as D; [|done]. subst r'. rewrite E. set_solver.
Qed.

Lemma delete_conn_absent (subs : gmap string (gmap nat nat)) r c :
  c ∉ room_conns r subs → delete_conn r c subs = subs.
Proof.
  unfold delete_conn, room_conns. destruct (subs !! r) as [room|] eqn:E; [|done].
  intros Hc. apply not_elem_of_dom in Hc.
  rewrite (delete_id room c Hc). by apply insert_id.
Qed.

Lemma delete_conn_gone (subs : gmap string (gmap nat nat)) r c :
  c ∉ room_conns r (delete_conn r c subs).
Proof. rewrite room_conns_delete. case_decide; [set_solver | done]. Qed.

Lemma delete_conn_keeps_slot (subs : gmap string (gmap nat nat)) r c r' :
  is_Some (delete_conn r c subs !! r') ↔ is_Some (subs !! r').
Proof.
  unfold delete_conn. destruct (subs !! r) as [room|] eqn:E; [|done].
  destruct (decide (r = r')) as [<-|].
  - rewrite lookup_insert_eq, E. split; eauto.
  - by rewrite lookup_insert_ne.
Qed.

Lemma subscribers_add_total (subs : gmap string (gmap nat nat)) r c k :
  ∃ subs', subscribers_add r c k subs = Some subs'.
Proof.
  unfold subscribers_add, room_present, store_conn, make_room.
  case_bool_decide as P.
  - destruct P as [room ->]. eauto.
  - rewrite lookup_insert_eq. eauto.
Qed.

Lemma subscribers_add_fresh_room (subs : gmap string (gmap nat nat)) r c k :
  subs !! r = None →
  subscribers_add r c k subs = Some (<[r := {[c := k]}]> subs).
Proof.
  intros E. unfold subscribers_add, room_present, store_conn, make_room.
  rewrite bool_decide_eq_false_2 by (rewrite E; by intros [? ?]).
  rewrite lookup_insert_eq. f_equal. rewrite insert_insert_eq.
  by rewrite insert_empty.
Qed.

(** ** C6 *)

(** C6: removing a (room, connection) pair that is not registered leaves the
    map as it is, whether the room is absent or only the connection, and
    [delete] cannot fail; removing the same pair twice is removing it once. *)
Theorem delete_conn_idempotent (subs : gmap string (gmap nat nat)) r c :
  (c ∉ room_conns r subs → delete_conn r c subs = subs)
  ∧ delete_conn r c (delete_conn r c subs) = delete_conn r c subs.
Proof.
  split; [apply delete_conn_absent |].
  apply delete_conn_absent, delete_conn_gone.
Qed.

(** ** C7 *)

(** C7: the document written for a [Message] has the two keys [kind] and
    [value] and no other; it is the same whatever [RoomId] holds; read back,
    it gives the [Kind] and the [Value] that were written and an empty
    [RoomId]. *)
Theorem marshal_Message_roundtrip (m : Message) :
  json_keys (marshal_Message m) = ["kind"; "value"]
  ∧ (∀ r, marshal_Message (mkMessage r (Kind m) (Value m)) = marshal_Message m)
  ∧ unmarshal_Message (marshal_Message m) = Some (mkMessage EmptyString (Kind m) (Value m)).
Proof.
  split; [done |]. split; [done |].
  destruct m as [r kind [ | s | [id text]]]; reflexivity.
Qed.

(** ** The log only grows *)

Lemma notify_one_events message st entry :
  ∃ evs, events (notify_one message st entry) = events st ++ evs ∧ no_response evs.
Proof.
  destruct entry as [c k]. unfold notify_one. destruct (write_fails st c); simpl.
  - eexists. split; [done |]. intros r. set_solver.
  - eexists. split; [done |]. intros r. set_solver.
Qed.

Lemma lock_events i st st' : lock i st = Some st' → events st' = events st.
Proof. unfold lock. destruct (mutex st); [done |]. by intros [= <-]. Qed.

Lemma unlock_events st st' : unlock st = Some st' → events st' = events st.
Proof. unfold unlock. destruct (mutex st); [|done]. by intros [= <-]. Qed.

Lemma thread_step_events i order st st' :
  thread_step i order st = Some st' →
  ∃ evs, events st' = events st ++ evs ∧ no_response evs.
Proof.
  assert (Hnil : ∀ s : State, ∃ evs, events s = events s ++ evs ∧ no_response evs).
  { intros s. exists []. split; [by rewrite app_nil_r | intros r; set_solver]. }
  assert (Hone : ∀ (s : State) e, (∀ r, e ≠ EvRespond r) →
            ∃ evs, events s ++ [e] = events s ++ evs ∧ no_response evs).
  { intros s e He. exists [e]. split; [done |]. intros r. set_solver. }
  unfold thread_step. destruct (threads st !! i) as [[pc r c k | pc m]|]; [| |done]; simpl.
  - destruct pc; simpl; intros H; simplify_option_eq;
      repeat (case_match; simplify_eq);
      repeat match goal with
             | H : lock _ _ = Some _ |- _ => apply lock_events in H; simpl; rewrite ?H
             | H : unlock _ = Some _ |- _ => apply unlock_events in H; simpl; rewrite ?H
             end; simpl; eauto.
  - destruct pc as [ | | [|e rest] | | ]; simpl; intros H; simplify_option_eq;
      repeat (case_match; simplify_eq);
      repeat match goal with
             | H : lock _ _ = Some _ |- _ => apply lock_events in H; simpl; rewrite ?H
             | H : unlock _ = Some _ |- _ => apply unlock_events in H; simpl; rewrite ?H
             end; simpl; eauto using notify_one_events.
Qed.

Section Server.

Variable uuid_Parse : string → option N.
Variable uuid_String : N → string.
Variable decode_message : string → option string.

#[local] Abbreviation exec := (exec uuid_Parse uuid_String decode_message).
#[local] Abbreviation run := (run uuid_Parse uuid_String decode_message).
#[local] Abbreviation reachable := (reachable uuid_Parse uuid_String decode_message).
#[local] Abbreviation handleSubscribe_open := (handleSubscribe_open uuid_Parse).
#[local] Abbreviation handleCreateRoomMessage :=
  (handleCreateRoomMessage uuid_Parse uuid_String decode_message).

Lemma exec_events l st st' :
  exec l st = Some st' → events st `prefix_of` events st'.
Proof.
  destruct l as [i order | q request | q request | k | c]; simpl.
  - intros H. apply thread_step_events in H as (evs & -> & _). by eexists.
  - destruct (handleSubscribe_open q request (conns st)) as [evs []];
      intros [= <-]; simpl; by eexists.
  - intros [= <-]; simpl; by eexists.
  - by intros [= <-].
  - by intros [= <-].
Qed.

Lemma run_events ls st st' :
  run ls st = Some st' → events st `prefix_of` events st'.
Proof.
  revert st. induction ls as [|l ls IH]; simpl; intros st.
  - by intros [= <-].
  - destruct (exec l st) as [st1|] eqn:E; [|done]. simpl. intros H.
    etrans; [by eapply exec_events | by apply IH].
Qed.

Lemma run_app ls1 ls2 st :
  run (ls1 ++ ls2) st = run ls1 st ≫= run ls2.
Proof.
  revert st. induction ls1 as [|l ls1 IH]; simpl; intros st; [done |].
  destruct (exec l st); simpl; [apply IH | done].
Qed.

(** ** C3 *)

Lemma run_cons_events l ls st st' :
  run (l :: ls) st = Some st' →
  ∃ st1, exec l st = Some st1 ∧ events st1 `prefix_of` events st'.
Proof.
  simpl. destruct (exec l st) as [st1|]; [|done]. simpl. intros H.
  exists st1. split; [done |]. by eapply run_events.
Qed.

(** C3: on an existing room and a well-formed body, the handler calls
    [InsertMessage]; when that succeeds it then answers [{message_id}] and
    only then starts the broadcast: one goroutine, [notifyClients] on the
    [message_created] message with the id and the text, added to the
    goroutines of the server at its first statement, with nothing written to
    any subscriber yet.  When [InsertMessage] fails the handler answers 500
    and starts no goroutine: the goroutines of the server are those there
    were.  What the handler puts in the log stays there whatever runs
    afterwards, and no step of a goroutine adds a response. *)
Theorem handleCreateRoomMessage_two_phase q request roomId room text :
  uuid_Parse (room_id request) = Some roomId →
  GetRoom q roomId = Ok room →
  decode_message (Body request) = Some text →
  match InsertMessage q roomId text with
  | Ok messageId =>
      let message :=
        mkMessage (room_id request) "message_created"
          (AnyMessageCreatedValue (mkMessageCreatedValue (uuid_String messageId) text)) in
      handleCreateRoomMessage q request =
        [EvGetRoom roomId;
         EvInsertMessage roomId text;
         EvRespond (http_JSON (JObject [("message_id", JString (uuid_String messageId))]));
         EvGo message]
      ∧ goroutines (handleCreateRoomMessage q request) = [Notify PubLock message]
      ∧ (∀ st, ∃ st1,
           exec (ReqCreateMessage q request) st = Some st1
           ∧ threads st1 = threads st ++ [Notify PubLock message]
           ∧ events st1 = events st ++ handleCreateRoomMessage q request
           ∧ subscribers st1 = subscribers st ∧ mutex st1 = mutex st
           ∧ cancelled st1 = cancelled st)
  | Err _ =>
      handleCreateRoomMessage q request =
        [EvGetRoom roomId;
         EvInsertMessage roomId text;
         EvRespond (http_Error "Something went wrong" 500)]
      ∧ goroutines (handleCreateRoomMessage q request) = []
      ∧ (∀ st, ∃ st1,
           exec (ReqCreateMessage q request) st = Some st1
           ∧ threads st1 = threads st
           ∧ events st1 = events st ++ handleCreateRoomMessage q request
           ∧ subscribers st1 = subscribers st ∧ mutex st1 = mutex st
           ∧ cancelled st1 = cancelled st)
  end
  ∧ (∀ st ls st', run (ReqCreateMessage q request :: ls) st = Some st' →
       events st ++ handleCreateRoomMessage q request `prefix_of` events st')
  ∧ (∀ st i order st', exec (Run i order) st = Some st' →
       ∃ evs, events st' = events st ++ evs ∧ ∀ r, EvRespond r ∉ evs).
Proof.
  intros Hparse Hroom Hbody. split; [|split].
  - assert (Hexec : ∀ st, exec (ReqCreateMessage q request) st
                          = Some (spawn (goroutines (handleCreateRoomMessage q request))
                                    (emit (handleCreateRoomMessage q request) st))) by done.
    destruct (InsertMessage q roomId text) as [messageId | e] eqn:Hins.
    + assert (Hevs : handleCreateRoomMessage q request =
        [EvGetRoom roomId;
         EvInsertMessage roomId text;
         EvRespond (http_JSON (JObject [("message_id", JString (uuid_String messageId))]));
         EvGo (mkMessage (room_id request) "message_created"
                 (AnyMessageCreatedValue
                    (mkMessageCreatedValue (uuid_String messageId) text)))]).
      { unfold handleCreateRoomMessage. by rewrite Hparse, Hroom, Hbody, Hins. }
      cbv zeta. split; [exact Hevs |].
      assert (Hgo : goroutines (handleCreateRoomMessage q request)
                    = [Notify PubLock
                         (mkMessage (room_id request) "message_created"
                            (AnyMessageCreatedValue
                               (mkMessageCreatedValue (uuid_String messageId) text)))])
        by (by rewrite Hevs).
      split; [exact Hgo |]. intros st. eexists. split; [apply Hexec |].
      cbn [threads events subscribers mutex cancelled spawn emit]. by rewrite Hgo.
    + assert (Hevs : handleCreateRoomMessage q request =
        [EvGetRoom roomId;
         EvInsertMessage roomId text;
         EvRespond (http_Error "Something went wrong" 500)]).
      { unfold handleCreateRoomMessage. by rewrite Hparse, Hroom, Hbody, Hins. }
      split; [exact Hevs |].
      assert (Hgo : goroutines (handleCreateRoomMessage q request) = [])
        by (by rewrite Hevs).
      split; [exact Hgo |]. intros st. eexists. split; [apply Hexec |].
      cbn [threads events subscribers mutex cancelled spawn emit].
      by rewrite Hgo, app_nil_r.
  - intros st ls st' H. apply run_cons_events in H as (st1 & E & Hpre).
    simpl in E. by injection E as <-.
  - intros st i order st' H. by apply thread_step_events in H.
Qed.

(** ** C4 *)

(** C4: a subscribe request whose room id does not parse is answered 400;
    one whose room the store does not know, 404; one on which the store
    fails otherwise, 500.  In each case the answer is the last thing the
    request does: no upgrade was attempted, no connection allocated, no
    goroutine is left to register anything, and the map is as it was. *)
Theorem handleSubscribe_rejects q request st :
  let rejected code :=
    ∃ evs error,
      exec (ReqSubscribe q request) st = Some (emit evs st)
      ∧ last evs = Some (EvRespond (http_Error error code))
      ∧ (∀ c, EvUpgrade c ∉ evs)
      ∧ subscribers (emit evs st) = subscribers st
      ∧ threads (emit evs st) = threads st
      ∧ conns (emit evs st) = conns st in
  (uuid_Parse (room_id request) = None → rejected 400)
  ∧ (∀ roomId, uuid_Parse (room_id request) = Some roomId →
       GetRoom q roomId = Err ErrNoRows → rejected 404)
  ∧ (∀ roomId e, uuid_Parse (room_id request) = Some roomId →
       GetRoom q roomId = Err e → e ≠ ErrNoRows → rejected 500).
Proof.
  intros rejected. unfold rejected. simpl.
  unfold handleSubscribe_open. repeat split.
  - intros ->. do 2 eexists. split; [done |]. split; [done |].
    split; [|done]. intros c. set_solver.
  - intros roomId -> ->. do 2 eexists. split; [done |]. split; [done |].
    split; [|done]. intros c. set_solver.
  - intros roomId e -> -> He. destruct e; [done |].
    do 2 eexists. split; [done |]. split; [done |].
    split; [|done]. intros c. set_solver.
Qed.

(** ** The invariant *)

Lemma live_conns_app r evs evs' :
  live_conns r (evs ++ evs') = foldl (replay r) (live_conns r evs) evs'.
Proof. unfold live_conns. apply foldl_app. Qed.

Lemma replay_quiet r live evs :
  Forall quiet evs → foldl (replay r) live evs = live.
Proof.
  induction 1 as [|e evs He _ IH]; simpl; [done |].
  destruct e; simpl in He; try done; apply IH.
Qed.

Lemma live_conns_quiet r evs evs' :
  Forall quiet evs' → live_conns r (evs ++ evs') = live_conns r evs.
Proof. intros H. rewrite live_conns_app. by apply replay_quiet. Qed.

Lemma handleSubscribe_open_quiet q request fresh :
  Forall quiet (handleSubscribe_open q request fresh).1.
Proof.
  unfold handleSubscribe_open.
  repeat case_match; simpl; repeat constructor.
Qed.

Lemma handleCreateRoomMessage_quiet q request :
  Forall quiet (handleCreateRoomMessage q request).
Proof.
  unfold handleCreateRoomMessage.
  repeat case_match; simpl; repeat constructor.
Qed.

Lemma goroutines_spec evs t :
  t ∈ goroutines evs → ∃ m, t = Notify PubLock m.
Proof.
  unfold goroutines. rewrite list_elem_of_omap. intros (e & _ & H).
  destruct e; simplify_eq. eauto.
Qed.

Lemma inv_init : inv init.
Proof.
  split; simpl; intros; by simplify_list_eq.
Qed.

Lemma inv_env st st' :
  inv st →
  subscribers st' = subscribers st → mutex st' = mutex st →
  threads st' = threads st → conns st' = conns st →
  (∀ r, live_conns r (events st') = live_conns r (events st)) →
  inv st'.
Proof.
  intros [] Hs Hm Ht Hc He.
  split; rewrite ?Hs, ?Hm, ?Ht, ?Hc; try done.
  intros r. by rewrite He.
Qed.

Lemma inv_spawn st st' ts :
  inv st →
  subscribers st' = subscribers st → mutex st' = mutex st →
  threads st' = threads st ++ ts → conns st' = conns st →
  (∀ r, live_conns r (events st') = live_conns r (events st)) →
  (∀ t, t ∈ ts → ∃ m, t = Notify PubLock m) →
  inv st'.
Proof.
  intros [] Hs Hm Ht Hc He Hts.
  assert (Hold : ∀ j t, (threads st ++ ts) !! j = Some t →
            threads st !! j = Some t ∨ ∃ m, t = Notify PubLock m).
  { intros j t H. apply lookup_app_Some in H as [H | [_ H]]; [by left | right].
    apply Hts. by eapply list_elem_of_lookup_2. }
  assert (Hnew : ∀ j t, threads st !! j = Some t → (threads st ++ ts) !! j = Some t).
  { intros j t H. by apply lookup_app_l_Some. }
  split; rewrite ?Hs, ?Hm, ?Ht, ?Hc.
  - intros i t H Hcrit. apply Hold in H as [H | [m ->]]; [eauto | done].
  - intros i pc r c k H. apply Hold in H as [H | [m ?]]; [eauto | done].
  - intros i j pc pc' r r' c k k' H H'.
    apply Hold in H as [H | [m ?]]; [|done].
    apply Hold in H' as [H' | [m ?]]; [eauto | done].
  - intros r room c k H H'. destruct (inv_entry0 _ _ _ _ H H') as (i & pc & ? & ?).
    eauto.
  - intros i pc r c k H. apply Hold in H as [H | [m ?]]; [eauto | done].
  - intros i t H. apply Hold in H as [H | [m ->]]; [eauto | done].
  - intros r. by rewrite He.
Qed.

Lemma lookup_goto (ts : list Thread) i t' j x :
  <[i := t']> ts !! j = Some x → (j = i ∧ x = t') ∨ (j ≠ i ∧ ts !! j = Some x).
Proof. rewrite list_lookup_insert_Some. naive_solver. Qed.

Lemma goto_self (ts : list Thread) i t t' :
  ts !! i = Some t → <[i := t']> ts !! i = Some t'.
Proof. intros H. apply list_lookup_insert_eq. by eapply lookup_lt_Some. Qed.

Lemma goto_other (ts : list Thread) i t' j :
  j ≠ i → <[i := t']> ts !! j = ts !! j.
Proof. intros H. by apply list_lookup_insert_ne. Qed.

Lemma session_Subscribe t r c k b :
  session t = Some (r, c, k, b) → ∃ pc, t = Subscribe pc r c k ∧ registered pc = b.
Proof. destruct t; simpl; intros; simplify_eq; eauto. Qed.

(** A step of goroutine [i] that leaves the map alone. *)
Lemma inv_goto st st' i t t' :
  inv st → threads st !! i = Some t →
  threads st' = <[i := t']> (threads st) →
  subscribers st' = subscribers st → conns st' = conns st →
  (∀ r, live_conns r (events st') = live_conns r (events st)) →
  session t' = session t →
  room_ready (subscribers st) t' →
  (critical t' = true → mutex st' = Some i) →
  (mutex st' = mutex st ∨ mutex st = None ∨ critical t = true) →
  inv st'.
Proof.
  intros [] Hi Ht Hs Hc He Hsess Hready Hcrit Hmutex.
  assert (Hsame : ∀ pc r c k, t' = Subscribe pc r c k →
            ∃ pc0, t = Subscribe pc0 r c k ∧ registered pc0 = registered pc).
  { intros pc r c k ->. symmetry in Hsess. by apply session_Subscribe in Hsess. }
  assert (Hsame' : ∀ pc r c k, t = Subscribe pc r c k →
            ∃ pc0, t' = Subscribe pc0 r c k ∧ registered pc0 = registered pc).
  { intros pc r c k ->. by apply session_Subscribe in Hsess. }
  split; rewrite ?Hs, ?Ht, ?Hc.
  - intros j x H Hx. apply lookup_goto in H as [[-> ->] | [Hne H]]; [auto |].
    pose proof (inv_mutex0 _ _ H Hx) as Hj.
    destruct Hmutex as [-> | [Hm | Hm]]; [done | congruence |].
    pose proof (inv_mutex0 _ _ Hi Hm). congruence.
  - intros j pc r c k H. apply lookup_goto in H as [[-> <-] | [Hne H]]; [|eauto].
    destruct (Hsame _ _ _ _ eq_refl) as (pc0 & -> & _). eauto.
  - intros j j' pc pc' r r' c k k' H H'.
    apply lookup_goto in H as [[-> <-] | [Hne H]];
      apply lookup_goto in H' as [[-> E] | [Hne' H']]; try done.
    + destruct (Hsame _ _ _ _ eq_refl) as (pc0 & -> & _). eauto.
    + destruct (Hsame _ _ _ _ (eq_sym E)) as (pc0 & -> & _). eauto.
    + eauto.
  - intros r room c k H H'.
    destruct (inv_entry0 _ _ _ _ H H') as (j & pc & Hj & Hreg).
    destruct (decide (j = i)) as [-> | Hne].
    + rewrite Hi in Hj. injection Hj as ->.
      destruct (Hsame' _ _ _ _ eq_refl) as (pc0 & -> & Hreg0).
      exists i, pc0. split; [by eapply goto_self | congruence].
    + exists j, pc. by rewrite goto_other.
  - intros j pc r c k H Hreg. apply lookup_goto in H as [[-> <-] | [Hne H]]; [|eauto].
    destruct (Hsame _ _ _ _ eq_refl) as (pc0 & -> & Hreg0).
    eapply inv_session0; [done | congruence].
  - intros j x H. apply lookup_goto in H as [[-> ->] | [Hne H]]; eauto.
  - intros r. by rewrite He.
Qed.

(** Line 241. *)
Lemma inv_make_room st i r c k :
  inv st → threads st !! i = Some (Subscribe SubMakeRoom r c k) →
  inv (set_thread i (Subscribe SubStoreConn r c k)
         (set_subscribers (make_room r (subscribers st)) st)).
Proof.
  intros Hinv Hi. pose proof Hinv as [].
  pose proof (inv_ready0 _ _ Hi) as Hnone. simpl in Hnone.
  assert (Hexcl : ∀ j x, j ≠ i → threads st !! j = Some x → critical x = false).
  { intros j x Hne Hj. destruct (critical x) eqn:E; [|done].
    pose proof (inv_mutex0 _ _ Hj E). pose proof (inv_mutex0 _ _ Hi eq_refl). congruence. }
  split; simpl.
  - intros j x H Hx. apply lookup_goto in H as [[-> ->] | [Hne H]]; [|eauto].
    by eapply (inv_mutex0 i).
  - intros j pc r' c' k' H. apply lookup_goto in H as [[-> E] | [Hne H]]; [|eauto].
    simplify_eq. eauto.
  - intros j j' pc pc' r1 r2 c' k1 k2 H H'.
    apply lookup_goto in H as [[-> E] | [Hne H]];
      apply lookup_goto in H' as [[-> E'] | [Hne' H']]; try done.
    + simplify_eq. eauto.
    + simplify_eq. eauto.
    + eauto.
  - intros r' room c' k' H H'. unfold make_room in H.
    destruct (decide (r = r')) as [<- | Hr].
    + rewrite lookup_insert_eq in H. injection H as <-. by rewrite lookup_empty in H'.
    + rewrite lookup_insert_ne in H by done.
      destruct (inv_entry0 _ _ _ _ H H') as (j & pc & Hj & Hreg).
      exists j, pc. split; [|done]. rewrite goto_other; [done |].
      intros ->. rewrite Hi in Hj. by simplify_eq.
  - intros j pc r' c' k' H Hreg. apply lookup_goto in H as [[-> E] | [Hne H]].
    { by simplify_eq. }
    destruct (inv_session0 _ _ _ _ _ H Hreg) as (room & Hroom & Hc).
    exists room. split; [|done]. unfold make_room. rewrite lookup_insert_ne; [done |].
    intros <-. congruence.
  - intros j x H. apply lookup_goto in H as [[-> ->] | [Hne H]].
    { simpl. unfold make_room. rewrite lookup_insert_eq. eauto. }
    pose proof (inv_ready0 _ _ H) as Hx. pose proof (Hexcl _ _ Hne H) as Hc.
    destruct x as [[] ? ? ?|[]]; simpl in *; done.
  - intros r'. rewrite room_conns_make by done. apply inv_log0.
Qed.

(** Line 246. *)
Lemma inv_store_conn st i r c k subs :
  inv st → threads st !! i = Some (Subscribe SubStoreConn r c k) →
  store_conn r c k (subscribers st) = Some subs →
  inv (set_thread i (Subscribe SubUnlockAdd r c k)
         (emit [EvStore r c] (set_subscribers subs st))).
Proof.
  intros Hinv Hi Hstore. pose proof Hinv as [].
  assert (Hexcl : ∀ j x, j ≠ i → threads st !! j = Some x → critical x = false).
  { intros j x Hne Hj. destruct (critical x) eqn:E; [|done].
    pose proof (inv_mutex0 _ _ Hj E). pose proof (inv_mutex0 _ _ Hi eq_refl). congruence. }
  pose proof Hstore as Hstore'. unfold store_conn in Hstore'.
  destruct (subscribers st !! r) as [room0|] eqn:Hroom0; [|done].
  injection Hstore' as <-.
  split; simpl.
  - intros j x H Hx. apply lookup_goto in H as [[-> ->] | [Hne H]]; [|eauto].
    by eapply (inv_mutex0 i).
  - intros j pc r' c' k' H. apply lookup_goto in H as [[-> E] | [Hne H]]; [|eauto].
    simplify_eq. eauto.
  - intros j j' pc pc' r1 r2 c' k1 k2 H H'.
    apply lookup_goto in H as [[-> E] | [Hne H]];
      apply lookup_goto in H' as [[-> E'] | [Hne' H']]; try done.
    + simplify_eq. eauto.
    + simplify_eq. eauto.
    + eauto.
  - intros r' room c' k' H H'.
    destruct (decide (r = r')) as [<- | Hr].
    + rewrite lookup_insert_eq in H. injection H as <-.
      destruct (decide (c = c')) as [<- | Hc].
      * rewrite lookup_insert_eq in H'. injection H' as <-.
        exists i, SubUnlockAdd. split; [by eapply goto_self | done].
      * rewrite lookup_insert_ne in H' by done.
        destruct (inv_entry0 _ _ _ _ Hroom0 H') as (j & pc & Hj & Hreg).
        exists j, pc. split; [|done]. rewrite goto_other; [done |].
        intros ->. rewrite Hi in Hj. by simplify_eq.
    + rewrite lookup_insert_ne in H by done.
      destruct (inv_entry0 _ _ _ _ H H') as (j & pc & Hj & Hreg).
      exists j, pc. split; [|done]. rewrite goto_other; [done |].
      intros ->. rewrite Hi in Hj. by simplify_eq.
  - intros j pc r' c' k' H Hreg. apply lookup_goto in H as [[-> E] | [Hne H]].
    { injection E as -> -> -> ->. exists (<[c := k]> room0).
      by rewrite !lookup_insert_eq. }
    destruct (inv_session0 _ _ _ _ _ H Hreg) as (room & Hroom & Hc).
    destruct (decide (r = r')) as [<- | Hr].
    + exists (<[c := k]> room0). rewrite lookup_insert_eq. split; [done |].
      assert (room = room0) as -> by congruence.
      rewrite lookup_insert_ne; [done |]. intros <-.
      by pose proof (inv_unique0 _ _ _ _ _ _ _ _ _ Hi H).
    + exists room. by rewrite lookup_insert_ne.
  - intros j x H. apply lookup_goto in H as [[-> ->] | [Hne H]]; [done |].
    pose proof (inv_ready0 _ _ H) as Hx. pose proof (Hexcl _ _ Hne H) as Hc.
    destruct x as [[] ? ? ?|[]]; simpl in *; done.
  - intros r'. rewrite (room_conns_store _ _ _ _ _ r' Hstore).
    rewrite live_conns_app. simpl. rewrite <- inv_log0. done.
Qed.

(** Line 254. *)
Lemma inv_delete_conn st i r c k :
  inv st → threads st !! i = Some (Subscribe SubDeleteConn r c k) →
  inv (set_thread i (Subscribe SubUnlockRemove r c k)
         (emit [EvDelete r c]
            (set_subscribers (delete_conn r c (subscribers st)) st))).
Proof.
  intros Hinv Hi. pose proof Hinv as [].
  assert (Hexcl : ∀ j x, j ≠ i → threads st !! j = Some x → critical x = false).
  { intros j x Hne Hj. destruct (critical x) eqn:E; [|done].
    pose proof (inv_mutex0 _ _ Hj E). pose proof (inv_mutex0 _ _ Hi eq_refl). congruence. }
  destruct (inv_session0 _ _ _ _ _ Hi eq_refl) as (room0 & Hroom0 & Hc0).
  assert (Hdel : delete_conn r c (subscribers st)
                 = <[r := delete c room0]> (subscribers st)).
  { unfold delete_conn. by rewrite Hroom0. }
  split; simpl.
  - intros j x H Hx. apply lookup_goto in H as [[-> ->] | [Hne H]]; [|eauto].
    by eapply (inv_mutex0 i).
  - intros j pc r' c' k' H. apply lookup_goto in H as [[-> E] | [Hne H]]; [|eauto].
    simplify_eq. eauto.
  - intros j j' pc pc' r1 r2 c' k1 k2 H H'.
    apply lookup_goto in H as [[-> E] | [Hne H]];
      apply lookup_goto in H' as [[-> E'] | [Hne' H']]; try done.
    + simplify_eq. eauto.
    + simplify_eq. eauto.
    + eauto.
  - intros r' room c' k' H H'. rewrite Hdel in H.
    assert (∃ room1, subscribers st !! r' = Some room1 ∧ room1 !! c' = Some k'
                     ∧ (r', c') ≠ (r, c)) as (room1 & H1 & H1' & Hne).
    { destruct (decide (r = r')) as [<- | Hr].
      - rewrite lookup_insert_eq in H. injection H as <-.
        apply lookup_delete_Some in H' as [? ?]. exists room0. naive_solver.
      - rewrite lookup_insert_ne in H by done. exists room. naive_solver. }
    destruct (inv_entry0 _ _ _ _ H1 H1') as (j & pc & Hj & Hreg).
    exists j, pc. split; [|done]. rewrite goto_other; [done |].
    intros ->. rewrite Hi in Hj. by simplify_eq.
  - intros j pc r' c' k' H Hreg. apply lookup_goto in H as [[-> E] | [Hne H]].
    { by simplify_eq. }
    destruct (inv_session0 _ _ _ _ _ H Hreg) as (room & Hroom & Hc).
    rewrite Hdel. destruct (decide (r = r')) as [<- | Hr].
    + exists (delete c room0). rewrite lookup_insert_eq. split; [done |].
      assert (room = room0) as -> by congruence.
      rewrite lookup_delete_ne; [done |]. intros <-.
      by pose proof (inv_unique0 _ _ _ _ _ _ _ _ _ Hi H).
    + exists room. by rewrite lookup_insert_ne.
  - intros j x H. apply lookup_goto in H as [[-> ->] | [Hne H]]; [done |].
    pose proof (inv_ready0 _ _ H) as Hx. pose proof (Hexcl _ _ Hne H) as Hc.
    destruct x as [[] ? ? ?|[]]; simpl in *; done.
  - intros r'. rewrite room_conns_delete.
    rewrite live_conns_app. simpl. rewrite <- inv_log0. done.
Qed.

(** Line 236: a new session, on a connection no one else has. *)
Lemma inv_subscribe st r evs :
  inv st → Forall quiet evs →
  inv (alloc_conn (spawn [Subscribe SubLockAdd r (conns st) (conns st)] (emit evs st))).
Proof.
  intros [] Hq.
  assert (Hold : ∀ j t, (threads st ++ [Subscribe SubLockAdd r (conns st) (conns st)]) !! j
                        = Some t →
            threads st !! j = Some t
            ∨ (j = length (threads st) ∧ t = Subscribe SubLockAdd r (conns st) (conns st))).
  { intros j t H. apply lookup_app_Some in H as [H | [Hge H]]; [by left | right].
    apply list_lookup_singleton_Some in H as [H <-]. split; [lia | done]. }
  split; simpl.
  - intros i t H Hcrit. apply Hold in H as [H | [_ ->]]; [eauto | done].
  - intros i pc r' c k H. apply Hold in H as [H | [_ E]].
    + destruct (inv_fresh0 _ _ _ _ _ H). split; [lia | done].
    + simplify_eq. split; [lia | done].
  - intros i j pc pc' r1 r2 c k1 k2 H H'.
    apply Hold in H as [H | [-> E]]; apply Hold in H' as [H' | [-> E']]; try done.
    + eauto.
    + simplify_eq. destruct (inv_fresh0 _ _ _ _ _ H). lia.
    + simplify_eq. destruct (inv_fresh0 _ _ _ _ _ H'). lia.
  - intros r' room c k H H'. destruct (inv_entry0 _ _ _ _ H H') as (i & pc & Hi & Hreg).
    exists i, pc. split; [|done]. by apply lookup_app_l_Some.
  - intros i pc r' c k H Hreg. apply Hold in H as [H | [_ E]]; [eauto |].
    by simplify_eq.
  - intros i t H. apply Hold in H as [H | [_ ->]]; [eauto | done].
  - intros r'. rewrite live_conns_quiet by done. apply inv_log0.
Qed.

Lemma lock_Some i st st' :
  lock i st = Some st' ↔ mutex st = None ∧ st' = set_mutex (Some i) st.
Proof. unfold lock. destruct (mutex st); naive_solver. Qed.

Lemma unlock_Some st st' :
  unlock st = Some st' ↔ is_Some (mutex st) ∧ st' = set_mutex None st.
Proof.
  unfold unlock. destruct (mutex st); split; naive_solver.
Qed.

Lemma notify_one_frame message st entry :
  subscribers (notify_one message st entry) = subscribers st
  ∧ mutex (notify_one message st entry) = mutex st
  ∧ threads (notify_one message st entry) = threads st
  ∧ conns (notify_one message st entry) = conns st
  ∧ ∃ evs, events (notify_one message st entry) = events st ++ evs ∧ Forall quiet evs.
Proof.
  destruct entry as [c k]. unfold notify_one. destruct (write_fails st c); simpl.
  - repeat split. eexists. split; [done |]. repeat constructor.
  - repeat split. eexists. split; [done |]. repeat constructor.
Qed.

Ltac goto_step i := eapply (inv_goto _ _ i); eauto; simpl; try done.

Lemma subscribe_step_inv i pc r c k st st' :
  inv st → threads st !! i = Some (Subscribe pc r c k) →
  subscribe_step i pc r c k st = Some st' → inv st'.
Proof.
  intros Hinv Hi. pose proof Hinv as [].
  destruct pc; simpl; intros H.
  - apply fmap_Some in H as (s & (Hm & ->)%lock_Some & ->).
    goto_step i.
  - injection H as <-. pose proof (inv_mutex0 _ _ Hi eq_refl) as Hm.
    unfold room_present. case_bool_decide as P; goto_step i.
    by apply eq_None_not_Some.
  - injection H as <-. by apply inv_make_room.
  - apply bind_Some in H as (subs & Hstore & [= <-]). by apply inv_store_conn.
  - apply fmap_Some in H as (s & (Hm & ->)%unlock_Some & ->).
    goto_step i.
  - destruct (ctx_done st k); [|done]. injection H as <-.
    goto_step i.
  - apply fmap_Some in H as (s & (Hm & ->)%lock_Some & ->).
    goto_step i.
  - injection H as <-. by apply inv_delete_conn.
  - apply fmap_Some in H as (s & (Hm & ->)%unlock_Some & ->).
    goto_step i.
  - injection H as <-. goto_step i; simpl.
    intros r'. by apply live_conns_quiet; repeat constructor.
  - done.
Qed.

Lemma notify_step_inv i order pc m st st' :
  inv st → threads st !! i = Some (Notify pc m) →
  notify_step i order pc m st = Some st' → inv st'.
Proof.
  intros Hinv Hi. pose proof Hinv as [].
  assert (Hlog : ∀ s : State, ∀ r',
            live_conns r' (events s ++ [EvNoSubscribers (RoomId m)]) = live_conns r' (events s)).
  { intros s r'. by apply live_conns_quiet; repeat constructor. }
  destruct pc as [ | | [|entry rest] | | ]; simpl; intros H.
  - apply fmap_Some in H as (s & (Hm & ->)%lock_Some & ->).
    goto_step i.
  - pose proof (inv_mutex0 _ _ Hi eq_refl) as Hm.
    destruct (subscribers st !! RoomId m) as [room|] eqn:Hroom.
    + destruct (decide (size room = 0)); [simplify_eq; goto_step i |].
      destruct (decide (order ≡ₚ map_to_list room)) as [Hp|]; [|done].
      simplify_eq. goto_step i.
      intros c k Hck. exists room. split; [done |].
      apply elem_of_map_to_list. by rewrite <- Hp.
    + simplify_eq. goto_step i.
  - pose proof (inv_mutex0 _ _ Hi eq_refl) as Hm.
    simplify_eq. goto_step i.
  - pose proof (inv_mutex0 _ _ Hi eq_refl) as Hm. injection H as <-.
    pose proof (inv_ready0 _ _ Hi) as Hrest. simpl in Hrest.
    destruct (notify_one_frame m st entry) as (Hs & Hmu & Ht & Hc & evs & He & Hq).
    eapply (inv_goto st _ i _ (Notify (PubRange rest) m)); eauto; simpl;
      try done; try congruence.
    + intros r'. rewrite He. by apply live_conns_quiet.
    + intros c k Hck. apply Hrest. by apply elem_of_cons; right.
  - apply fmap_Some in H as (s & (Hm & ->)%unlock_Some & ->).
    goto_step i.
  - done.
Qed.

Lemma exec_inv l st st' : inv st → exec l st = Some st' → inv st'.
Proof.
  intros Hinv. destruct l as [i order | q request | q request | k | c]; simpl.
  - unfold thread_step. destruct (threads st !! i) as [[pc r c k | pc m]|] eqn:Hi;
      simpl; [| |done].
    + by apply subscribe_step_inv.
    + by apply notify_step_inv.
  - pose proof (handleSubscribe_open_quiet q request (conns st)) as Hq.
    destruct (handleSubscribe_open q request (conns st)) as [evs []];
      intros [= <-]; simpl in Hq.
    + by apply inv_subscribe.
    + eapply inv_env; eauto. intros r. by apply live_conns_quiet.
  - intros [= <-]. eapply inv_spawn; eauto.
    + intros r. simpl. apply live_conns_quiet, handleCreateRoomMessage_quiet.
    + apply goroutines_spec.
  - intros [= <-]. by eapply inv_env.
  - intros [= <-]. by eapply inv_env.
Qed.

Lemma run_inv ls st st' : inv st → run ls st = Some st' → inv st'.
Proof.
  revert st. induction ls as [|l ls IH]; simpl; intros st Hinv.
  - by intros [= <-].
  - destruct (exec l st) as [st1|] eqn:E; [|done]. simpl.
    apply IH. by eapply exec_inv.
Qed.

Lemma reachable_inv st : reachable st → inv st.
Proof. intros [ls H]. eapply run_inv; [apply inv_init | done]. Qed.

(** ** A connection has one room *)

Lemma one_room st r1 r2 c :
  inv st →
  c ∈ room_conns r1 (subscribers st) → c ∈ room_conns r2 (subscribers st) → r1 = r2.
Proof.
  intros [] (room1 & H1 & [k1 Hk1])%room_conns_spec (room2 & H2 & [k2 Hk2])%room_conns_spec.
  destruct (inv_entry0 _ _ _ _ H1 Hk1) as (i & pc & Hi & _).
  destruct (inv_entry0 _ _ _ _ H2 Hk2) as (j & pc' & Hj & _).
  pose proof (inv_unique0 _ _ _ _ _ _ _ _ _ Hi Hj) as ->. congruence.
Qed.

(** ** C10 *)

Lemma untouched_subscribers i order t st st' :
  threads st !! i = Some t → touches_subscribers t = false →
  thread_step i order st = Some st' → subscribers st' = subscribers st.
Proof.
  intros Hi Ht. unfold thread_step. rewrite Hi. simpl.
  destruct t as [pc r c k | pc m]; [destruct pc | destruct pc as [ | | [|e rest] | | ]];
    try done; simpl; intros H.
  - by apply fmap_Some in H as (s & (Hm & ->)%lock_Some & ->).
  - by apply fmap_Some in H as (s & (Hm & ->)%unlock_Some & ->).
  - destruct (ctx_done st k); by simplify_eq.
  - by apply fmap_Some in H as (s & (Hm & ->)%lock_Some & ->).
  - by apply fmap_Some in H as (s & (Hm & ->)%unlock_Some & ->).
  - by simplify_eq.
  - by apply fmap_Some in H as (s & (Hm & ->)%lock_Some & ->).
  - by apply fmap_Some in H as (s & (Hm & ->)%unlock_Some & ->).
Qed.

(** The goroutine that holds the mutex is never stuck: line 246 finds the
    slot it needs, and every [Unlock] finds the mutex locked. *)
Lemma critical_runs st i t :
  inv st → threads st !! i = Some t → critical t = true →
  ∃ order st', exec (Run i order) st = Some st'.
Proof.
  intros [] Hi Hcrit. pose proof (inv_mutex0 _ _ Hi Hcrit) as Hm.
  pose proof (inv_ready0 _ _ Hi) as Hready.
  unfold exec, thread_step. rewrite Hi.
  destruct t as [pc r c k | pc m];
    [destruct pc | destruct pc as [ | | [|e rest] | | ]]; try done; simpl in *.
  - exists []. eauto.
  - exists []. eauto.
  - exists []. unfold store_conn. destruct Hready as [room ->]. simpl. eauto.
  - exists []. unfold unlock. rewrite Hm. simpl. eauto.
  - exists []. eauto.
  - exists []. unfold unlock. rewrite Hm. simpl. eauto.
  - destruct (subscribers st !! RoomId m) as [room|]; [| exists []; eauto].
    exists (map_to_list room). destruct (decide (size room = 0)); [eauto |].
    rewrite decide_True by done. eauto.
  - exists []. eauto.
  - exists []. eauto.
  - exists []. unfold unlock. rewrite Hm. simpl. eauto.
Qed.

(** C10: in every state the server reaches, a goroutine about to read or
    write the map holds the mutex, and at most one goroutine is between a
    [Lock] and its [Unlock]; the statements outside leave the map as it is;
    the goroutine that holds the mutex can always run its next statement;
    the entries a broadcast has yet to visit are entries of the map; the
    connections under a room are the adds to it not yet matched by a remove,
    and they are the connections of the sessions that have run line 246 and
    not yet line 254. *)
Theorem subscribers_serialized st :
  reachable st →
  (∀ i t, threads st !! i = Some t → touches_subscribers t = true →
          critical t = true ∧ mutex st = Some i)
  ∧ (∀ i j ti tj, threads st !! i = Some ti → threads st !! j = Some tj →
                  critical ti = true → critical tj = true → i = j)
  ∧ (∀ i order t st', threads st !! i = Some t → touches_subscribers t = false →
                      exec (Run i order) st = Some st' → subscribers st' = subscribers st)
  ∧ (∀ i t, threads st !! i = Some t → critical t = true →
            ∃ order st', exec (Run i order) st = Some st')
  ∧ (∀ i rest m c k, threads st !! i = Some (Notify (PubRange rest) m) → (c, k) ∈ rest →
                     ∃ room, subscribers st !! RoomId m = Some room ∧ room !! c = Some k)
  ∧ (∀ r, room_conns r (subscribers st) = live_conns r (events st))
  ∧ (∀ r c, c ∈ room_conns r (subscribers st) ↔
            ∃ i pc k, threads st !! i = Some (Subscribe pc r c k) ∧ registered pc = true).
Proof.
  intros Hinv%reachable_inv. pose proof Hinv as [].
  split; [|split; [|split; [|split; [|split; [|split]]]]]; [split | ..].
  - by destruct t as [[] ? ? ?|[]].
  - eapply inv_mutex0; [done |]. by destruct t as [[] ? ? ?|[]].
  - intros i j ti tj Hi Hj Hci Hcj.
    pose proof (inv_mutex0 _ _ Hi Hci). pose proof (inv_mutex0 _ _ Hj Hcj). congruence.
  - intros i order t st'. apply untouched_subscribers.
  - intros i t. by apply critical_runs.
  - intros i rest m c k Hi. by apply (inv_ready0 _ _ Hi).
  - done.
  - intros r c. rewrite room_conns_spec. split.
    + intros (room & Hr & [k Hk]). destruct (inv_entry0 _ _ _ _ Hr Hk) as (i & pc & ? & ?).
      eauto.
    + intros (i & pc & k & Hi & Hreg).
      destruct (inv_session0 _ _ _ _ _ Hi Hreg) as (room & ? & ?). eauto.
Qed.

(** ** Running a goroutine *)


Lemma run_nil st : run [] st = Some st.
Proof. done. Qed.

Lemma run_cons l ls st : run (l :: ls) st = exec l st ≫= run ls.
Proof. done. Qed.

Lemma step_subscribe i o st pc r c k :
  threads st !! i = Some (Subscribe pc r c k) →
  exec (Run i o) st = subscribe_step i pc r c k st.
Proof. intros H. unfold exec, thread_step. by rewrite H. Qed.

Lemma step_notify i o st pc m :
  threads st !! i = Some (Notify pc m) →
  exec (Run i o) st = notify_step i o pc m st.
Proof. intros H. unfold exec, thread_step. by rewrite H. Qed.

Lemma set_thread_twice i a b st :
  set_thread i a (set_thread i b st) = set_thread i a st.
Proof. unfold set_thread. simpl. by rewrite list_insert_insert_eq. Qed.

Lemma set_thread_lookup i t t' st :
  threads st !! i = Some t → threads (set_thread i t' st) !! i = Some t'.
Proof. simpl. apply goto_self. Qed.

Lemma set_thread_lookup_ne i j t' st :
  j ≠ i → threads (set_thread i t' st) !! j = threads st !! j.
Proof. simpl. apply goto_other. Qed.

Lemma notify_one_set_thread m i t st e :
  notify_one m (set_thread i t st) e = set_thread i t (notify_one m st e).
Proof.
  destruct e as [c k]. unfold notify_one, write_fails. simpl.
  by destruct (bool_decide (c ∈ broken st) || bool_decide (c ∈ closed st)).
Qed.

Lemma notify_all_set_thread m i t st order :
  foldl (notify_one m) (set_thread i t st) order
  = set_thread i t (foldl (notify_one m) st order).
Proof.
  revert st. induction order as [|e order IH]; intros st; [done |].
  cbn [foldl]. by rewrite notify_one_set_thread, IH.
Qed.

Lemma notify_one_set_mutex m x st e :
  notify_one m (set_mutex x st) e = set_mutex x (notify_one m st e).
Proof.
  destruct e as [c k]. unfold notify_one, write_fails. simpl.
  by destruct (bool_decide (c ∈ broken st) || bool_decide (c ∈ closed st)).
Qed.

Lemma notify_all_set_mutex m x st order :
  foldl (notify_one m) (set_mutex x st) order
  = set_mutex x (foldl (notify_one m) st order).
Proof.
  revert st. induction order as [|e order IH]; intros st; [done |].
  cbn [foldl]. by rewrite notify_one_set_mutex, IH.
Qed.

Lemma notify_all_frame m st order :
  subscribers (foldl (notify_one m) st order) = subscribers st
  ∧ mutex (foldl (notify_one m) st order) = mutex st
  ∧ threads (foldl (notify_one m) st order) = threads st
  ∧ conns (foldl (notify_one m) st order) = conns st
  ∧ broken (foldl (notify_one m) st order) = broken st
  ∧ closed (foldl (notify_one m) st order) = closed st
  ∧ reqDone (foldl (notify_one m) st order) = reqDone st.
Proof.
  revert st. induction order as [|[c k] order IH]; intros st; [done |].
  cbn [foldl].
  destruct (IH (notify_one m st (c, k))) as (-> & -> & -> & -> & -> & -> & ->).
  unfold notify_one. by destruct (write_fails st c).
Qed.

Lemma set_mutex_same st : set_mutex (mutex st) st = st.
Proof. by destruct st. Qed.

Lemma set_mutex_twice x y st : set_mutex x (set_mutex y st) = set_mutex x st.
Proof. done. Qed.

Lemma set_mutex_thread x i t st :
  set_mutex x (set_thread i t st) = set_thread i t (set_mutex x st).
Proof. done. Qed.

(** The loop of lines 197-202, one entry per step. *)
Lemma run_range i o m rest st :
  threads st !! i = Some (Notify (PubRange rest) m) →
  run (replicate (length rest) (Run i o)) st
  = Some (set_thread i (Notify (PubRange []) m) (foldl (notify_one m) st rest)).
Proof.
  revert st. induction rest as [|e rest IH]; intros st Hi.
  - cbn [length replicate foldl]. rewrite run_nil.
    f_equal. unfold set_thread. destruct st; simpl in *. f_equal.
    symmetry. by apply list_insert_id.
  - cbn [length replicate]. rewrite run_cons. rewrite (step_notify _ _ _ _ _ Hi). simpl.
    rewrite IH.
    + by rewrite notify_all_set_thread, set_thread_twice.
    + apply set_thread_lookup with (t := Notify (PubRange (e :: rest)) m).
      by destruct (notify_one_frame m st e) as (_ & _ & -> & _).
Qed.

Lemma threads_notify_all m st order :
  threads (foldl (notify_one m) st order) = threads st.
Proof. by destruct (notify_all_frame m st order) as (_ & _ & -> & _). Qed.

Lemma mutex_notify_all m st order :
  mutex (foldl (notify_one m) st order) = mutex st.
Proof. by destruct (notify_all_frame m st order) as (_ & -> & _). Qed.

Ltac fields :=
  cbn [threads subscribers mutex conns reqDone cancelled broken closed events
       set_thread set_mutex set_subscribers emit close_conn call_cancel
       break_conn end_request alloc_conn spawn].

Lemma State_ext (s1 s2 : State) :
  subscribers s1 = subscribers s2 → mutex s1 = mutex s2 → threads s1 = threads s2 →
  conns s1 = conns s2 → reqDone s1 = reqDone s2 → cancelled s1 = cancelled s2 →
  broken s1 = broken s2 → closed s1 = closed s2 → events s1 = events s2 →
  s1 = s2.
Proof. destruct s1, s2; simpl; congruence. Qed.

Ltac state_eq :=
  apply State_ext; fields; rewrite ?list_insert_insert_eq, <- ?app_assoc; try done.

Ltac thread_at :=
  fields; rewrite ?list_insert_insert_eq, ?threads_notify_all;
  first [eassumption | eapply goto_self; eassumption].

Ltac side := first [assumption | thread_at | by (fields; eexists) | done].

Lemma Some_bind {A B} (f : A → option B) (x : A) : Some x ≫= f = f x.
Proof. done. Qed.

(** The statements of [notifyClients], one by one. *)
Lemma notify_lock i o m st :
  threads st !! i = Some (Notify PubLock m) → mutex st = None →
  exec (Run i o) st = Some (set_thread i (Notify PubLookup m) (set_mutex (Some i) st)).
Proof.
  intros Hi Hm. rewrite (step_notify _ _ _ _ _ Hi). simpl. unfold lock. by rewrite Hm.
Qed.

Lemma notify_lookup_none i o m st :
  threads st !! i = Some (Notify PubLookup m) →
  subscribers st !! RoomId m = None ∨ subscribers st !! RoomId m = Some ∅ →
  exec (Run i o) st
  = Some (set_thread i (Notify PubUnlock m) (emit [EvNoSubscribers (RoomId m)] st)).
Proof.
  intros Hi H. rewrite (step_notify _ _ _ _ _ Hi). simpl.
  destruct H as [-> | ->]; [done |]. by rewrite decide_True by apply map_size_empty.
Qed.

Lemma notify_lookup_some i o m st room :
  threads st !! i = Some (Notify PubLookup m) →
  subscribers st !! RoomId m = Some room → size room ≠ 0 → o ≡ₚ map_to_list room →
  exec (Run i o) st = Some (set_thread i (Notify (PubRange o) m) st).
Proof.
  intros Hi Hroom Hsize Ho. rewrite (step_notify _ _ _ _ _ Hi). simpl. rewrite Hroom.
  rewrite decide_False by done. by rewrite decide_True by done.
Qed.

Lemma notify_range_end i o m st :
  threads st !! i = Some (Notify (PubRange []) m) →
  exec (Run i o) st = Some (set_thread i (Notify PubUnlock m) st).
Proof. intros Hi. by rewrite (step_notify _ _ _ _ _ Hi). Qed.

Lemma notify_unlock i o m st :
  threads st !! i = Some (Notify PubUnlock m) → is_Some (mutex st) →
  exec (Run i o) st = Some (set_thread i (Notify PubReturned m) (set_mutex None st)).
Proof.
  intros Hi [x Hx]. rewrite (step_notify _ _ _ _ _ Hi). simpl. unfold unlock.
  by rewrite Hx.
Qed.


(** [notifyClients] on a room that is absent or empty: three statements. *)
Lemma run_notifyClients_none i o1 o2 o3 m st :
  threads st !! i = Some (Notify PubLock m) → mutex st = None →
  subscribers st !! RoomId m = None ∨ subscribers st !! RoomId m = Some ∅ →
  run [Run i o1; Run i o2; Run i o3] st
  = Some (set_thread i (Notify PubReturned m) (emit [EvNoSubscribers (RoomId m)] st)).
Proof.
  intros Hi Hm Hroom.
  rewrite run_cons, (notify_lock _ _ m), Some_bind; [| side..].
  rewrite run_cons, (notify_lookup_none _ _ m), Some_bind; [| side..].
  rewrite run_cons, (notify_unlock _ _ m), Some_bind, run_nil; [| side..].
  f_equal. destruct st; simpl in *. subst. unfold set_thread, set_mutex, emit; simpl.
  by rewrite !list_insert_insert_eq.
Qed.

(** [notifyClients] on a room with subscribers: the loop runs between the
    [Lock] and the [Unlock] and is the function of that name. *)
Lemma run_notifyClients_some i o m st room :
  threads st !! i = Some (Notify PubLock m) → mutex st = None →
  subscribers st !! RoomId m = Some room → size room ≠ 0 → o ≡ₚ map_to_list room →
  run (replicate (length o + 4) (Run i o)) st
  = Some (set_thread i (Notify PubReturned m) (notifyClients o m st)).
Proof.
  intros Hi Hm Hroom Hsize Ho.
  replace (length o + 4) with (2 + (length o + 2)) by lia.
  rewrite replicate_add, run_app. cbn [replicate].
  rewrite run_cons, (notify_lock _ _ m), Some_bind; [| side..].
  rewrite run_cons, (notify_lookup_some _ _ m _ room), Some_bind, run_nil, Some_bind;
    [| side..].
  rewrite replicate_add, run_app.
  rewrite (run_range _ _ m), Some_bind; [| side..].
  cbn [replicate].
  rewrite !notify_all_set_thread, notify_all_set_mutex, !set_thread_twice.
  rewrite run_cons, (notify_range_end _ _ m), Some_bind; [| side..].
  rewrite run_cons, (notify_unlock _ _ m), Some_bind, run_nil; [| side..].
  f_equal. unfold notifyClients. rewrite Hroom, decide_False by done.
  rewrite !set_thread_twice. rewrite set_mutex_thread, set_mutex_twice.
  rewrite <- (set_mutex_same (foldl (notify_one m) st o)) at 2.
  by rewrite set_thread_twice, mutex_notify_all, Hm.
Qed.

(** ** C5 *)

Lemma since_emit st evs : since st (emit evs st) = evs.
Proof. unfold since. simpl. by rewrite drop_app_length. Qed.

(** C5: when the room of the message has no slot in the map, or an empty
    one, [notifyClients] locks, logs that there is no one to notify, unlocks
    and returns: nothing is written, no cancel function is called, the map is
    as it was.  An absent slot and an empty one give the same result. *)
Theorem notifyClients_no_subscribers i o1 o2 o3 m st :
  threads st !! i = Some (Notify PubLock m) → mutex st = None →
  subscribers st !! RoomId m = None ∨ subscribers st !! RoomId m = Some ∅ →
  let st' := set_thread i (Notify PubReturned m) (emit [EvNoSubscribers (RoomId m)] st) in
  run [Run i o1; Run i o2; Run i o3] st = Some st'
  ∧ (∀ order, notifyClients order m st = emit [EvNoSubscribers (RoomId m)] st)
  ∧ since st st' = [EvNoSubscribers (RoomId m)]
  ∧ subscribers st' = subscribers st
  ∧ cancelled st' = cancelled st
  ∧ mutex st' = None.
Proof.
  intros Hi Hm Hroom st'. split; [by apply run_notifyClients_none |].
  split; [|split; [apply (since_emit st) | done]].
  intros order. unfold notifyClients.
  destruct Hroom as [-> | ->]; [done |]. by rewrite decide_True by apply map_size_empty.
Qed.

(** ** What a broadcast logs *)

Lemma write_fails_notify_one m st e c :
  write_fails (notify_one m st e) c = write_fails st c.
Proof.
  destruct e as [c0 k0]. unfold notify_one. by destruct (write_fails st c0).
Qed.

Lemma notify_events_ext m st1 st2 order :
  (∀ c, write_fails st1 c = write_fails st2 c) →
  notify_events m st1 order = notify_events m st2 order.
Proof.
  intros H. induction order as [|[c k] order IH]; simpl; [done |].
  by rewrite H, IH.
Qed.

Lemma events_notify_all m st order :
  events (foldl (notify_one m) st order) = events st ++ notify_events m st order.
Proof.
  revert st. induction order as [|[c k] order IH]; intros st.
  - simpl. by rewrite app_nil_r.
  - cbn [foldl notify_events]. rewrite IH.
    rewrite (notify_events_ext m _ st) by apply write_fails_notify_one.
    unfold notify_one. destruct (write_fails st c); simpl; by rewrite <- app_assoc.
Qed.

Lemma cancelled_notify_one m st e :
  cancelled st ⊆ cancelled (notify_one m st e).
Proof.
  destruct e as [c k]. unfold notify_one. destruct (write_fails st c); simpl; set_solver.
Qed.

Lemma cancelled_notify_all m st order :
  cancelled st ⊆ cancelled (foldl (notify_one m) st order).
Proof.
  revert st. induction order as [|e order IH]; intros st; [done |].
  cbn [foldl]. etrans; [apply (cancelled_notify_one m st e) | apply IH].
Qed.

Lemma cancelled_failing m st order c k :
  (c, k) ∈ order → write_fails st c = true →
  k ∈ cancelled (foldl (notify_one m) st order).
Proof.
  revert st. induction order as [|e order IH]; intros st Hin Hf.
  - by apply elem_of_nil in Hin.
  - cbn [foldl]. apply elem_of_cons in Hin as [<- | Hin].
    + apply cancelled_notify_all. unfold notify_one. rewrite Hf. simpl. set_solver.
    + apply IH; [done |]. by rewrite write_fails_notify_one.
Qed.

Lemma write_attempts_app c evs evs' :
  write_attempts c (evs ++ evs') = write_attempts c evs + write_attempts c evs'.
Proof. unfold write_attempts. by rewrite List.filter_app, length_app. Qed.

Lemma cancel_calls_app k evs evs' :
  cancel_calls k (evs ++ evs') = cancel_calls k evs + cancel_calls k evs'.
Proof. unfold cancel_calls. by rewrite List.filter_app, length_app. Qed.

(** Each entry of the room is tried once. *)
Lemma write_attempts_notify m st order c :
  NoDup order.*1 →
  write_attempts c (notify_events m st order) = if decide (c ∈ order.*1) then 1 else 0.
Proof.
  induction order as [|[c0 k0] order IH]; intros Hnd.
  - rewrite decide_False by apply not_elem_of_nil. done.
  - cbn [notify_events]. rewrite write_attempts_app.
    apply NoDup_cons in Hnd as [Hc0 Hnd]. rewrite (IH Hnd).
    assert (Hhead : write_attempts c
              (if write_fails st c0
               then [EvWriteJSON c0 (marshal_Message m) false; EvCancel k0]
               else [EvWriteJSON c0 (marshal_Message m) true])
              = if decide (c0 = c) then 1 else 0).
    { unfold write_attempts. destruct (write_fails st c0); simpl;
        case_bool_decide; destruct (decide (c0 = c)); done. }
    rewrite Hhead. simpl in *.
    destruct (decide (c0 = c)) as [-> | Hne].
    + rewrite (decide_False (P := c ∈ order.*1)) by done.
      by rewrite decide_True by (apply elem_of_cons; by left).
    + destruct (decide (c ∈ order.*1)).
      * by rewrite decide_True by (apply elem_of_cons; by right).
      * by rewrite decide_False by (rewrite elem_of_cons; naive_solver).
Qed.

(** A cancel function is called once when the write to its connection
    fails, and not at all otherwise. *)
Lemma cancel_calls_notify m st order k :
  NoDup order.*1 → Forall (λ e, e.2 = e.1) order →
  cancel_calls k (notify_events m st order)
  = if decide (k ∈ order.*1 ∧ write_fails st k = true) then 1 else 0.
Proof.
  induction order as [|[c0 k0] order IH]; intros Hnd Hsame.
  - rewrite decide_False; [done |]. intros [H _]. by apply not_elem_of_nil in H.
  - cbn [notify_events]. rewrite cancel_calls_app.
    apply NoDup_cons in Hnd as [Hc0 Hnd].
    apply Forall_cons in Hsame as [Hk0 Hsame]. simpl in Hk0. subst k0.
    rewrite (IH Hnd Hsame).
    assert (Hhead : cancel_calls k
              (if write_fails st c0
               then [EvWriteJSON c0 (marshal_Message m) false; EvCancel c0]
               else [EvWriteJSON c0 (marshal_Message m) true])
              = if decide (c0 = k ∧ write_fails st c0 = true) then 1 else 0).
    { unfold cancel_calls. destruct (write_fails st c0); simpl.
      - case_bool_decide; destruct (decide (c0 = k ∧ true = true)); naive_solver.
      - rewrite decide_False; [done |]. by intros [_ ?]. }
    rewrite Hhead. simpl in *.
    destruct (decide (c0 = k)) as [-> | Hne].
    + destruct (write_fails st k) eqn:Hf.
      * rewrite decide_True by done. rewrite decide_False by (intros [? _]; done).
        by rewrite decide_True by (split; [apply elem_of_cons; by left | done]).
      * rewrite !decide_False; [done | by intros [_ ?]..].
    + rewrite decide_False by (by intros [? _]).
      destruct (decide (k ∈ order.*1 ∧ write_fails st k = true)) as [[? ?] | Hn].
      * by rewrite decide_True by (split; [apply elem_of_cons; by right | done]).
      * rewrite decide_False; [done |]. intros [[? | ?]%elem_of_cons ?]; [done |].
        by apply Hn.
Qed.

Lemma notify_events_delivered m st order c k :
  (c, k) ∈ order →
  EvWriteJSON c (marshal_Message m) (negb (write_fails st c)) ∈ notify_events m st order.
Proof.
  induction order as [|[c0 k0] order IH]; intros Hin.
  - by apply elem_of_nil in Hin.
  - cbn [notify_events]. apply elem_of_cons in Hin as [[= <- <-] | Hin].
    + apply elem_of_app. left. destruct (write_fails st c); simpl; set_solver.
    + apply elem_of_app. right. by apply IH.
Qed.

(** ** The statements of [handleSubscribe], one by one *)

Lemma sub_unlock_add i o r c k st :
  threads st !! i = Some (Subscribe SubUnlockAdd r c k) → is_Some (mutex st) →
  exec (Run i o) st = Some (set_thread i (Subscribe SubWait r c k) (set_mutex None st)).
Proof.
  intros Hi [x Hx]. rewrite (step_subscribe _ _ _ _ _ _ _ Hi). simpl. unfold unlock.
  by rewrite Hx.
Qed.

Lemma sub_wait i o r c k st :
  threads st !! i = Some (Subscribe SubWait r c k) → ctx_done st k = true →
  exec (Run i o) st = Some (set_thread i (Subscribe SubLockRemove r c k) st).
Proof. intros Hi Hd. rewrite (step_subscribe _ _ _ _ _ _ _ Hi). simpl. by rewrite Hd. Qed.

Lemma sub_wait_blocked i o r c k st :
  threads st !! i = Some (Subscribe SubWait r c k) → ctx_done st k = false →
  exec (Run i o) st = None.
Proof. intros Hi Hd. rewrite (step_subscribe _ _ _ _ _ _ _ Hi). simpl. by rewrite Hd. Qed.

Lemma sub_lock_remove i o r c k st :
  threads st !! i = Some (Subscribe SubLockRemove r c k) → mutex st = None →
  exec (Run i o) st
  = Some (set_thread i (Subscribe SubDeleteConn r c k) (set_mutex (Some i) st)).
Proof.
  intros Hi Hm. rewrite (step_subscribe _ _ _ _ _ _ _ Hi). simpl. unfold lock.
  by rewrite Hm.
Qed.

Lemma sub_delete i o r c k st :
  threads st !! i = Some (Subscribe SubDeleteConn r c k) →
  exec (Run i o) st
  = Some (set_thread i (Subscribe SubUnlockRemove r c k)
            (emit [EvDelete r c]
               (set_subscribers (delete_conn r c (subscribers st)) st))).
Proof. intros Hi. by rewrite (step_subscribe _ _ _ _ _ _ _ Hi). Qed.

Lemma sub_unlock_remove i o r c k st :
  threads st !! i = Some (Subscribe SubUnlockRemove r c k) → is_Some (mutex st) →
  exec (Run i o) st
  = Some (set_thread i (Subscribe SubCloseConn r c k) (set_mutex None st)).
Proof.
  intros Hi [x Hx]. rewrite (step_subscribe _ _ _ _ _ _ _ Hi). simpl. unfold unlock.
  by rewrite Hx.
Qed.

Lemma sub_close i o r c k st :
  threads st !! i = Some (Subscribe SubCloseConn r c k) →
  exec (Run i o) st
  = Some (set_thread i (Subscribe SubReturned r c k) (emit [EvClose c] (close_conn c st))).
Proof. intros Hi. by rewrite (step_subscribe _ _ _ _ _ _ _ Hi). Qed.

Lemma cleaned_set_thread i t r c k st :
  cleaned i r c k (set_thread i t st) = cleaned i r c k st.
Proof. unfold cleaned. state_eq. Qed.

Lemma cleaned_set_mutex i x r c k st :
  cleaned i r c k (set_mutex x st) = cleaned i r c k st.
Proof. done. Qed.

(** Lines 254-256 and the deferred [Close]. *)
Lemma run_cleanup_delete i o r c k st :
  threads st !! i = Some (Subscribe SubDeleteConn r c k) → is_Some (mutex st) →
  run (replicate 3 (Run i o)) st = Some (cleaned i r c k st).
Proof.
  intros Hi Hm. cbn [replicate].
  rewrite run_cons, (sub_delete _ _ r c k), Some_bind; [| side..].
  rewrite run_cons, (sub_unlock_remove _ _ r c k), Some_bind; [| side..].
  rewrite run_cons, (sub_close _ _ r c k), Some_bind, run_nil; [| side..].
  apply (f_equal Some). unfold cleaned. state_eq.
Qed.

Lemma run_cleanup_lock i o r c k st :
  threads st !! i = Some (Subscribe SubLockRemove r c k) → mutex st = None →
  run (replicate 4 (Run i o)) st = Some (cleaned i r c k st).
Proof.
  intros Hi Hm. change (replicate 4 (Run i o)) with (Run i o :: replicate 3 (Run i o)).
  rewrite run_cons, (sub_lock_remove _ _ r c k), Some_bind; [| side..].
  rewrite (run_cleanup_delete _ _ r c k); [| side..].
  by rewrite cleaned_set_thread, cleaned_set_mutex.
Qed.

Lemma run_cleanup_wait i o r c k st :
  threads st !! i = Some (Subscribe SubWait r c k) → mutex st = None →
  ctx_done st k = true →
  run (replicate 5 (Run i o)) st = Some (cleaned i r c k st).
Proof.
  intros Hi Hm Hd. change (replicate 5 (Run i o)) with (Run i o :: replicate 4 (Run i o)).
  rewrite run_cons, (sub_wait _ _ r c k), Some_bind; [| side..].
  rewrite (run_cleanup_lock _ _ r c k); [| side..].
  by rewrite cleaned_set_thread.
Qed.

Lemma run_cleanup_unlock i o r c k st :
  threads st !! i = Some (Subscribe SubUnlockAdd r c k) → is_Some (mutex st) →
  ctx_done st k = true →
  run (replicate 6 (Run i o)) st = Some (cleaned i r c k st).
Proof.
  intros Hi Hm Hd. change (replicate 6 (Run i o)) with (Run i o :: replicate 5 (Run i o)).
  rewrite run_cons, (sub_unlock_add _ _ r c k), Some_bind; [| side..].
  rewrite (run_cleanup_wait _ _ r c k); [| side..].
  by rewrite cleaned_set_thread, cleaned_set_mutex.
Qed.

(** A registered session whose context is done runs to its return as soon
    as the mutex is its own or free. *)
Lemma run_cleanup i o pc r c k st :
  inv st → threads st !! i = Some (Subscribe pc r c k) → registered pc = true →
  ctx_done st k = true →
  (critical (Subscribe pc r c k) = false → mutex st = None) →
  run (replicate (steps_to_return pc) (Run i o)) st = Some (cleaned i r c k st).
Proof.
  intros [] Hi Hreg Hd Hm.
  destruct pc; try done; cbn [steps_to_return].
  - apply run_cleanup_unlock; [done | | done]. rewrite (inv_mutex0 _ _ Hi); eauto.
  - apply run_cleanup_wait; auto.
  - apply run_cleanup_lock; auto.
  - apply run_cleanup_delete; [done |]. rewrite (inv_mutex0 _ _ Hi); eauto.
Qed.

Lemma cleaned_spec i r c k st :
  (c ∉ room_conns r (subscribers (cleaned i r c k st)))
  ∧ c ∈ closed (cleaned i r c k st)
  ∧ mutex (cleaned i r c k st) = None
  ∧ since st (cleaned i r c k st) = [EvDelete r c; EvClose c].
Proof.
  split; [apply delete_conn_gone |].
  split; [unfold cleaned; fields; set_solver |]. split; [done |].
  apply (since_emit (close_conn c
    (set_subscribers (delete_conn r c (subscribers st)) st))).
Qed.

(** ** Lines 238-248 are [subscribers_add] between a [Lock] and an [Unlock] *)

Lemma sub_lock_add i o r c k st :
  threads st !! i = Some (Subscribe SubLockAdd r c k) → mutex st = None →
  exec (Run i o) st
  = Some (set_thread i (Subscribe SubCheckRoom r c k) (set_mutex (Some i) st)).
Proof.
  intros Hi Hm. rewrite (step_subscribe _ _ _ _ _ _ _ Hi). simpl. unfold lock.
  by rewrite Hm.
Qed.

Lemma sub_check i o r c k st :
  threads st !! i = Some (Subscribe SubCheckRoom r c k) →
  exec (Run i o) st
  = Some (set_thread i (Subscribe (if room_present r (subscribers st)
                                   then SubStoreConn else SubMakeRoom) r c k) st).
Proof. intros Hi. by rewrite (step_subscribe _ _ _ _ _ _ _ Hi). Qed.

Lemma sub_make i o r c k st :
  threads st !! i = Some (Subscribe SubMakeRoom r c k) →
  exec (Run i o) st
  = Some (set_thread i (Subscribe SubStoreConn r c k)
            (set_subscribers (make_room r (subscribers st)) st)).
Proof. intros Hi. by rewrite (step_subscribe _ _ _ _ _ _ _ Hi). Qed.

Lemma sub_store i o r c k st subs :
  threads st !! i = Some (Subscribe SubStoreConn r c k) →
  store_conn r c k (subscribers st) = Some subs →
  exec (Run i o) st
  = Some (set_thread i (Subscribe SubUnlockAdd r c k)
            (emit [EvStore r c] (set_subscribers subs st))).
Proof.
  intros Hi Hs. rewrite (step_subscribe _ _ _ _ _ _ _ Hi).
  cbn [subscribe_step]. by rewrite Hs.
Qed.

Lemma run_register i o r c k st :
  threads st !! i = Some (Subscribe SubLockAdd r c k) → mutex st = None →
  ∃ subs,
    subscribers_add r c k (subscribers st) = Some subs
    ∧ run (replicate (if room_present r (subscribers st) then 4 else 5) (Run i o)) st
      = Some (set_thread i (Subscribe SubWait r c k)
                (emit [EvStore r c] (set_subscribers subs st))).
Proof.
  intros Hi Hm. destruct (subscribers_add_total (subscribers st) r c k) as [subs Hadd].
  exists subs. split; [done |]. unfold subscribers_add in Hadd.
  destruct (room_present r (subscribers st)) eqn:Hp; cbn [replicate].
  - rewrite run_cons, (sub_lock_add _ _ r c k), Some_bind; [| side..].
    rewrite run_cons, (sub_check _ _ r c k), Some_bind; [| side..].
    fields. rewrite Hp.
    rewrite run_cons, (sub_store _ _ r c k _ subs), Some_bind; [| side..].
    rewrite run_cons, (sub_unlock_add _ _ r c k), Some_bind, run_nil; [| side..].
    apply (f_equal Some). state_eq.
  - rewrite run_cons, (sub_lock_add _ _ r c k), Some_bind; [| side..].
    rewrite run_cons, (sub_check _ _ r c k), Some_bind; [| side..].
    fields. rewrite Hp.
    rewrite run_cons, (sub_make _ _ r c k), Some_bind; [| side..].
    rewrite run_cons, (sub_store _ _ r c k _ subs), Some_bind; [| side..].
    rewrite run_cons, (sub_unlock_add _ _ r c k), Some_bind, run_nil; [| side..].
    apply (f_equal Some). state_eq.
Qed.

(** ** C8 *)

(** C8: in every state the server reaches a connection is registered under
    at most one room.  Registering under a room that has no slot creates the
    slot, holding that one connection, and lines 238-248 of a session are
    that registration.  Removing a connection from a room that has a slot
    leaves the slot in place, without that connection and with every other
    one. *)
Theorem one_room_per_connection st :
  reachable st →
  (∀ r1 r2 c,
     c ∈ room_conns r1 (subscribers st) → c ∈ room_conns r2 (subscribers st) → r1 = r2)
  ∧ (∀ r c k, subscribers st !! r = None →
       subscribers_add r c k (subscribers st) = Some (<[r := {[c := k]}]> (subscribers st)))
  ∧ (∀ i r c k,
       threads st !! i = Some (Subscribe SubLockAdd r c k) → mutex st = None →
       ∃ subs,
         subscribers_add r c k (subscribers st) = Some subs
         ∧ run (replicate (if room_present r (subscribers st) then 4 else 5) (Run i [])) st
           = Some (set_thread i (Subscribe SubWait r c k)
                     (emit [EvStore r c] (set_subscribers subs st))))
  ∧ (∀ r c, is_Some (subscribers st !! r) →
       is_Some (delete_conn r c (subscribers st) !! r)
       ∧ (c ∉ room_conns r (delete_conn r c (subscribers st)))
       ∧ (∀ c', c' ≠ c → c' ∈ room_conns r (subscribers st) →
                c' ∈ room_conns r (delete_conn r c (subscribers st)))).
Proof.
  intros Hinv%reachable_inv. split; [|split; [|split]].
  - intros r1 r2 c. by apply one_room.
  - intros r c k. apply subscribers_add_fresh_room.
  - intros i r c k. apply run_register.
  - intros r c Hslot. split; [by apply delete_conn_keeps_slot |].
    split; [apply delete_conn_gone |].
    intros c' Hne Hc'. rewrite room_conns_delete. case_decide; set_solver.
Qed.

(** ** C1 *)

Lemma notifyClients_some order m st room :
  subscribers st !! RoomId m = Some room → size room ≠ 0 →
  notifyClients order m st = foldl (notify_one m) st order.
Proof. intros H Hs. unfold notifyClients. by rewrite H, decide_False. Qed.

Lemma since_notify_all i t m st order :
  since st (set_thread i t (foldl (notify_one m) st order)) = notify_events m st order.
Proof.
  unfold since. fields. rewrite events_notify_all. by rewrite drop_app_length.
Qed.

Lemma range_order (room : gmap nat nat) (order : list (nat * nat)) :
  order ≡ₚ map_to_list room →
  NoDup order.*1 ∧ (∀ c k, (c, k) ∈ order ↔ room !! c = Some k).
Proof.
  intros Hp. split.
  - rewrite Hp. apply NoDup_fst_map_to_list.
  - intros c k. rewrite Hp. apply elem_of_map_to_list.
Qed.

(** In a state the server reaches, the cancel function stored with a
    connection is the one of the session that owns the connection. *)
Lemma entry_owner st r room c k :
  inv st → subscribers st !! r = Some room → room !! c = Some k → k = c.
Proof.
  intros [] Hr Hc. destruct (inv_entry0 _ _ _ _ Hr Hc) as (i & pc & Hi & _).
  by destruct (inv_fresh0 _ _ _ _ _ Hi).
Qed.

(** C1: the server has reached a state in which [notifyClients] is about to
    run on a room that holds connection [B], and writes to [B] fail.  Then
    [notifyClients] runs to its return; it tries every connection of the room
    exactly once, each working one receiving the message and [B] failing; it
    calls the cancel function stored with [B] exactly once and the one of no
    working connection; it leaves the map as it is.  The session that owns
    [B] is registered, its context is now done, and its remaining statements
    run to its return and take [B] out of the room. *)
Theorem notify_failure_evicts st j m order room B kB :
  reachable st →
  threads st !! j = Some (Notify PubLock m) → mutex st = None →
  subscribers st !! RoomId m = Some room → room !! B = Some kB →
  order ≡ₚ map_to_list room →
  write_fails st B = true →
  let st1 := set_thread j (Notify PubReturned m) (notifyClients order m st) in
  run (replicate (length order + 4) (Run j order)) st = Some st1
  ∧ (∀ c, c ∈ dom room → write_attempts c (since st st1) = 1)
  ∧ (∀ c, c ∈ dom room →
          EvWriteJSON c (marshal_Message m) (negb (write_fails st c)) ∈ since st st1)
  ∧ cancel_calls kB (since st st1) = 1
  ∧ (∀ c k, room !! c = Some k → write_fails st c = false →
            cancel_calls k (since st st1) = 0)
  ∧ subscribers st1 = subscribers st
  ∧ ctx_done st1 kB = true
  ∧ ∃ i pc,
      threads st1 !! i = Some (Subscribe pc (RoomId m) B kB)
      ∧ registered pc = true
      ∧ run (replicate (steps_to_return pc) (Run i [])) st1
        = Some (cleaned i (RoomId m) B kB st1)
      ∧ B ∉ room_conns (RoomId m) (subscribers (cleaned i (RoomId m) B kB st1)).
Proof.
  intros Hreach Hj Hm Hroom HB Hperm Hfail st1.
  pose proof (reachable_inv _ Hreach) as Hinv.
  assert (Hsize : size room ≠ 0).
  { intros Hz. apply map_size_empty_iff in Hz. subst room. by rewrite lookup_empty in HB. }
  destruct (range_order _ _ Hperm) as [Hnd Hin].
  assert (Hrun : run (replicate (length order + 4) (Run j order)) st = Some st1)
    by (by eapply run_notifyClients_some).
  assert (Hst1 : st1 = set_thread j (Notify PubReturned m) (foldl (notify_one m) st order)).
  { unfold st1. by erewrite notifyClients_some. }
  assert (Hsince : since st st1 = notify_events m st order).
  { rewrite Hst1. apply since_notify_all. }
  assert (Hdom : ∀ c, c ∈ dom room → c ∈ order.*1).
  { intros c [k Hk]%elem_of_dom. apply list_elem_of_fmap. exists (c, k).
    split; [done | by apply Hin]. }
  assert (Hsame : Forall (λ e : nat * nat, e.2 = e.1) order).
  { apply Forall_forall. intros [c k] Hck. simpl. apply Hin in Hck.
    by eapply entry_owner. }
  assert (HkB : kB = B) by (by eapply entry_owner).
  assert (Hdone : ctx_done st1 kB = true).
  { unfold ctx_done. rewrite Hst1. fields.
    rewrite (bool_decide_eq_true_2 (kB ∈ cancelled _)); [by rewrite orb_true_r |].
    eapply cancelled_failing; [by apply Hin | done]. }
  split; [done |]. rewrite Hsince.
  split; [| split; [| split; [| split; [| split; [| split; [done |]]]]]].
  - intros c Hc. rewrite write_attempts_notify by done.
    by rewrite decide_True by auto.
  - intros c [k Hk]%elem_of_dom. eapply notify_events_delivered. by apply Hin.
  - rewrite cancel_calls_notify by done. subst kB.
    rewrite decide_True; [done |]. split; [|done]. apply Hdom, elem_of_dom. eauto.
  - intros c k Hk Hok. rewrite cancel_calls_notify by done.
    assert (k = c) as -> by (by eapply entry_owner).
    rewrite decide_False; [done |]. intros [_ ?]. congruence.
  - rewrite Hst1. fields. by destruct (notify_all_frame m st order) as (-> & _).
  - destruct Hinv as [Hmu _ _ Hentry _ _ _].
    destruct (Hentry _ _ _ _ Hroom HB) as (i & pc & Hi & Hreg).
    assert (Hne : i ≠ j) by (intros ->; congruence).
    assert (Hi1 : threads st1 !! i = Some (Subscribe pc (RoomId m) B kB)).
    { rewrite Hst1. rewrite set_thread_lookup_ne by done.
      by rewrite threads_notify_all. }
    exists i, pc. split; [done |]. split; [done |].
    split; [| apply delete_conn_gone].
    apply run_cleanup; try done.
    + eapply run_inv; [apply (reachable_inv _ Hreach) | done].
    + intros _. rewrite Hst1. fields. by rewrite mutex_notify_all.
Qed.

(** ** C9 *)

Lemma foreign_room_not_written st m order i pc r c k :
  inv st →
  threads st !! i = Some (Subscribe pc r c k) → r ≠ RoomId m →
  (∀ room, subscribers st !! RoomId m = Some room → order ≡ₚ map_to_list room) →
  write_attempts c (since st (notifyClients order m st)) = 0.
Proof.
  intros [] Hi Hr Ho. unfold notifyClients.
  destruct (subscribers st !! RoomId m) as [room|] eqn:Hroom;
    [destruct (decide (size room = 0)) |]; try by rewrite since_emit.
  destruct (range_order _ _ (Ho _ eq_refl)) as [Hnd Hin].
  assert (Hsince : since st (foldl (notify_one m) st order) = notify_events m st order).
  { unfold since. rewrite events_notify_all. by rewrite drop_app_length. }
  rewrite Hsince, write_attempts_notify by done.
  rewrite decide_False; [done |].
  intros ([c' k'] & Hc & Hck)%list_elem_of_fmap. simpl in Hc. subst c'.
  apply Hin in Hck.
  destruct (inv_entry0 _ _ _ _ Hroom Hck) as (i' & pc' & Hi' & _).
  pose proof (inv_unique0 _ _ _ _ _ _ _ _ _ Hi Hi') as <-. congruence.
Qed.

(** C9: two requests name one room by different strings that parse to the
    same UUID.  The subscribe request starts a session that registers under
    its own string; the create-message request starts [notifyClients] with a
    message routed by its own string; and in no state the server reaches
    does that [notifyClients] try a write to a connection whose session
    subscribed under the other string. *)
Theorem subscribers_keyed_by_raw_room_id st q sub_request msg_request roomId room text messageId :
  reachable st →
  room_id sub_request ≠ room_id msg_request →
  uuid_Parse (room_id sub_request) = Some roomId →
  uuid_Parse (room_id msg_request) = Some roomId →
  GetRoom q roomId = Ok room →
  handshake sub_request = true →
  decode_message (Body msg_request) = Some text →
  InsertMessage q roomId text = Ok messageId →
  let m := mkMessage (room_id msg_request) KindMessageCreated
             (AnyMessageCreatedValue (mkMessageCreatedValue (uuid_String messageId) text)) in
  exec (ReqSubscribe q sub_request) st
  = Some (alloc_conn
            (spawn [Subscribe SubLockAdd (room_id sub_request) (conns st) (conns st)]
               (emit [EvGetRoom roomId; EvUpgrade (Some (conns st))] st)))
  ∧ goroutines (handleCreateRoomMessage q msg_request) = [Notify PubLock m]
  ∧ ∀ st' i pc c k order,
      reachable st' →
      threads st' !! i = Some (Subscribe pc (room_id sub_request) c k) →
      (∀ room', subscribers st' !! RoomId m = Some room' → order ≡ₚ map_to_list room') →
      write_attempts c (since st' (notifyClients order m st')) = 0.
Proof.
  intros Hreach Hne Hp1 Hp2 Hroom Hhs Hbody Hins m. split; [|split].
  - unfold exec, handleSubscribe_open.
    by rewrite Hp1, Hroom, Hhs.
  - unfold handleCreateRoomMessage.
    by rewrite Hp2, Hroom, Hbody, Hins.
  - intros st' i pc c k order Hinv%reachable_inv Hi Ho.
    by eapply foreign_room_not_written.
Qed.

(** * More of the package *)

(** ** Every path of [handleCreateRoomMessage] *)

(** X1: whatever the request and the store, [handleCreateRoomMessage] answers
    exactly once, with 200, 400, 404 or 500.  It starts a goroutine only
    when the answer is the [{message_id}] one, then exactly one and as its
    last act.  It calls [InsertMessage] only with the parsed id of a room the
    store knows and the decoded text of the body. *)
Theorem handleCreateRoomMessage_paths q request :
  ∃ r, responses (handleCreateRoomMessage q request) = [r]
       ∧ status r ∈ [200; 400; 404; 500]
       ∧ (∀ m, EvGo m ∈ handleCreateRoomMessage q request →
               status r = 200
               ∧ goroutines (handleCreateRoomMessage q request) = [Notify PubLock m]
               ∧ last (handleCreateRoomMessage q request) = Some (EvGo m))
       ∧ (status r ≠ 200 → goroutines (handleCreateRoomMessage q request) = [])
       ∧ (∀ id text, EvInsertMessage id text ∈ handleCreateRoomMessage q request →
                     uuid_Parse (room_id request) = Some id
                     ∧ (∃ room, GetRoom q id = Ok room)
                     ∧ decode_message (Body request) = Some text).
Proof.
  unfold handleCreateRoomMessage.
  destruct (uuid_Parse (room_id request)) as [id|] eqn:Hp.
  2: { eexists. split; [done |]. split; [set_solver |]. split; [|split; [done |]].
       - intros m Hm. set_solver.
       - intros i t Hi. set_solver. }
  destruct (GetRoom q id) as [room | []] eqn:Hr.
  2,3: eexists; (split; [done |]); (split; [set_solver |]);
       (split; [|split; [done |]]); [intros m Hm; set_solver | intros i t Hi; set_solver].
  destruct (decode_message (Body request)) as [text|] eqn:Hb.
  2: { eexists. split; [done |]. split; [set_solver |]. split; [|split; [done |]].
       - intros m Hm. set_solver.
       - intros i t Hi. set_solver. }
  destruct (InsertMessage q id text) as [mid | e] eqn:Hi.
  - eexists. split; [done |]. split; [set_solver |]. split; [|split; [done |]].
    + intros m Hm. repeat (apply elem_of_cons in Hm as [Hm | Hm]; try done).
      * injection Hm as <-. done.
      * by apply elem_of_nil in Hm.
    + intros i t Ht. repeat (apply elem_of_cons in Ht as [Ht | Ht]; try done).
      * injection Ht as <- <-. eauto.
      * by apply elem_of_nil in Ht.
  - eexists. split; [done |]. split; [set_solver |]. split; [|split; [done |]].
    + intros m Hm. set_solver.
    + intros i t Ht. repeat (apply elem_of_cons in Ht as [Ht | Ht]; try done).
      * injection Ht as <- <-. eauto.
      * by apply elem_of_nil in Ht.
Qed.

(** X2: the room is validated before the body is looked at: when the id does
    not parse or the store does not return the room, the handler does the
    same whatever the body; and a body that does not decode, on a room the
    store knows, is answered 400 with no call of [InsertMessage]. *)
Theorem handleCreateRoomMessage_validation_order q request :
  ((∀ id room, uuid_Parse (room_id request) = Some id → GetRoom q id ≠ Ok room) →
   ∀ body hs,
     handleCreateRoomMessage q (mkRequest (room_id request) body hs)
     = handleCreateRoomMessage q request)
  ∧ (∀ id room,
       uuid_Parse (room_id request) = Some id → GetRoom q id = Ok room →
       decode_message (Body request) = None →
       handleCreateRoomMessage q request
       = [EvGetRoom id; EvRespond (http_Error "Invalid request body" 400)]).
Proof.
  split.
  - intros Hno body hs. unfold handleCreateRoomMessage. simpl.
    destruct (uuid_Parse (room_id request)) as [id|] eqn:Hp; [|done].
    destruct (GetRoom q id) as [room | []] eqn:Hr; try done.
    by destruct (Hno id room).
  - intros id room Hp Hr Hb. unfold handleCreateRoomMessage. by rewrite Hp, Hr, Hb.
Qed.

(** ** Every path of [handleSubscribe] up to the upgrade *)

(** X3: [handleSubscribe] upgrades exactly when the id parses, the store
    returns the room and the handshake succeeds; then it has written no
    response and the upgrade is its last act.  When it does not upgrade, the
    server is left with the logged events and nothing else: no connection,
    no goroutine, the map as it was.  When it stops before the upgrade it
    answers exactly once, with 400, 404 or 500, as its last act.  An upgrade
    is attempted only on a room the store returned.  After a failed upgrade
    the handler writes no response of its own: the upgrader has answered or
    has taken the connection over, and the [http.Error] of line 230 comes
    after that, as the last act. *)
Theorem handleSubscribe_paths q request st :
  let evs := (handleSubscribe_open q request (conns st)).1 in
  let upgraded := (handleSubscribe_open q request (conns st)).2 in
  (upgraded = true ↔
     ∃ id room, uuid_Parse (room_id request) = Some id ∧ GetRoom q id = Ok room
                ∧ handshake request = true)
  ∧ (upgraded = true →
       responses evs = [] ∧ last evs = Some (EvUpgrade (Some (conns st))))
  ∧ (upgraded = false → exec (ReqSubscribe q request) st = Some (emit evs st))
  ∧ (upgraded = false → (∀ c, EvUpgrade c ∉ evs) →
       ∃ error code,
         responses evs = [http_Error error code]
         ∧ code ∈ [400; 404; 500]
         ∧ last evs = Some (EvRespond (http_Error error code)))
  ∧ (∀ c, EvUpgrade c ∈ evs →
          ∃ id room, uuid_Parse (room_id request) = Some id ∧ GetRoom q id = Ok room)
  ∧ (EvUpgrade None ∈ evs →
       handshake request = false
       ∧ responses evs = []
       ∧ last evs = Some (EvErrorAfterUpgrade "Failed to upgrade connection" 400)).
Proof.
  unfold exec, handleSubscribe_open. simpl.
  destruct (uuid_Parse (room_id request)) as [id|] eqn:Hp.
  2: { simpl. split; [split; [done | by intros (? & ? & ? & _)] |].
       split; [done |]. split; [done |].
       split; [intros _ _; do 2 eexists; repeat split; set_solver |].
       split; [intros c Hc | intros Hc]; set_solver. }
  destruct (GetRoom q id) as [room | []] eqn:Hr.
  - destruct (handshake request) eqn:Hh; simpl.
    + split; [split; [eauto 6 | done] |]. split; [done |]. split; [done |].
      split; [done |]. split; [eauto |]. intros Hc.
      repeat (apply elem_of_cons in Hc as [Hc | Hc]; try done). by apply elem_of_nil in Hc.
    + split; [split; [done | by intros (? & ? & ? & ? & ?)] |].
      split; [done |]. split; [done |]. split.
      { intros _ Hno. exfalso. apply (Hno None). set_solver. }
      split; [eauto | done].
  - simpl. split; [split; [done | intros (? & ? & ? & ? & _); congruence] |].
    split; [done |]. split; [done |].
    split; [intros _ _; do 2 eexists; repeat split; set_solver |].
    split; [intros c Hc | intros Hc]; set_solver.
  - simpl. split; [split; [done | intros (? & ? & ? & ? & _); congruence] |].
    split; [done |]. split; [done |].
    split; [intros _ _; do 2 eexists; repeat split; set_solver |].
    split; [intros c Hc | intros Hc]; set_solver.
Qed.

(** ** From creating a room to receiving a message *)

(** X5: the text [handleCreateRoom] answers with is accepted as room id by
    the other two handlers, when the library reads back the ids it prints
    and the store returns the room it inserted: a subscribe request under
    that text is upgraded and its session will register under it, and a post
    under it is routed by it. *)
Theorem created_room_is_accepted decode_theme InsertRoom q create_request theme roomId room :
  uuid_Parse (uuid_String roomId) = Some roomId →
  decode_theme (Body create_request) = Some theme →
  InsertRoom theme = Ok roomId →
  GetRoom q roomId = Ok room →
  room_responses (handleCreateRoom uuid_String decode_theme InsertRoom create_request)
  = [http_JSON (JObject [("room_id", JString (uuid_String roomId))])]
  ∧ (∀ st request,
       room_id request = uuid_String roomId → handshake request = true →
       exec (ReqSubscribe q request) st
       = Some (alloc_conn
                 (spawn [Subscribe SubLockAdd (uuid_String roomId) (conns st) (conns st)]
                    (emit [EvGetRoom roomId; EvUpgrade (Some (conns st))] st))))
  ∧ (∀ request text messageId,
       room_id request = uuid_String roomId →
       decode_message (Body request) = Some text →
       InsertMessage q roomId text = Ok messageId →
       goroutines (handleCreateRoomMessage q request)
       = [Notify PubLock
            (mkMessage (uuid_String roomId) KindMessageCreated
               (AnyMessageCreatedValue
                  (mkMessageCreatedValue (uuid_String messageId) text)))]).
Proof.
  intros Hrt Hd Hi Hr. split; [|split].
  - unfold handleCreateRoom. by rewrite Hd, Hi.
  - intros st request Hid Hh. unfold exec, handleSubscribe_open.
    by rewrite Hid, Hrt, Hr, Hh.
  - intros request text messageId Hid Hb Hm. unfold handleCreateRoomMessage.
    by rewrite Hid, Hrt, Hr, Hb, Hm.
Qed.

Lemma writes_notify m st order c :
  NoDup order.*1 → c ∈ order.*1 →
  List.filter (is_write_to c) (notify_events m st order)
  = [EvWriteJSON c (marshal_Message m) (negb (write_fails st c))].
Proof.
  induction order as [|[c0 k0] order IH]; intros Hnd Hin.
  - by apply elem_of_nil in Hin.
  - cbn [notify_events]. rewrite List.filter_app.
    apply NoDup_cons in Hnd as [Hc0 Hnd]. simpl in Hc0, Hin.
    destruct (decide (c0 = c)) as [-> | Hne].
    + assert (Hrest : List.filter (is_write_to c) (notify_events m st order) = []).
      { pose proof (write_attempts_notify m st order c Hnd) as Hw.
        rewrite decide_False in Hw by done. unfold write_attempts in Hw.
        by apply length_zero_iff_nil. }
      rewrite Hrest, app_nil_r.
      destruct (write_fails st c); simpl; by rewrite bool_decide_eq_true_2.
    + apply elem_of_cons in Hin as [-> | Hin]; [done |].
      rewrite (IH Hnd Hin).
      destruct (write_fails st c0); simpl; by rewrite bool_decide_eq_false_2.
Qed.

(** X6: a message posted under the string a working session is registered
    under reaches that session's connection exactly once: the handler
    starts [notifyClients], which runs to its return and writes to the
    connection one payload, of kind [message_created], with the id the store
    returned and the text that was posted. *)
Theorem post_reaches_subscriber st q request roomId room text messageId i pc c k
    (members : gmap nat nat) order :
  reachable st →
  uuid_Parse (room_id request) = Some roomId →
  GetRoom q roomId = Ok room →
  decode_message (Body request) = Some text →
  InsertMessage q roomId text = Ok messageId →
  threads st !! i = Some (Subscribe pc (room_id request) c k) → registered pc = true →
  write_fails st c = false →
  mutex st = None →
  subscribers st !! room_id request = Some members → order ≡ₚ map_to_list members →
  ∃ st1 st2,
    exec (ReqCreateMessage q request) st = Some st1
    ∧ run (replicate (length order + 4) (Run (length (threads st)) order)) st1 = Some st2
    ∧ (∃ m, threads st2 !! length (threads st) = Some (Notify PubReturned m))
    ∧ List.filter (is_write_to c) (since st1 st2)
      = [EvWriteJSON c
           (JObject [("kind", JString "message_created");
                     ("value", JObject [("id", JString (uuid_String messageId));
                                        ("message", JString text)])])
           true].
Proof.
  intros Hinv%reachable_inv Hp Hr Hb Hm Hi Hreg Hok Hmu Hmem Hperm.
  set (m := mkMessage (room_id request) KindMessageCreated
              (AnyMessageCreatedValue (mkMessageCreatedValue (uuid_String messageId) text))).
  assert (Hevs : handleCreateRoomMessage q request
                 = [EvGetRoom roomId; EvInsertMessage roomId text;
                    EvRespond (http_JSON (marshal_fields
                                 (ResponseSchema_fields (uuid_String messageId))));
                    EvGo m]).
  { unfold handleCreateRoomMessage. by rewrite Hp, Hr, Hb, Hm. }
  set (st1 := spawn [Notify PubLock m] (emit (handleCreateRoomMessage q request) st)).
  assert (H1 : exec (ReqCreateMessage q request) st = Some st1).
  { unfold exec, st1. by rewrite Hevs. }
  destruct Hinv as [_ _ _ _ Hsession _ _].
  destruct (Hsession _ _ _ _ _ Hi Hreg) as (room' & Hroom' & Hck).
  assert (room' = members) as -> by congruence.
  assert (Hsize : size members ≠ 0).
  { intros Hz. apply map_size_empty_iff in Hz. subst. by rewrite lookup_empty in Hck. }
  destruct (range_order _ _ Hperm) as [Hnd Hin].
  assert (Hj : threads st1 !! length (threads st) = Some (Notify PubLock m)).
  { unfold st1. fields. by rewrite lookup_app_r, Nat.sub_diag. }
  exists st1, (set_thread (length (threads st)) (Notify PubReturned m)
                 (notifyClients order m st1)).
  split; [done |]. split.
  { by apply (run_notifyClients_some _ _ m st1 members). }
  split.
  { exists m. apply set_thread_lookup with (t := Notify PubLock m).
    erewrite notifyClients_some by done. by rewrite threads_notify_all. }
  erewrite notifyClients_some by done. rewrite since_notify_all.
  rewrite writes_notify; [| done | apply list_elem_of_fmap; exists (c, k);
                                  split; [done | by apply Hin]].
  assert (Hf : write_fails st1 c = false) by done.
  by rewrite Hf.
Qed.

(** ** Registering and removing *)

Lemma room_conns_add (subs subs' : gmap string (gmap nat nat)) r c k r' :
  subscribers_add r c k subs = Some subs' →
  room_conns r' subs' = if decide (r = r') then {[c]} ∪ room_conns r' subs
                        else room_conns r' subs.
Proof.
  unfold subscribers_add, room_present. case_bool_decide as P; intros H.
  - apply (room_conns_store _ _ _ _ _ r' H).
  - rewrite (room_conns_store _ _ _ _ _ r' H).
    rewrite room_conns_make by (by apply eq_None_not_Some). done.
Qed.

(** X7: registering a connection that is not yet in the room and then
    removing it gives back the subscribers of every room.  It gives back
    the map itself when the room had a slot; when it had none, the slot
    that was made stays behind, empty. *)
Theorem add_then_remove (subs subs' : gmap string (gmap nat nat)) r c k :
  subscribers_add r c k subs = Some subs' →
  c ∉ room_conns r subs →
  (∀ r', room_conns r' (delete_conn r c subs') = room_conns r' subs)
  ∧ (is_Some (subs !! r) → delete_conn r c subs' = subs)
  ∧ (subs !! r = None →
       delete_conn r c subs' = <[r := ∅]> subs ∧ delete_conn r c subs' ≠ subs).
Proof using Type.
  clear uuid_Parse uuid_String decode_message.
  intros Hadd Hc. split; [|split].
  - intros r'. rewrite room_conns_delete, (room_conns_add _ _ _ _ _ r' Hadd).
    case_decide; [subst; set_solver | done].
  - intros [room Hroom]. revert Hadd.
    unfold subscribers_add, room_present, store_conn, delete_conn.
    rewrite bool_decide_eq_true_2 by eauto. rewrite Hroom. intros [= <-].
    rewrite lookup_insert_eq, insert_insert_eq.
    assert (room !! c = None) as Hn.
    { apply not_elem_of_dom. unfold room_conns in Hc. by rewrite Hroom in Hc. }
    rewrite delete_insert_eq, (delete_id _ _ Hn). by apply insert_id.
  - intros Hnone. revert Hadd.
    unfold subscribers_add, room_present, store_conn, make_room, delete_conn.
    rewrite bool_decide_eq_false_2 by (rewrite Hnone; by intros [? ?]).
    rewrite lookup_insert_eq. intros [= <-].
    rewrite lookup_insert_eq, !insert_insert_eq.
    rewrite delete_insert_eq, delete_empty. split; [done |].
    intros Heq. apply (f_equal (λ s : gmap string (gmap nat nat), s !! r)) in Heq.
    rewrite lookup_insert_eq, Hnone in Heq. done.
Qed.

(** X8: a subscribe request on a room the store returns, with a good
    handshake, starts a session on a connection that is in no room; once
    the mutex is free the session runs lines 238-248, at most five
    statements, and then waits at line 250 with the mutex released, its
    connection added to the room of its raw id and every other room as it
    was. *)
Theorem subscribe_registers st q request roomId room :
  reachable st →
  uuid_Parse (room_id request) = Some roomId →
  GetRoom q roomId = Ok room →
  handshake request = true →
  mutex st = None →
  ∃ st1 st2 n,
    exec (ReqSubscribe q request) st = Some st1
    ∧ (n ≤ 5)%nat
    ∧ run (replicate n (Run (length (threads st)) [])) st1 = Some st2
    ∧ threads st2 !! length (threads st)
      = Some (Subscribe SubWait (room_id request) (conns st) (conns st))
    ∧ mutex st2 = None
    ∧ (∀ r, conns st ∉ room_conns r (subscribers st))
    ∧ (∀ r, room_conns r (subscribers st2)
            = if decide (room_id request = r)
              then {[conns st]} ∪ room_conns r (subscribers st)
              else room_conns r (subscribers st))
    ∧ since st1 st2 = [EvStore (room_id request) (conns st)].
Proof.
  intros Hinv%reachable_inv Hp Hr Hh Hm.
  set (t0 := Subscribe SubLockAdd (room_id request) (conns st) (conns st)).
  set (st1 := alloc_conn (spawn [t0] (emit [EvGetRoom roomId; EvUpgrade (Some (conns st))] st))).
  assert (H1 : exec (ReqSubscribe q request) st = Some st1).
  { unfold exec, handleSubscribe_open. by rewrite Hp, Hr, Hh. }
  assert (Hi : threads st1 !! length (threads st) = Some t0).
  { unfold st1. fields. by rewrite lookup_app_r, Nat.sub_diag. }
  destruct (run_register (length (threads st)) [] (room_id request) (conns st) (conns st)
              st1 Hi Hm) as (subs & Hadd & Hrun).
  eexists st1, _, _. split; [done |]. split; [| split; [exact Hrun |]].
  { destruct (room_present _ _); lia. }
  split; [by eapply set_thread_lookup |]. split; [done |]. split; [| split].
  - intros r Hin. apply room_conns_spec in Hin as (room' & Hroom' & [k Hk]).
    destruct Hinv as [_ Hfresh _ Hentry _ _ _].
    destruct (Hentry _ _ _ _ Hroom' Hk) as (j & pc & Hj & _).
    destruct (Hfresh _ _ _ _ _ Hj). lia.
  - intros r. apply (room_conns_add _ _ _ _ _ r Hadd).
  - apply (since_emit (set_subscribers subs st1)).
Qed.

(** ** The order of [range] does not matter *)

Lemma cancelled_notify_all_eq m st order :
  cancelled (foldl (notify_one m) st order) = cancelled st ∪ cancels_due st order.
Proof.
  unfold cancels_due. revert st. induction order as [|[c k] order IH]; intros st.
  - simpl. set_solver.
  - cbn [foldl]. rewrite IH.
    assert (Hext : ∀ l : list (nat * nat),
              filter (λ e, write_fails (notify_one m st (c, k)) e.1 = true) l
              = filter (λ e, write_fails st e.1 = true) l).
    { intros l. apply list_filter_iff. intros e. by rewrite write_fails_notify_one. }
    rewrite Hext. unfold notify_one.
    destruct (write_fails st c) eqn:Hf.
    + rewrite filter_cons_True by done. fields. rewrite fmap_cons, list_to_set_cons.
      simpl. set_solver.
    + rewrite filter_cons_False by (simpl; congruence). done.
Qed.

Lemma notify_events_perm m st o1 o2 :
  o1 ≡ₚ o2 → notify_events m st o1 ≡ₚ notify_events m st o2.
Proof.
  induction 1 as [| [c k] l1 l2 _ IH | [c k] [c' k'] l | l1 l2 l3 _ IH1 _ IH2].
  - done.
  - cbn [notify_events]. by rewrite IH.
  - cbn [notify_events]. rewrite !app_assoc. f_equiv. apply Permutation_app_comm.
  - by etrans.
Qed.

(** X9: two passes of [notifyClients] over the same room in different orders
    end in states that differ in nothing but the order of the log: the same
    cancel functions are called, the same events logged, everything else
    left as it was. *)
Theorem broadcast_order_independent m st o1 o2 :
  o1 ≡ₚ o2 →
  cancelled (notifyClients o1 m st) = cancelled (notifyClients o2 m st)
  ∧ since st (notifyClients o1 m st) ≡ₚ since st (notifyClients o2 m st)
  ∧ subscribers (notifyClients o1 m st) = subscribers (notifyClients o2 m st)
  ∧ mutex (notifyClients o1 m st) = mutex (notifyClients o2 m st)
  ∧ threads (notifyClients o1 m st) = threads (notifyClients o2 m st)
  ∧ broken (notifyClients o1 m st) = broken (notifyClients o2 m st)
  ∧ closed (notifyClients o1 m st) = closed (notifyClients o2 m st)
  ∧ reqDone (notifyClients o1 m st) = reqDone (notifyClients o2 m st)
  ∧ conns (notifyClients o1 m st) = conns (notifyClients o2 m st).
Proof.
  intros Hp. unfold notifyClients.
  destruct (subscribers st !! RoomId m) as [room|]; [|done].
  destruct (decide (size room = 0)); [done |].
  destruct (notify_all_frame m st o1) as (-> & -> & -> & -> & -> & -> & ->).
  destruct (notify_all_frame m st o2) as (-> & -> & -> & -> & -> & -> & ->).
  split; [| split; [| done]].
  - rewrite !cancelled_notify_all_eq. unfold cancels_due. f_equal.
    apply list_to_set_perm_L. by rewrite Hp.
  - unfold since. rewrite !events_notify_all, !drop_app_length.
    by apply notify_events_perm.
Qed.

(** ** What never goes back *)

Lemma notify_one_mono m st e :
  reqDone (notify_one m st e) = reqDone st
  ∧ cancelled st ⊆ cancelled (notify_one m st e)
  ∧ broken (notify_one m st e) = broken st
  ∧ closed (notify_one m st e) = closed st
  ∧ subscribers (notify_one m st e) = subscribers st.
Proof.
  destruct e as [c k]. unfold notify_one.
  destruct (write_fails st c); simpl; repeat split; set_solver.
Qed.

Lemma grows_refl st : grows st st.
Proof. by repeat split. Qed.

Lemma grows_trans st1 st2 st3 : grows st1 st2 → grows st2 st3 → grows st1 st3.
Proof.
  intros (? & ? & ? & ? & ? & ? & ?) (? & ? & ? & ? & ? & ? & ?).
  repeat split; try (etrans; eassumption); lia.
Qed.

Lemma thread_step_grows i order st st' :
  thread_step i order st = Some st' → grows st st'.
Proof.
  unfold thread_step. destruct (threads st !! i) as [[pc r c k | pc m]|]; [| |done]; simpl.
  - destruct pc; simpl; intros H; unfold grows.
    + apply fmap_Some in H as (s & (Hm & ->)%lock_Some & ->). fields.
      rewrite length_insert. by repeat split.
    + injection H as <-. fields. rewrite length_insert. by repeat split.
    + injection H as <-. fields. rewrite length_insert. unfold make_room.
      repeat split; try done. rewrite dom_insert_L. set_solver.
    + apply bind_Some in H as (subs & Hs & [= <-]). fields. rewrite length_insert.
      repeat split; try done. unfold store_conn in Hs.
      destruct (subscribers st !! r); [|done]. injection Hs as <-.
      rewrite dom_insert_L. set_solver.
    + apply fmap_Some in H as (s & (Hm & ->)%unlock_Some & ->). fields.
      rewrite length_insert. by repeat split.
    + destruct (ctx_done st k); [|done]. injection H as <-. fields.
      rewrite length_insert. by repeat split.
    + apply fmap_Some in H as (s & (Hm & ->)%lock_Some & ->). fields.
      rewrite length_insert. by repeat split.
    + injection H as <-. fields. rewrite length_insert.
      repeat split; try done. unfold delete_conn.
      destruct (subscribers st !! r); [|done]. rewrite dom_insert_L. set_solver.
    + apply fmap_Some in H as (s & (Hm & ->)%unlock_Some & ->). fields.
      rewrite length_insert. by repeat split.
    + injection H as <-. fields. rewrite length_insert.
      repeat split; try done. set_solver.
    + done.
  - destruct pc as [ | | [|e rest] | | ]; simpl; intros H; unfold grows.
    + apply fmap_Some in H as (s & (Hm & ->)%lock_Some & ->). fields.
      rewrite length_insert. by repeat split.
    + destruct (subscribers st !! RoomId m) as [room|].
      * repeat case_decide; simplify_eq; fields; rewrite length_insert; by repeat split.
      * simplify_eq. fields. rewrite length_insert. by repeat split.
    + injection H as <-. fields. rewrite length_insert. by repeat split.
    + injection H as <-.
      destruct (notify_one_mono m st e) as (Hr & Hc & Hb & Hcl & Hs).
      destruct (notify_one_frame m st e) as (_ & _ & Ht & Hn & _).
      fields. rewrite length_insert, Hr, Hb, Hcl, Hs, Ht, Hn. by repeat split.
    + apply fmap_Some in H as (s & (Hm & ->)%unlock_Some & ->). fields.
      rewrite length_insert. by repeat split.
    + done.
Qed.

Lemma exec_grows l st st' : exec l st = Some st' → grows st st'.
Proof.
  destruct l as [i order | q request | q request | k | c]; simpl.
  - apply thread_step_grows.
  - destruct (handleSubscribe_open q request (conns st)) as [evs []];
      intros [= <-]; unfold grows; fields; rewrite ?length_app; repeat split;
      try done; simpl; lia.
  - intros [= <-]. unfold grows. fields. rewrite length_app. repeat split; try done. lia.
  - intros [= <-]. unfold grows. fields. repeat split; try done. set_solver.
  - intros [= <-]. unfold grows. fields. repeat split; try done. set_solver.
Qed.

Lemma run_grows ls st st' : run ls st = Some st' → grows st st'.
Proof.
  revert st. induction ls as [|l ls IH]; intros st.
  - rewrite run_nil. intros [= <-]. apply grows_refl.
  - rewrite run_cons. destruct (exec l st) as [st1|] eqn:E; [|done].
    rewrite Some_bind. intros H. eapply grows_trans; [by eapply exec_grows | by apply IH].
Qed.

(** X11: the server never gives anything back: a room that has a slot in the
    map keeps it, empty or not, however the server runs on; no goroutine
    leaves the list and no connection number is used again. *)
Theorem slots_are_never_deleted ls st st' :
  run ls st = Some st' →
  (∀ r, is_Some (subscribers st !! r) → is_Some (subscribers st' !! r))
  ∧ (length (threads st) ≤ length (threads st'))%nat
  ∧ (conns st ≤ conns st')%nat.
Proof.
  intros (_ & _ & _ & _ & Hd & Hc & Ht)%run_grows. split; [|done].
  intros r Hr%elem_of_dom. apply elem_of_dom. set_solver.
Qed.

(** ** More invariants: the holder of the mutex, closed connections, the log *)

Lemma about_app c evs evs' : about c (evs ++ evs') = about c evs ++ about c evs'.
Proof. unfold about. apply List.filter_app. Qed.

Lemma take_then_drop {A} (l : list A) n m :
  (n ≤ m)%nat → take n l ++ drop n (take m l) = take m l.
Proof.
  intros Hnm. rewrite <- (take_drop n (take m l)) at 2.
  f_equal. rewrite take_take. f_equal. lia.
Qed.

Lemma inv_life_init : inv_life init.
Proof. split; simpl; intros; by simplify_list_eq. Qed.

(** A step of goroutine [i], by what it changes. *)
Lemma life_goto st st' i t t' evs :
  inv st → inv_life st → threads st !! i = Some t →
  threads st' = <[i := t']> (threads st) →
  conns st' = conns st → broken st' = broken st →
  events st' = events st ++ evs →
  (∀ j, mutex st' = Some j →
        (j = i ∧ critical t' = true) ∨ (j ≠ i ∧ mutex st = Some j)) →
  (∀ c, c ∈ closed st' → c ∈ closed st ∨ ∃ r k, t' = Subscribe SubReturned r c k) →
  (∀ k, k ∈ cancelled st' → k ∈ cancelled st ∨ k ∈ broken st) →
  match t, t' with
  | Subscribe pc r c k, Subscribe pc' r' c' k' =>
      r' = r ∧ c' = c ∧ k' = k ∧ pc ≠ SubReturned ∧ (phase pc ≤ phase pc')%nat
      ∧ ∀ x, about x evs = if decide (x = c)
                           then drop (phase pc) (take (phase pc') (lifecycle r c))
                           else []
  | Notify _ _, Notify _ _ => ∀ x, about x evs = []
  | _, _ => False
  end →
  inv_life st'.
Proof.
  intros [] [] Hi Ht Hc Hb He Hmu Hcl Hca Hlog.
  split; rewrite ?Ht, ?Hc, ?Hb, ?He.
  - intros j Hj. destruct (Hmu j Hj) as [[-> Hcrit] | [Hne Hold]].
    + exists t'. split; [by eapply goto_self | done].
    + destruct (life_holder0 _ Hold) as (x & Hx & Hcx). exists x.
      by rewrite goto_other.
  - intros c Hin. destruct (Hcl c Hin) as [Hold | (r & k & ->)].
    + destruct (life_closed0 _ Hold) as (j & r & k & Hj).
      exists j, r, k. rewrite goto_other; [done |]. intros ->.
      rewrite Hi in Hj. injection Hj as ->.
      destruct t' as [pc' r' c' k'|]; [|done]. by destruct Hlog as (_ & _ & _ & ? & _).
    + exists i, r, k. by eapply goto_self.
  - intros k Hk. destruct (Hca k Hk) as [Hold | Hbr]; auto.
  - intros j pc r c k Hj. rewrite about_app.
    apply lookup_goto in Hj as [[-> <-] | [Hne Hj]].
    + destruct t as [pc0 r0 c0 k0|]; [|done].
      destruct Hlog as (-> & -> & -> & _ & Hle & Hab).
      rewrite (life_log0 _ _ _ _ _ Hi), Hab, decide_True by done.
      by apply take_then_drop.
    + rewrite (life_log0 _ _ _ _ _ Hj).
      assert (about c evs = []) as ->; [|by rewrite app_nil_r].
      destruct t as [pc0 r0 c0 k0|], t' as [pc' r' c' k'|]; try done.
      destruct Hlog as (_ & _ & _ & _ & _ & Hab). rewrite Hab.
      rewrite decide_False; [done |]. intros ->.
      by pose proof (inv_unique0 _ _ _ _ _ _ _ _ _ Hi Hj).
  - intros c Hge. rewrite about_app, (life_fresh0 _ Hge). simpl.
    destruct t as [pc0 r0 c0 k0|], t' as [pc' r' c' k'|]; try done.
    destruct Hlog as (_ & _ & _ & _ & _ & Hab). rewrite Hab.
    rewrite decide_False; [done |]. intros ->.
    destruct (inv_fresh0 _ _ _ _ _ Hi). lia.
Qed.

Lemma about_quiet c evs : Forall quiet evs → (∀ x, EvClose x ∉ evs) → about c evs = [].
Proof.
  intros Hq Hc. unfold about. induction evs as [|e evs IH]; [done |].
  apply Forall_cons in Hq as [He Hq]. simpl.
  rewrite IH; [| done | intros x Hx; apply (Hc x); by right].
  destruct e; simpl in *; try done. exfalso. apply (Hc conn). by left.
Qed.

(** A connection in the map is not closed. *)
Lemma entry_not_closed st r (room : gmap nat nat) c k :
  inv st → inv_life st →
  subscribers st !! r = Some room → room !! c = Some k → c ∉ closed st.
Proof.
  intros [] [] Hr Hc Hcl.
  destruct (inv_entry0 _ _ _ _ Hr Hc) as (i & pc & Hi & Hreg).
  destruct (life_closed0 _ Hcl) as (j & r' & k' & Hj).
  pose proof (inv_unique0 _ _ _ _ _ _ _ _ _ Hi Hj) as ->.
  rewrite Hi in Hj. injection Hj as -> _ _. done.
Qed.

Ltac life_log :=
  solve [ repeat split; try done; try (simpl; lia);
          intros ?x; unfold about; simpl;
          repeat case_bool_decide; repeat case_decide; congruence ].

Ltac life_step i evs := eapply (life_goto _ _ i _ _ evs); eauto; fields;
  rewrite ?app_nil_r; try done; try life_log.

Lemma subscribe_step_life i pc r c k st st' :
  inv st → inv_life st → threads st !! i = Some (Subscribe pc r c k) →
  subscribe_step i pc r c k st = Some st' → inv_life st'.
Proof.
  intros Hinv Hlife Hi. pose proof Hinv as []. pose proof Hlife as [].
  assert (Hown : critical (Subscribe pc r c k) = true →
            ∀ j, mutex st = Some j → j = i).
  { intros Hcrit j Hj. pose proof (inv_mutex0 _ _ Hi Hcrit). congruence. }
  assert (Hfree : critical (Subscribe pc r c k) = false →
            ∀ j, mutex st = Some j → j ≠ i).
  { intros Hcrit j Hj ->. destruct (life_holder0 _ Hj) as (x & Hx & Hcx).
    rewrite Hi in Hx. injection Hx as <-. congruence. }
  destruct pc; simpl; intros H.
  - apply fmap_Some in H as (s & (Hm & ->)%lock_Some & ->).
    life_step i (@nil Event). all: try (intros j [= <-]; by left).
  - injection H as <-. destruct (room_present r (subscribers st));
      life_step i (@nil Event).
    all: try (intros j Hj; left; (split; [by apply Hown | done])).
  - injection H as <-. life_step i (@nil Event).
    all: try (intros j Hj; left; (split; [by apply Hown | done])).
  - apply bind_Some in H as (subs & Hs & [= <-]).
    life_step i [EvStore r c].
    all: try (intros j Hj; left; (split; [by apply Hown | done])).
  - apply fmap_Some in H as (s & (Hm & ->)%unlock_Some & ->).
    life_step i (@nil Event).
  - destruct (ctx_done st k); [|done]. injection H as <-.
    life_step i (@nil Event).
    all: try (intros j Hj; right; (split; [by apply Hfree | done])).
  - apply fmap_Some in H as (s & (Hm & ->)%lock_Some & ->).
    life_step i (@nil Event). all: try (intros j [= <-]; by left).
  - injection H as <-. life_step i [EvDelete r c].
    all: try (intros j Hj; left; (split; [by apply Hown | done])).
  - apply fmap_Some in H as (s & (Hm & ->)%unlock_Some & ->).
    life_step i (@nil Event).
  - injection H as <-. life_step i [EvClose c].
    all: try (intros j Hj; right; (split; [by apply Hfree | done])).
    all: try (intros x [->%elem_of_singleton | Hx]%elem_of_union; eauto).
  - done.
Qed.

Lemma notify_step_life i order pc m st st' :
  inv st → inv_life st → threads st !! i = Some (Notify pc m) →
  notify_step i order pc m st = Some st' → inv_life st'.
Proof.
  intros Hinv Hlife Hi. pose proof Hinv as []. pose proof Hlife as [].
  assert (Hown : critical (Notify pc m) = true → ∀ j, mutex st = Some j → j = i).
  { intros Hcrit j Hj. pose proof (inv_mutex0 _ _ Hi Hcrit). congruence. }
  destruct pc as [ | | [|[c k] rest] | | ]; simpl; intros H.
  - apply fmap_Some in H as (s & (Hm & ->)%lock_Some & ->).
    life_step i (@nil Event). all: try (intros j [= <-]; by left).
  - destruct (subscribers st !! RoomId m) as [room|] eqn:Hroom.
    + destruct (decide (size room = 0)).
      * injection H as <-. life_step i [EvNoSubscribers (RoomId m)].
        all: try (intros j Hj; left; (split; [by apply Hown | done])).
      * destruct (decide (order ≡ₚ map_to_list room)); [|done]. injection H as <-.
        life_step i (@nil Event).
        all: try (intros j Hj; left; (split; [by apply Hown | done])).
    + injection H as <-. life_step i [EvNoSubscribers (RoomId m)].
      all: try (intros j Hj; left; (split; [by apply Hown | done])).
  - injection H as <-. life_step i (@nil Event).
    all: try (intros j Hj; left; (split; [by apply Hown | done])).
  - injection H as <-.
    pose proof (inv_ready0 _ _ Hi) as Hready. simpl in Hready.
    destruct (Hready c k) as (room & Hroom & Hck); [by left |].
    assert (k = c) as -> by (by eapply entry_owner).
    pose proof (entry_not_closed _ _ _ _ _ Hinv Hlife Hroom Hck) as Hncl.
    unfold notify_one, write_fails.
    rewrite (bool_decide_eq_false_2 (c ∈ closed st)), orb_false_r by done.
    case_bool_decide as Hbr.
    + life_step i [EvWriteJSON c (marshal_Message m) false; EvCancel c].
      all: try (intros j Hj; left; (split; [by apply Hown | done])).
      all: try (intros x [->%elem_of_singleton | Hx]%elem_of_union; eauto).
    + life_step i [EvWriteJSON c (marshal_Message m) true].
      all: try (intros j Hj; left; (split; [by apply Hown | done])).
  - apply fmap_Some in H as (s & (Hm & ->)%unlock_Some & ->).
    life_step i (@nil Event).
  - done.
Qed.

Lemma inv_life_env st st' evs :
  inv_life st →
  mutex st' = mutex st → threads st' = threads st → conns st' = conns st →
  closed st' = closed st → cancelled st' = cancelled st → broken st ⊆ broken st' →
  events st' = events st ++ evs → (∀ c, about c evs = []) →
  inv_life st'.
Proof.
  intros [] Hm Ht Hc Hcl Hca Hb He Hab.
  split; rewrite ?Hm, ?Ht, ?Hc, ?Hcl, ?Hca, ?He; try done.
  - intros k Hk. apply Hb. auto.
  - intros i pc r c k Hi. rewrite about_app, Hab, app_nil_r. eauto.
  - intros c Hge. rewrite about_app, Hab, app_nil_r. eauto.
Qed.

Lemma inv_life_spawn st st' ts evs :
  inv st → inv_life st →
  mutex st' = mutex st → threads st' = threads st ++ ts → (conns st ≤ conns st')%nat →
  closed st' = closed st → cancelled st' = cancelled st → broken st' = broken st →
  events st' = events st ++ evs → (∀ c, about c evs = []) →
  (∀ t, t ∈ ts → (∃ m, t = Notify PubLock m)
                 ∨ (∃ r, t = Subscribe SubLockAdd r (conns st) (conns st))) →
  inv_life st'.
Proof.
  intros [] [] Hm Ht Hc Hcl Hca Hb He Hab Hts.
  assert (Hold : ∀ j t, (threads st ++ ts) !! j = Some t →
            threads st !! j = Some t ∨ t ∈ ts).
  { intros j t H. apply lookup_app_Some in H as [H | [_ H]]; [by left | right].
    by eapply list_elem_of_lookup_2. }
  split; rewrite ?Hm, ?Ht, ?Hcl, ?Hca, ?Hb, ?He; try done.
  - intros i Hi. destruct (life_holder0 _ Hi) as (t & Hti & Hcrit).
    exists t. split; [by apply lookup_app_l_Some | done].
  - intros c Hin. destruct (life_closed0 _ Hin) as (i & r & k & Hi).
    exists i, r, k. by apply lookup_app_l_Some.
  - intros i pc r c k Hi. rewrite about_app, Hab, app_nil_r.
    apply Hold in Hi as [Hi | Hin]; [eauto |].
    destruct (Hts _ Hin) as [[m ?] | [r' ?]]; simplify_eq.
    simpl. by apply life_fresh0.
  - intros c Hge. rewrite about_app, Hab, app_nil_r. apply life_fresh0. lia.
Qed.

Lemma exec_inv_life l st st' :
  inv st → inv_life st → exec l st = Some st' → inv_life st'.
Proof.
  intros Hinv Hlife. destruct l as [i order | q request | q request | k | c]; simpl.
  - unfold thread_step. destruct (threads st !! i) as [[pc r c k | pc m]|] eqn:Hi;
      simpl; [| |done].
    + by apply subscribe_step_life.
    + by apply notify_step_life.
  - pose proof (handleSubscribe_open_quiet q request (conns st)) as Hq.
    assert (Hnc : ∀ x, EvClose x ∉ (handleSubscribe_open q request (conns st)).1).
    { intros x. unfold handleSubscribe_open. repeat case_match; simpl; set_solver. }
    destruct (handleSubscribe_open q request (conns st)) as [evs []];
      intros [= <-]; simpl in Hq, Hnc.
    + eapply (inv_life_spawn st _ _ evs); eauto; fields; try done; [lia | |].
      * intros x. by apply about_quiet.
      * intros t ->%list_elem_of_singleton. right. eauto.
    + eapply (inv_life_env st _ evs); eauto. intros x. by apply about_quiet.
  - intros [= <-].
    eapply (inv_life_spawn st _ _ (handleCreateRoomMessage q request)); eauto;
      fields; try done.
    + intros x. apply about_quiet; [apply handleCreateRoomMessage_quiet |].
      intros y. unfold handleCreateRoomMessage. repeat case_match; simpl; set_solver.
    + intros t Ht. left. by apply goroutines_spec in Ht.
  - intros [= <-]. eapply (inv_life_env st _ []); eauto; fields; try done.
    by rewrite app_nil_r.
  - intros [= <-]. eapply (inv_life_env st _ []); eauto; fields; try done.
    + set_solver.
    + by rewrite app_nil_r.
Qed.

Lemma run_inv_life ls st st' :
  inv st → inv_life st → run ls st = Some st' → inv_life st'.
Proof.
  revert st. induction ls as [|l ls IH]; intros st Hinv Hlife.
  - rewrite run_nil. by intros [= <-].
  - rewrite run_cons. destruct (exec l st) as [st1|] eqn:E; [|done].
    rewrite Some_bind. apply IH; [by eapply exec_inv | by eapply exec_inv_life].
Qed.

Lemma reachable_inv_life st : reachable st → inv_life st.
Proof.
  intros [ls H]. eapply run_inv_life; [apply inv_init | apply inv_life_init | done].
Qed.

Lemma since_app st st' evs : events st' = events st ++ evs → since st st' = evs.
Proof. intros H. unfold since. by rewrite H, drop_app_length. Qed.

Lemma since_same st st' : events st' = events st → since st st' = [].
Proof. intros H. apply since_app. by rewrite app_nil_r. Qed.

(** The one statement that writes to a connection is line 198. *)
Lemma step_writes i order st st' c p ok :
  thread_step i order st = Some st' → EvWriteJSON c p ok ∈ since st st' →
  ∃ k rest m,
    threads st !! i = Some (Notify (PubRange ((c, k) :: rest)) m)
    ∧ ok = negb (write_fails st c) ∧ p = marshal_Message m.
Proof.
  unfold thread_step. destruct (threads st !! i) as [[pc r c0 k0 | pc m]|]; [| |done]; simpl.
  - destruct pc; simpl; intros H Hin; exfalso; revert Hin.
    + apply fmap_Some in H as (s & (Hm & ->)%lock_Some & ->).
      rewrite since_same by done. apply not_elem_of_nil.
    + injection H as <-. rewrite since_same by done. apply not_elem_of_nil.
    + injection H as <-. rewrite since_same by done. apply not_elem_of_nil.
    + apply bind_Some in H as (subs & Hs & [= <-]).
      rewrite (since_app _ _ [EvStore r c0]) by done. set_solver.
    + apply fmap_Some in H as (s & (Hm & ->)%unlock_Some & ->).
      rewrite since_same by done. apply not_elem_of_nil.
    + destruct (ctx_done st k0); [|done]. injection H as <-.
      rewrite since_same by done. apply not_elem_of_nil.
    + apply fmap_Some in H as (s & (Hm & ->)%lock_Some & ->).
      rewrite since_same by done. apply not_elem_of_nil.
    + injection H as <-. rewrite (since_app _ _ [EvDelete r c0]) by done. set_solver.
    + apply fmap_Some in H as (s & (Hm & ->)%unlock_Some & ->).
      rewrite since_same by done. apply not_elem_of_nil.
    + injection H as <-. rewrite (since_app _ _ [EvClose c0]) by done. set_solver.
    + done.
  - destruct pc as [ | | [|[c1 k1] rest] | | ]; simpl; intros H Hin.
    + exfalso. revert Hin. apply fmap_Some in H as (s & (Hm & ->)%lock_Some & ->).
      rewrite since_same by done. apply not_elem_of_nil.
    + exfalso. revert Hin. destruct (subscribers st !! RoomId m) as [room|].
      * repeat case_decide; simplify_eq.
        -- rewrite (since_app _ _ [EvNoSubscribers (RoomId m)]) by done. set_solver.
        -- rewrite since_same by done. apply not_elem_of_nil.
      * simplify_eq. rewrite (since_app _ _ [EvNoSubscribers (RoomId m)]) by done.
        set_solver.
    + exfalso. revert Hin. injection H as <-.
      rewrite since_same by done. apply not_elem_of_nil.
    + injection H as <-. revert Hin. unfold notify_one.
      destruct (write_fails st c1) eqn:Hf.
      * rewrite (since_app _ _ [EvWriteJSON c1 (marshal_Message m) false; EvCancel k1])
          by done.
        intros Hin. repeat (apply elem_of_cons in Hin as [Hin | Hin]; try done).
        -- injection Hin as -> -> ->. exists k1, rest, m. by rewrite Hf.
        -- by apply elem_of_nil in Hin.
      * rewrite (since_app _ _ [EvWriteJSON c1 (marshal_Message m) true]) by done.
        intros Hin. repeat (apply elem_of_cons in Hin as [Hin | Hin]; try done).
        -- injection Hin as -> -> ->. exists k1, rest, m. by rewrite Hf.
        -- by apply elem_of_nil in Hin.
    + exfalso. revert Hin. apply fmap_Some in H as (s & (Hm & ->)%unlock_Some & ->).
      rewrite since_same by done. apply not_elem_of_nil.
    + done.
Qed.

(** ** The mutex is locked exactly inside a critical section *)

(** X12: in every state the server reaches, the mutex is locked exactly when
    some goroutine is between a [Lock] and its [Unlock], and by that
    goroutine: no goroutine waits at line 250 or returns with the mutex
    locked, and when none is inside, the mutex is free. *)
Theorem mutex_is_never_leaked st :
  reachable st →
  (∀ i, mutex st = Some i ↔ ∃ t, threads st !! i = Some t ∧ critical t = true)
  ∧ (∀ i r c k, threads st !! i = Some (Subscribe SubWait r c k) → mutex st ≠ Some i)
  ∧ ((∀ i t, threads st !! i = Some t → critical t = false) → mutex st = None).
Proof.
  intros Hreach. pose proof (reachable_inv _ Hreach) as [Hmut _ _ _ _ _ _].
  pose proof (reachable_inv_life _ Hreach) as [Hhold _ _ _ _]. split; [|split].
  - intros i. split; [by apply Hhold |]. intros (t & Hi & Hc). eauto.
  - intros i r c k Hi Hm. destruct (Hhold _ Hm) as (t & Ht & Hc).
    rewrite Hi in Ht. by injection Ht as <-.
  - intros Hnone. destruct (mutex st) as [i|] eqn:Hm; [|done].
    destruct (Hhold _ eq_refl) as (t & Ht & Hc). rewrite (Hnone _ _ Ht) in Hc. done.
Qed.

(** ** Who is written to, who is cancelled *)

(** X13: in every state the server reaches, a connection the server has
    closed is in no room, and every write the server makes is made by
    [notifyClients], at line 198, with the message it was started on, to a
    connection that is registered under the room of that message and that
    the server has not closed. *)
Theorem closed_is_never_written st :
  reachable st →
  (∀ c r, c ∈ closed st → c ∉ room_conns r (subscribers st))
  ∧ (∀ i order st' c p ok,
       exec (Run i order) st = Some st' → EvWriteJSON c p ok ∈ since st st' →
       (c ∉ closed st)
       ∧ ∃ pc m, threads st !! i = Some (Notify pc m)
                 ∧ c ∈ room_conns (RoomId m) (subscribers st)
                 ∧ p = marshal_Message m).
Proof.
  intros Hreach. pose proof (reachable_inv _ Hreach) as Hinv.
  pose proof (reachable_inv_life _ Hreach) as Hlife.
  assert (Hnot : ∀ c r, c ∈ room_conns r (subscribers st) → c ∉ closed st).
  { intros c r (room & Hr & [k Hk])%room_conns_spec. by eapply entry_not_closed. }
  split.
  - intros c r Hc Hin. by apply (Hnot c r).
  - intros i order st' c p ok Hstep Hin.
    destruct (step_writes _ _ _ _ _ _ _ Hstep Hin) as (k & rest & m & Hi & _ & ->).
    destruct Hinv as [_ _ _ _ _ Hready _].
    pose proof (Hready _ _ Hi) as Hrange. simpl in Hrange.
    destruct (Hrange c k) as (room & Hroom & Hck); [by left |].
    assert (Hin' : c ∈ room_conns (RoomId m) (subscribers st)).
    { apply room_conns_spec. eauto. }
    split; [by apply (Hnot _ _ Hin') | eauto 6].
Qed.

(** X14: in every state the server reaches, the cancel function of a session
    has been called only if the peer of its connection is gone: the
    broadcast never ends a session whose connection works, and the wait of
    a session is over only if its request's context has ended or its own
    connection is broken. *)
Theorem only_broken_sessions_are_cancelled st :
  reachable st →
  ∀ i pc r c k,
    threads st !! i = Some (Subscribe pc r c k) →
    (k ∈ cancelled st → c ∈ broken st)
    ∧ (ctx_done st k = true → k ∈ reqDone st ∨ c ∈ broken st).
Proof.
  intros Hreach i pc r c k Hi.
  pose proof (reachable_inv _ Hreach) as [_ Hfresh _ _ _ _ _].
  pose proof (reachable_inv_life _ Hreach) as [_ _ Hcan _ _].
  destruct (Hfresh _ _ _ _ _ Hi) as [_ ->].
  split; [by apply Hcan |].
  unfold ctx_done. intros [H | H]%orb_true_iff; apply bool_decide_eq_true in H; auto.
Qed.

(** ** The life of a connection, as the log has it *)

Lemma thread_step_sessions i order st st' :
  thread_step i order st = Some st' →
  conns st' = conns st
  ∧ ∀ j pc r c k, threads st !! j = Some (Subscribe pc r c k) →
                  ∃ pc', threads st' !! j = Some (Subscribe pc' r c k).
Proof.
  unfold thread_step. destruct (threads st !! i) as [t|] eqn:Hi; [|done]. simpl.
  assert (Hsub : ∀ s pc' r c k,
            t = Subscribe pc' r c k → threads s = threads st →
            ∀ pc'' j pc r0 c0 k0, threads st !! j = Some (Subscribe pc r0 c0 k0) →
              ∃ pc1, threads (set_thread i (Subscribe pc'' r c k) s) !! j
                     = Some (Subscribe pc1 r0 c0 k0)).
  { intros s pc' r c k -> Hs pc'' j pc r0 c0 k0 Hj. fields. rewrite Hs.
    destruct (decide (j = i)) as [-> | Hne].
    - rewrite Hi in Hj. injection Hj as -> -> -> ->. exists pc''. by eapply goto_self.
    - exists pc. by rewrite goto_other. }
  assert (Hpub : ∀ s pc' m,
            t = Notify pc' m → threads s = threads st →
            ∀ pc'' j pc r0 c0 k0, threads st !! j = Some (Subscribe pc r0 c0 k0) →
              ∃ pc1, threads (set_thread i (Notify pc'' m) s) !! j
                     = Some (Subscribe pc1 r0 c0 k0)).
  { intros s pc' m -> Hs pc'' j pc r0 c0 k0 Hj. fields. rewrite Hs.
    destruct (decide (j = i)) as [-> | Hne]; [congruence |].
    exists pc. by rewrite goto_other. }
  destruct t as [pc r c k | pc m].
  - destruct pc; simpl; intros H.
    + apply fmap_Some in H as (s & (Hm & ->)%lock_Some & ->). split; [done |]. eauto.
    + injection H as <-. split; [done |]. eauto.
    + injection H as <-. split; [done |]. eauto.
    + apply bind_Some in H as (subs & Hs & [= <-]). split; [done |]. eauto.
    + apply fmap_Some in H as (s & (Hm & ->)%unlock_Some & ->). split; [done |]. eauto.
    + destruct (ctx_done st k); [|done]. injection H as <-. split; [done |]. eauto.
    + apply fmap_Some in H as (s & (Hm & ->)%lock_Some & ->). split; [done |]. eauto.
    + injection H as <-. split; [done |]. eauto.
    + apply fmap_Some in H as (s & (Hm & ->)%unlock_Some & ->). split; [done |]. eauto.
    + injection H as <-. split; [done |]. eauto.
    + done.
  - destruct pc as [ | | [|e rest] | | ]; simpl; intros H.
    + apply fmap_Some in H as (s & (Hm & ->)%lock_Some & ->). split; [done |]. eauto.
    + destruct (subscribers st !! RoomId m) as [room|].
      * repeat case_decide; simplify_eq; (split; [done |]); eauto.
      * simplify_eq. split; [done |]. eauto.
    + injection H as <-. split; [done |]. eauto.
    + injection H as <-.
      destruct (notify_one_frame m st e) as (_ & _ & Ht & Hn & _).
      split; [done |]. eauto.
    + apply fmap_Some in H as (s & (Hm & ->)%unlock_Some & ->). split; [done |]. eauto.
    + done.
Qed.

Lemma exec_allocated l st st' :
  exec l st = Some st' →
  (∀ c, (c < conns st)%nat → ∃ i pc r k, threads st !! i = Some (Subscribe pc r c k)) →
  (∀ c, (c < conns st')%nat → ∃ i pc r k, threads st' !! i = Some (Subscribe pc r c k)).
Proof.
  intros Hexec Hall. assert (Hkeep : ∀ c,
    (∀ j pc r c k, threads st !! j = Some (Subscribe pc r c k) →
                   ∃ pc', threads st' !! j = Some (Subscribe pc' r c k)) →
    (c < conns st)%nat → ∃ i pc r k, threads st' !! i = Some (Subscribe pc r c k)).
  { intros c Hk Hc. destruct (Hall c Hc) as (i & pc & r & k & Hi).
    destruct (Hk _ _ _ _ _ Hi) as (pc' & Hi'). eauto. }
  assert (Hsame : threads st' = threads st →
            ∀ j pc r c k, threads st !! j = Some (Subscribe pc r c k) →
                          ∃ pc', threads st' !! j = Some (Subscribe pc' r c k)).
  { intros -> j pc r c k Hj. eauto. }
  assert (Happ : ∀ ts, threads st' = threads st ++ ts →
            ∀ j pc r c k, threads st !! j = Some (Subscribe pc r c k) →
                          ∃ pc', threads st' !! j = Some (Subscribe pc' r c k)).
  { intros ts -> j pc r c k Hj. exists pc. by apply lookup_app_l_Some. }
  destruct l as [i order | q request | q request | k | c0]; simpl in Hexec.
  - destruct (thread_step_sessions _ _ _ _ Hexec) as [Hc Hk].
    intros c. rewrite Hc. by apply Hkeep.
  - destruct (handleSubscribe_open q request (conns st)) as [evs []];
      injection Hexec as <-.
    + fields. intros c Hc. destruct (decide (c = conns st)) as [-> | Hne].
      * exists (length (threads st)), SubLockAdd, (room_id request), (conns st).
        by rewrite lookup_app_r, Nat.sub_diag.
      * apply Hkeep; [|lia]. by apply (Happ [Subscribe SubLockAdd (room_id request)
                                                  (conns st) (conns st)]).
    + intros c. by apply Hkeep, Hsame.
  - injection Hexec as <-. intros c. by apply Hkeep, (Happ (goroutines
      (handleCreateRoomMessage q request))).
  - injection Hexec as <-. intros c. by apply Hkeep, Hsame.
  - injection Hexec as <-. intros c. by apply Hkeep, Hsame.
Qed.

Lemma run_allocated ls st st' :
  run ls st = Some st' →
  (∀ c, (c < conns st)%nat → ∃ i pc r k, threads st !! i = Some (Subscribe pc r c k)) →
  (∀ c, (c < conns st')%nat → ∃ i pc r k, threads st' !! i = Some (Subscribe pc r c k)).
Proof.
  revert st. induction ls as [|l ls IH]; intros st.
  - rewrite run_nil. by intros [= <-].
  - rewrite run_cons. destruct (exec l st) as [st1|] eqn:E; [|done].
    rewrite Some_bind. intros H Hall. apply (IH _ H). by eapply exec_allocated.
Qed.

(** X15: in every state the server reaches, what the log says of a
    connection is a beginning of: stored under the room of its session,
    deleted from it, closed.  So each connection is stored at most once,
    deleted at most once and only after it was stored, closed at most once
    and only after it was deleted; and the log of a session says exactly how
    far the session is. *)
Theorem connection_life_in_log st :
  reachable st →
  (∀ i pc r c k, threads st !! i = Some (Subscribe pc r c k) →
                 about c (events st) = take (phase pc) (lifecycle r c))
  ∧ (∀ c, ∃ r n, about c (events st) = take n (lifecycle r c)).
Proof.
  intros Hreach. pose proof (reachable_inv_life _ Hreach) as [_ _ _ Hlog Hfresh].
  split; [done |]. intros c.
  destruct (decide (c < conns st)%nat) as [Hlt | Hge].
  - destruct Hreach as [ls Hrun].
    destruct (run_allocated _ _ _ Hrun) with (c := c) as (i & pc & r & k & Hi);
      [simpl; lia | done |].
    exists r, (phase pc). eauto.
  - exists EmptyString, 0. rewrite Hfresh by lia. done.
Qed.

(** ** C2 *)

Lemma exec_sessions l st st' j pc r c k :
  exec l st = Some st' → threads st !! j = Some (Subscribe pc r c k) →
  ∃ pc', threads st' !! j = Some (Subscribe pc' r c k).
Proof.
  intros Hexec Hj. destruct l as [i order | q request | q request | k0 | c0];
    simpl in Hexec.
  - destruct (thread_step_sessions _ _ _ _ Hexec) as [_ Hk]. eauto.
  - destruct (handleSubscribe_open q request (conns st)) as [evs []];
      injection Hexec as <-; fields; exists pc; [by apply lookup_app_l_Some | done].
  - injection Hexec as <-. fields. exists pc. by apply lookup_app_l_Some.
  - injection Hexec as <-. eauto.
  - injection Hexec as <-. eauto.
Qed.

Lemma run_sessions ls st st' j pc r c k :
  run ls st = Some st' → threads st !! j = Some (Subscribe pc r c k) →
  ∃ pc', threads st' !! j = Some (Subscribe pc' r c k).
Proof.
  revert st pc. induction ls as [|l ls IH]; intros st pc.
  - rewrite run_nil. intros [= <-]. eauto.
  - rewrite run_cons. destruct (exec l st) as [st1|] eqn:E; [|done].
    rewrite Some_bind. intros H Hj.
    destruct (exec_sessions _ _ _ _ _ _ _ _ E Hj) as (pc1 & Hj1). by eapply IH.
Qed.

Lemma reachable_run ls st st' : reachable st → run ls st = Some st' → reachable st'.
Proof.
  intros [ls0 H0] H. exists (ls0 ++ ls). rewrite run_app, H0. exact H.
Qed.

(** C2: a registered session waiting at line 250 does not move before its
    context is done; once the request's context has ended or its cancel
    function was called, its remaining statements run to the return, delete
    its entry from the map and close its connection.  Of the two only the
    [Close] is deferred (line 234); the removal is the statement of line
    254.  But no statement of a registered session can fail: each of them
    runs, or waits at line 250 for the context or at line 252 for the mutex.
    So the session does not unwind before it has removed its entry: its
    connection is not closed while it is registered, and on every run of
    the server on which the connection gets closed, the entry has been
    deleted first and the connection is in no room. *)
Theorem session_cleanup st i pc r c k :
  reachable st →
  threads st !! i = Some (Subscribe pc r c k) → registered pc = true →
  (pc = SubWait → ctx_done st k = false → ∀ o, exec (Run i o) st = None)
  ∧ (k ∈ reqDone st ∨ k ∈ cancelled st →
     (critical (Subscribe pc r c k) = false → mutex st = None) →
     run (replicate (steps_to_return pc) (Run i [])) st = Some (cleaned i r c k st)
     ∧ (c ∉ room_conns r (subscribers (cleaned i r c k st)))
     ∧ c ∈ closed (cleaned i r c k st)
     ∧ since st (cleaned i r c k st) = [EvDelete r c; EvClose c])
  ∧ (∀ o, exec (Run i o) st = None →
       (pc = SubWait ∧ ctx_done st k = false)
       ∨ (pc = SubLockRemove ∧ is_Some (mutex st)))
  ∧ (c ∉ closed st)
  ∧ (∀ ls st', run ls st = Some st' → c ∈ closed st' →
       (∀ r', c ∉ room_conns r' (subscribers st'))
       ∧ about c (since st st') = [EvDelete r c; EvClose c]).
Proof.
  intros Hreach Hi Hreg. pose proof (reachable_inv _ Hreach) as Hinv.
  pose proof (reachable_inv_life _ Hreach) as Hlife.
  split; [|split; [|split; [|split]]].
  - intros -> Hd o. by eapply sub_wait_blocked.
  - intros Hsig Hm.
    assert (Hd : ctx_done st k = true).
    { unfold ctx_done. destruct Hsig as [H | H].
      - by rewrite (bool_decide_eq_true_2 _ H).
      - rewrite (bool_decide_eq_true_2 _ H). apply orb_true_r. }
    split; [by apply run_cleanup |].
    destruct (cleaned_spec i r c k st) as (? & ? & _ & ?). done.
  - intros o. rewrite (step_subscribe _ _ _ _ _ _ _ Hi).
    destruct Hinv as [Hmut _ _ _ _ _ _].
    destruct pc; try done; cbn [subscribe_step].
    + pose proof (Hmut _ _ Hi eq_refl) as Hm. unfold unlock. by rewrite Hm.
    + destruct (ctx_done st k); [done | by left].
    + unfold lock. destruct (mutex st) as [x|]; [right; eauto | done].
  - destruct Hinv as [? ? ? ? Hsession ? ?].
    destruct (Hsession _ _ _ _ _ Hi Hreg) as (room & Hroom & Hck).
    by eapply entry_not_closed.
  - intros ls st' Hrun Hcl.
    pose proof (reachable_run _ _ _ Hreach Hrun) as Hreach'.
    pose proof (reachable_inv _ Hreach') as Hinv'.
    pose proof (reachable_inv_life _ Hreach') as Hlife'.
    split.
    + intros r' (room & Hr & [k' Hk'])%room_conns_spec.
      by apply (entry_not_closed st' r' room c k').
    + destruct (run_sessions _ _ _ _ _ _ _ _ Hrun Hi) as (pc' & Hi').
      destruct Hlife' as [_ Hclosed _ Hlog' _].
      destruct (Hclosed _ Hcl) as (j & r' & k' & Hj).
      destruct Hinv' as [_ _ Huniq _ _ _ _].
      pose proof (Huniq _ _ _ _ _ _ _ _ _ Hi' Hj) as ->.
      rewrite Hi' in Hj. injection Hj as -> _ _.
      pose proof (Hlog' _ _ _ _ _ Hi') as Hall.
      destruct Hlife as [_ _ _ Hlog _]. pose proof (Hlog _ _ _ _ _ Hi) as Hone.
      replace (phase pc) with 1 in Hone by (by destruct pc).
      destruct (run_events _ _ _ Hrun) as [evs Hevs].
      rewrite (since_app _ _ evs Hevs).
      rewrite Hevs, about_app, Hone in Hall. cbn [phase take lifecycle] in Hall.
      by injection Hall.
Qed.

(** ** Between the holder of the mutex and its [Unlock] *)

Lemma writes_notify_events m st order :
  length (List.filter is_write (notify_events m st order)) = length order.
Proof.
  induction order as [|[c k] order IH]; [done |].
  cbn [notify_events length]. rewrite List.filter_app, length_app, IH.
  by destruct (write_fails st c).
Qed.

Lemma unlock_after_store i o r c k st :
  threads st !! i = Some (Subscribe SubStoreConn r c k) →
  is_Some (mutex st) → is_Some (subscribers st !! r) →
  ∃ st' evs, run (replicate 2 (Run i o)) st = Some st'
             ∧ mutex st' = None ∧ threads st' !! i = Some (Subscribe SubWait r c k)
             ∧ events st' = events st ++ evs ∧ List.filter is_write evs = [].
Proof.
  intros Hi Hm [room Hroom].
  assert (Hs : store_conn r c k (subscribers st)
               = Some (<[r := <[c := k]> room]> (subscribers st))).
  { unfold store_conn. by rewrite Hroom. }
  do 2 eexists. split; [| split; [| split; [| split]]].
  - cbn [replicate].
    rewrite run_cons, (sub_store _ _ r c k _ _ Hi Hs), Some_bind.
    rewrite run_cons, (sub_unlock_add _ _ r c k), Some_bind, run_nil; [| side..].
    reflexivity.
  - done.
  - thread_at.
  - fields. reflexivity.
  - done.
Qed.

Lemma unlock_after_make i o r c k st :
  threads st !! i = Some (Subscribe SubMakeRoom r c k) → is_Some (mutex st) →
  ∃ st' evs, run (replicate 3 (Run i o)) st = Some st'
             ∧ mutex st' = None ∧ threads st' !! i = Some (Subscribe SubWait r c k)
             ∧ events st' = events st ++ evs ∧ List.filter is_write evs = [].
Proof.
  intros Hi Hm. change (replicate 3 (Run i o)) with (Run i o :: replicate 2 (Run i o)).
  rewrite run_cons, (sub_make _ _ r c k), Some_bind; [| side..].
  apply (unlock_after_store i o r c k
           (set_thread i (Subscribe SubStoreConn r c k)
              (set_subscribers (make_room r (subscribers st)) st))); [side | done |].
  fields. unfold make_room. rewrite lookup_insert_eq. by eexists.
Qed.

Lemma unlock_after_check i o r c k st :
  threads st !! i = Some (Subscribe SubCheckRoom r c k) → is_Some (mutex st) →
  ∃ st' evs,
    run (replicate (if room_present r (subscribers st) then 3 else 4) (Run i o)) st
    = Some st'
    ∧ mutex st' = None ∧ threads st' !! i = Some (Subscribe SubWait r c k)
    ∧ events st' = events st ++ evs ∧ List.filter is_write evs = [].
Proof.
  intros Hi Hm. destruct (room_present r (subscribers st)) eqn:Hp.
  - change (replicate 3 (Run i o)) with (Run i o :: replicate 2 (Run i o)).
    rewrite run_cons, (sub_check _ _ r c k), Some_bind; [| side..]. rewrite Hp.
    apply (unlock_after_store i o r c k
             (set_thread i (Subscribe SubStoreConn r c k) st)); [side | done |].
    fields. by apply bool_decide_eq_true in Hp.
  - change (replicate 4 (Run i o)) with (Run i o :: replicate 3 (Run i o)).
    rewrite run_cons, (sub_check _ _ r c k), Some_bind; [| side..]. rewrite Hp.
    apply (unlock_after_make i o r c k
             (set_thread i (Subscribe SubMakeRoom r c k) st)); [side | done].
Qed.

Lemma unlock_after_delete i o r c k st :
  threads st !! i = Some (Subscribe SubDeleteConn r c k) → is_Some (mutex st) →
  ∃ st' evs, run (replicate 2 (Run i o)) st = Some st'
             ∧ mutex st' = None ∧ threads st' !! i = Some (Subscribe SubCloseConn r c k)
             ∧ events st' = events st ++ evs ∧ List.filter is_write evs = [].
Proof.
  intros Hi Hm. do 2 eexists. split; [| split; [| split; [| split]]].
  - cbn [replicate].
    rewrite run_cons, (sub_delete _ _ r c k), Some_bind; [| side..].
    rewrite run_cons, (sub_unlock_remove _ _ r c k), Some_bind, run_nil; [| side..].
    reflexivity.
  - done.
  - thread_at.
  - fields. reflexivity.
  - done.
Qed.

Lemma unlock_after_range i o m rest st :
  threads st !! i = Some (Notify (PubRange rest) m) → is_Some (mutex st) →
  ∃ st' evs, run (replicate (length rest + 2) (Run i o)) st = Some st'
             ∧ mutex st' = None ∧ threads st' !! i = Some (Notify PubReturned m)
             ∧ events st' = events st ++ evs
             ∧ length (List.filter is_write evs) = length rest.
Proof.
  intros Hi Hm. do 2 eexists. split; [| split; [| split; [| split]]].
  - rewrite replicate_add, run_app.
    rewrite (run_range _ _ m), Some_bind; [| side..]. cbn [replicate].
    rewrite run_cons, (notify_range_end _ _ m), Some_bind; [| side..].
    rewrite run_cons, (notify_unlock _ _ m), Some_bind, run_nil; [reflexivity | side |].
    fields. by rewrite mutex_notify_all.
  - done.
  - thread_at.
  - fields. apply events_notify_all.
  - apply writes_notify_events.
Qed.

Lemma unlock_after_lookup i m st :
  threads st !! i = Some (Notify PubLookup m) → is_Some (mutex st) →
  ∃ st' evs,
    run (replicate (steps_to_unlock st (Notify PubLookup m))
           (Run i (range_of st (Notify PubLookup m)))) st = Some st'
    ∧ mutex st' = None ∧ threads st' !! i = Some (Notify PubReturned m)
    ∧ events st' = events st ++ evs
    ∧ length (List.filter is_write evs) = writes_to_unlock st (Notify PubLookup m).
Proof.
  intros Hi Hm. cbn [steps_to_unlock range_of writes_to_unlock].
  destruct (subscribers st !! RoomId m) as [room|] eqn:Hroom;
    cbn [fmap option_fmap option_map default].
  - destruct (decide (size room = 0)) as [Hz | Hnz].
    + do 2 eexists. split; [| split; [| split; [| split]]].
      * cbn [replicate].
        rewrite run_cons, (notify_lookup_none _ _ m), Some_bind; [| side | ].
        2:{ right. rewrite Hroom. f_equal. by apply map_size_empty_iff. }
        rewrite run_cons, (notify_unlock _ _ m), Some_bind, run_nil; [| side..].
        reflexivity.
      * done.
      * thread_at.
      * fields. reflexivity.
      * by rewrite Hz.
    + replace (size room + 3) with (1 + (length (map_to_list room) + 2))
        by (rewrite length_map_to_list; lia).
      rewrite replicate_add, run_app. cbn [replicate].
      rewrite run_cons, (notify_lookup_some _ _ m _ room), Some_bind, run_nil, Some_bind;
        [| side..].
      rewrite <- (length_map_to_list room).
      apply (unlock_after_range i (map_to_list room) m (map_to_list room)
               (set_thread i (Notify (PubRange (map_to_list room)) m) st)); side.
  - do 2 eexists. split; [| split; [| split; [| split]]].
    + cbn [replicate].
      rewrite run_cons, (notify_lookup_none _ _ m), Some_bind; [| side | by left].
      rewrite run_cons, (notify_unlock _ _ m), Some_bind, run_nil; [| side..].
      reflexivity.
    + done.
    + thread_at.
    + fields. reflexivity.
    + done.
Qed.

(** X16: in every state the server reaches, nothing but statements of its
    own stands between the holder of the mutex and its [Unlock]: among them
    is no [Lock] and no wait for a context or for another goroutine, the
    store of line 246 finds the inner map of the room, and the [Unlock] finds
    the mutex locked.  Their number is known from where the holder stands,
    and so is the number of calls of [WriteJSON] among them: none in
    [handleSubscribe], and in [notifyClients] one for each entry the loop
    has yet to visit, all made with the mutex held.  So the mutex is free
    when these calls have returned; a call of [WriteJSON], as the call of
    [slog.Info] of line 244, is one step here, and how long it takes is not
    in the model. *)
Theorem holder_releases_the_mutex st i t :
  reachable st → threads st !! i = Some t → critical t = true →
  ∃ st' t',
    run (replicate (steps_to_unlock st t) (Run i (range_of st t))) st = Some st'
    ∧ mutex st' = None
    ∧ threads st' !! i = Some t' ∧ critical t' = false
    ∧ length (List.filter is_write (since st st')) = writes_to_unlock st t.
Proof.
  intros Hreach Hi Hc.
  pose proof (reachable_inv _ Hreach) as [Hmut _ _ _ _ Hready _].
  assert (Hm : is_Some (mutex st)) by (rewrite (Hmut _ _ Hi Hc); eauto).
  pose proof (Hready _ _ Hi) as Hr.
  assert (Hfin : ∀ n o t' w,
    critical t' = false →
    (∃ st' evs, run (replicate n (Run i o)) st = Some st'
                ∧ mutex st' = None ∧ threads st' !! i = Some t'
                ∧ events st' = events st ++ evs
                ∧ length (List.filter is_write evs) = w) →
    ∃ st' t', run (replicate n (Run i o)) st = Some st'
              ∧ mutex st' = None ∧ threads st' !! i = Some t' ∧ critical t' = false
              ∧ length (List.filter is_write (since st st')) = w).
  { intros n o t' w Ht' (st' & evs & ? & ? & ? & Hev & ?).
    exists st', t'. rewrite (since_app _ _ _ Hev). eauto. }
  assert (Hnil : ∀ n o t',
    (∃ st' evs, run (replicate n (Run i o)) st = Some st'
                ∧ mutex st' = None ∧ threads st' !! i = Some t'
                ∧ events st' = events st ++ evs ∧ List.filter is_write evs = []) →
    ∃ st' evs, run (replicate n (Run i o)) st = Some st'
               ∧ mutex st' = None ∧ threads st' !! i = Some t'
               ∧ events st' = events st ++ evs
               ∧ length (List.filter is_write evs) = 0).
  { intros n o t' (st' & evs & ? & ? & ? & ? & Hw). exists st', evs.
    rewrite Hw. eauto 6. }
  destruct t as [pc r c k | pc m].
  - destruct pc; try done; cbn [steps_to_unlock writes_to_unlock].
    + eapply Hfin; [| by apply Hnil, unlock_after_check]. done.
    + eapply Hfin; [| by apply Hnil, unlock_after_make]. done.
    + eapply Hfin; [| by apply Hnil, unlock_after_store]. done.
    + eapply Hfin; cycle 1.
      { do 2 eexists. split; [| split; [| split; [| split]]].
        - cbn [replicate].
          rewrite run_cons, (sub_unlock_add _ _ r c k), Some_bind, run_nil; [| side..].
          reflexivity.
        - done.
        - thread_at.
        - fields. symmetry. apply app_nil_r.
        - done. }
      done.
    + eapply Hfin; [| by apply Hnil, unlock_after_delete]. done.
    + eapply Hfin; cycle 1.
      { do 2 eexists. split; [| split; [| split; [| split]]].
        - cbn [replicate].
          rewrite run_cons, (sub_unlock_remove _ _ r c k), Some_bind, run_nil; [| side..].
          reflexivity.
        - done.
        - thread_at.
        - fields. symmetry. apply app_nil_r.
        - done. }
      done.
  - destruct pc as [ | | rest | | ]; try done.
    + eapply Hfin; [| by apply unlock_after_lookup]. done.
    + cbn [steps_to_unlock writes_to_unlock].
      eapply Hfin; [| by apply unlock_after_range]. done.
    + cbn [steps_to_unlock writes_to_unlock]. eapply Hfin; cycle 1.
      { do 2 eexists. split; [| split; [| split; [| split]]].
        - cbn [replicate].
          rewrite run_cons, (notify_unlock _ _ m), Some_bind, run_nil; [| side..].
          reflexivity.
        - done.
        - thread_at.
        - fields. symmetry. apply app_nil_r.
        - done. }
      done.
Qed.

End Server.

(** * The theorems at work on a run of the server *)

Import Demo.

Lemma reachable_after ls st :
  go ls init = Some st → reachable Lib.Parse Lib.String_ Lib.decode st.
Proof. intros H. by exists ls. Qed.

Lemma broadcast_pending_reachable :
  reachable Lib.Parse Lib.String_ Lib.decode (after broadcast_pending).
Proof. apply (reachable_after broadcast_pending). vm_compute. reflexivity. Qed.

(** C1 on the run [broadcast_pending]: the second of two subscribers is
    gone; it is cancelled once, the first one gets the message, and the
    second session then removes itself. *)
Lemma notify_failure_evicts_witness :
  threads (after broadcast_pending) !! 2 = Some (Notify PubLock (hello lower))
  ∧ write_fails (after broadcast_pending) 1 = true
  ∧ cancel_calls 1
      (since (after broadcast_pending)
         (set_thread 2 (Notify PubReturned (hello lower))
            (notifyClients (map_to_list both) (hello lower) (after broadcast_pending)))) = 1
  ∧ write_attempts 0
      (since (after broadcast_pending)
         (set_thread 2 (Notify PubReturned (hello lower))
            (notifyClients (map_to_list both) (hello lower) (after broadcast_pending)))) = 1
  ∧ ∃ i pc,
      go (replicate (steps_to_return pc) (Run i []))
         (set_thread 2 (Notify PubReturned (hello lower))
            (notifyClients (map_to_list both) (hello lower) (after broadcast_pending)))
      = Some (cleaned i lower 1 1
                (set_thread 2 (Notify PubReturned (hello lower))
                   (notifyClients (map_to_list both) (hello lower)
                      (after broadcast_pending)))).
Proof.
  assert (H2 : threads (after broadcast_pending) !! 2 = Some (Notify PubLock (hello lower)))
    by (vm_compute; reflexivity).
  assert (Hf : write_fails (after broadcast_pending) 1 = true)
    by (vm_compute; reflexivity).
  assert (Hm : mutex (after broadcast_pending) = None) by (vm_compute; reflexivity).
  assert (Hr : subscribers (after broadcast_pending) !! RoomId (hello lower) = Some both)
    by (vm_compute; reflexivity).
  assert (H1 : both !! 1 = Some 1) by (vm_compute; reflexivity).
  destruct (notify_failure_evicts Lib.Parse Lib.String_ Lib.decode
              (after broadcast_pending) 2 (hello lower) (map_to_list both) both 1 1
              broadcast_pending_reachable H2 Hm Hr H1 (reflexivity _) Hf)
    as (_ & Hw & _ & Hc & _ & _ & _ & i & pc & _ & _ & Hrun & _).
  split; [exact H2 |]. split; [exact Hf |]. split; [exact Hc |].
  split; [| exists i, pc; exact Hrun].
  apply Hw. apply elem_of_dom. exists 0. vm_compute. reflexivity.
Defined.

Lemma disconnected_reachable :
  reachable Lib.Parse Lib.String_ Lib.decode (after (one_subscriber ++ [CtxEnd 0])).
Proof. apply (reachable_after (one_subscriber ++ [CtxEnd 0])). vm_compute. reflexivity. Qed.

(** C2 on a session whose request context has ended: it runs lines 250-256
    and the deferred [Close]. *)
Lemma session_cleanup_witness :
  0 ∈ reqDone (after (one_subscriber ++ [CtxEnd 0]))
  ∧ go (replicate 5 (Run 0 [])) (after (one_subscriber ++ [CtxEnd 0]))
    = Some (cleaned 0 lower 0 0 (after (one_subscriber ++ [CtxEnd 0])))
  ∧ since (after (one_subscriber ++ [CtxEnd 0]))
          (cleaned 0 lower 0 0 (after (one_subscriber ++ [CtxEnd 0])))
    = [EvDelete lower 0; EvClose 0].
Proof.
  assert (Hd : 0 ∈ reqDone (after (one_subscriber ++ [CtxEnd 0]))).
  { apply (bool_decide_unpack _). vm_compute. exact I. }
  assert (H0 : threads (after (one_subscriber ++ [CtxEnd 0])) !! 0
               = Some (Subscribe SubWait lower 0 0)) by (vm_compute; reflexivity).
  assert (Hm : mutex (after (one_subscriber ++ [CtxEnd 0])) = None)
    by (vm_compute; reflexivity).
  destruct (session_cleanup Lib.Parse Lib.String_ Lib.decode
              (after (one_subscriber ++ [CtxEnd 0])) 0 SubWait lower 0 0
              disconnected_reachable H0 eq_refl) as (_ & Hc & _).
  destruct (Hc (or_introl Hd) (λ _, Hm)) as (Hrun & _ & _ & Hev).
  split; [exact Hd |]. split; [exact Hrun | exact Hev].
Defined.

(** C3 on a post to the room of the store. *)
Lemma handleCreateRoomMessage_two_phase_witness :
  handleCreateRoomMessage Lib.Parse Lib.String_ Lib.decode store (post_request lower "hello")
  = [EvGetRoom room0;
     EvInsertMessage room0 "hello";
     EvRespond (http_JSON (JObject [("message_id",
                                     JString "00000000-0000-0000-0000-000000000007")]));
     EvGo (hello lower)]
  ∧ ∃ st1,
      exec Lib.Parse Lib.String_ Lib.decode
        (ReqCreateMessage store (post_request lower "hello")) (after one_subscriber)
      = Some st1
      ∧ threads st1 = threads (after one_subscriber) ++ [Notify PubLock (hello lower)].
Proof.
  destruct (handleCreateRoomMessage_two_phase Lib.Parse Lib.String_ Lib.decode
              store (post_request lower "hello") room0 (mkRoom room0 "general") "hello"
              eq_refl eq_refl eq_refl) as [(H & _ & Hspawn) _].
  split; [exact H |].
  destruct (Hspawn (after one_subscriber)) as (st1 & H1 & Ht & _).
  exists st1. split; [exact H1 | exact Ht].
Defined.

Lemma posted_reachable :
  reachable Lib.Parse Lib.String_ Lib.decode
    (after [ReqCreateMessage store (post_request lower "hello")]).
Proof.
  apply (reachable_after [ReqCreateMessage store (post_request lower "hello")]).
  vm_compute. reflexivity.
Qed.

(** C5 on a post to a room no one has subscribed to. *)
Lemma notifyClients_no_subscribers_witness :
  subscribers (after [ReqCreateMessage store (post_request lower "hello")]) !! lower = None
  ∧ go [Run 0 []; Run 0 []; Run 0 []]
       (after [ReqCreateMessage store (post_request lower "hello")])
    = Some (set_thread 0 (Notify PubReturned (hello lower))
              (emit [EvNoSubscribers lower]
                 (after [ReqCreateMessage store (post_request lower "hello")]))).
Proof.
  assert (Hn : subscribers (after [ReqCreateMessage store (post_request lower "hello")])
               !! lower = None) by (vm_compute; reflexivity).
  split; [exact Hn |].
  apply (notifyClients_no_subscribers Lib.Parse Lib.String_ Lib.decode 0 [] [] []
           (hello lower) (after [ReqCreateMessage store (post_request lower "hello")])).
  - vm_compute. reflexivity.
  - vm_compute. reflexivity.
  - left. exact Hn.
Defined.

(** C8 on the run [broadcast_pending]. *)
Lemma one_room_per_connection_witness :
  room_conns lower (subscribers (after broadcast_pending)) = {[0; 1]}
  ∧ (∀ r1 r2 c,
       c ∈ room_conns r1 (subscribers (after broadcast_pending)) →
       c ∈ room_conns r2 (subscribers (after broadcast_pending)) → r1 = r2).
Proof.
  split.
  - apply (bool_decide_unpack _). vm_compute. exact I.
  - exact (proj1 (one_room_per_connection Lib.Parse Lib.String_ Lib.decode
                    (after broadcast_pending) broadcast_pending_reachable)).
Defined.

Lemma registering_reachable :
  reachable Lib.Parse Lib.String_ Lib.decode
    (after [ReqSubscribe store (subscribe_request lower); Run 0 []; Run 0 []]).
Proof.
  apply (reachable_after [ReqSubscribe store (subscribe_request lower); Run 0 []; Run 0 []]).
  vm_compute. reflexivity.
Qed.

(** C10 on a session that is at line 241. *)
Lemma subscribers_serialized_witness :
  threads (after [ReqSubscribe store (subscribe_request lower); Run 0 []; Run 0 []]) !! 0
  = Some (Subscribe SubMakeRoom lower 0 0)
  ∧ mutex (after [ReqSubscribe store (subscribe_request lower); Run 0 []; Run 0 []]) = Some 0.
Proof.
  assert (H0 : threads (after [ReqSubscribe store (subscribe_request lower);
                               Run 0 []; Run 0 []]) !! 0
               = Some (Subscribe SubMakeRoom lower 0 0)) by (vm_compute; reflexivity).
  split; [exact H0 |].
  destruct (subscribers_serialized Lib.Parse Lib.String_ Lib.decode _
              registering_reachable) as (Hm & _).
  exact (proj2 (Hm 0 _ H0 eq_refl)).
Defined.

Lemma init_reachable : reachable Lib.Parse Lib.String_ Lib.decode init.
Proof. by exists []. Qed.

Lemma upper_subscribed_reachable :
  reachable Lib.Parse Lib.String_ Lib.decode
    (after (ReqSubscribe store (subscribe_request upper) :: register_first 0)).
Proof.
  apply (reachable_after (ReqSubscribe store (subscribe_request upper) :: register_first 0)).
  vm_compute. reflexivity.
Qed.

(** C9: a session subscribed under the upper-case spelling, a message posted
    under the lower-case one. *)
Lemma subscribers_keyed_by_raw_room_id_witness :
  Lib.Parse upper = Lib.Parse lower
  ∧ threads (after (ReqSubscribe store (subscribe_request upper) :: register_first 0)) !! 0
    = Some (Subscribe SubWait upper 0 0)
  ∧ write_attempts 0
      (since (after (ReqSubscribe store (subscribe_request upper) :: register_first 0))
         (notifyClients [] (hello lower)
            (after (ReqSubscribe store (subscribe_request upper) :: register_first 0)))) = 0.
Proof.
  assert (Hne : room_id (subscribe_request upper) ≠ room_id (post_request lower "hello"))
    by discriminate.
  assert (H0 : threads (after (ReqSubscribe store (subscribe_request upper)
                               :: register_first 0)) !! 0
               = Some (Subscribe SubWait upper 0 0)) by (vm_compute; reflexivity).
  destruct (subscribers_keyed_by_raw_room_id Lib.Parse Lib.String_ Lib.decode
              init store (subscribe_request upper) (post_request lower "hello")
              room0 (mkRoom room0 "general") "hello" 7%N
              init_reachable Hne eq_refl eq_refl eq_refl eq_refl eq_refl eq_refl)
    as (_ & _ & H).
  split; [vm_compute; reflexivity |]. split; [exact H0 |].
  apply (H _ 0 SubWait 0 0 [] upper_subscribed_reachable H0).
  intros room' Hroom'. exfalso. revert Hroom'. vm_compute. discriminate.
Defined.

(** ** The handlers and the encoding on concrete requests *)

Example malformed_room_id :
  handleSubscribe_open Lib.Parse store (subscribe_request "general") 0
  = ([EvRespond (http_Error "Invalid room id" 400)], false).
Proof. reflexivity. Qed.

Example unknown_room :
  handleSubscribe_open Lib.Parse store
    (subscribe_request "00000000-0000-0000-0000-000000000001") 0
  = ([EvGetRoom 1; EvRespond (http_Error "room not found" 404)], false).
Proof. vm_compute. reflexivity. Qed.

Example hello_on_the_wire :
  marshal_Message (hello lower)
  = JObject [("kind", JString "message_created");
             ("value", JObject [("id", JString "00000000-0000-0000-0000-000000000007");
                                ("message", JString "hello")])].
Proof. vm_compute. reflexivity. Qed.

Example remove_twice :
  delete_conn lower 1 (delete_conn lower 1 (<[lower := both]> ∅))
  = <[lower := {[0 := 0]}]> ∅.
Proof. vm_compute. reflexivity. Qed.

(** * More of the package, outside the server's life *)

(** ** [handleCreateRoom] *)

(** X4: [handleCreateRoom] answers exactly once.  A body that does not
    decode is answered 400 with no call of the store; otherwise [InsertRoom]
    is called once, with the decoded theme; its failure is answered 500,
    its success with [{room_id}] holding the text of the id it returned. *)
Theorem handleCreateRoom_paths uuid_String decode_theme InsertRoom request :
  let evs := handleCreateRoom uuid_String decode_theme InsertRoom request in
  (∃ r, room_responses evs = [r] ∧ last evs = Some (RoomRespond r))
  ∧ (decode_theme (Body request) = None →
       evs = [RoomRespond (http_Error "Invalid request body" 400)])
  ∧ (∀ theme, decode_theme (Body request) = Some theme →
       ∃ r, evs = [RoomInsert theme; RoomRespond r]
            ∧ match InsertRoom theme with
              | Ok roomId => r = http_JSON (JObject [("room_id", JString (uuid_String roomId))])
              | Err _ => r = http_Error "Something went wrong" 500
              end).
Proof.
  unfold handleCreateRoom. destruct (decode_theme (Body request)) as [theme|].
  - destruct (InsertRoom theme) as [roomId | e] eqn:Hi.
    + split; [eauto |]. split; [done |]. intros ? [= <-]. rewrite Hi. eauto.
    + split; [eauto |]. split; [done |]. intros ? [= <-]. rewrite Hi. eauto.
  - split; [eauto |]. split; [done |]. done.
Qed.

(** ** [main] *)

(** X17: on every path of [main]: the pool is opened with the connection
    string built from the environment; the server listens, on port 3333,
    only after the environment was loaded, the pool opened and the ping
    answered; [main] returns only on an interrupt; the deferred
    [pool.Close()] runs, as the last thing, on every exit of [main] with the
    pool open, and is skipped only when the serving goroutine panics. *)
Theorem main_closes_the_pool (w : Main.World) :
  let '(steps, exit) := Main.main w in
  (∀ s, Main.NewPool s ∈ steps → s = Main.connString (Main.getenv w))
  ∧ (∀ addr, Main.ListenAndServe addr ∈ steps →
       addr = ":3333" ∧ Main.dotenv w = true ∧ Main.pool w = true ∧ Main.ping w = true)
  ∧ (exit = Main.Returned → Main.interrupt w = true)
  ∧ (Main.ClosePool ∈ steps ↔
       Main.dotenv w = true ∧ Main.pool w = true ∧ exit ≠ Main.Waiting
       ∧ ¬ (Main.ping w = true ∧ Main.served w = Main.ServeFailed))
  ∧ (Main.ClosePool ∈ steps → last steps = Some Main.ClosePool)
  ∧ (Main.Panic ∈ steps ↔ exit = Main.Panicked).
Proof.
  unfold Main.main.
  destruct (Main.dotenv w), (Main.pool w), (Main.ping w), (Main.served w),
    (Main.interrupt w); cbn [negb app];
    repeat match goal with
           | |- _ ∧ _ => split
           | |- _ ↔ _ => split
           end;
    intros;
    repeat match goal with
           | H : _ ∈ _ :: _ |- _ => apply elem_of_cons in H as [H | H]
           | H : _ ∈ [] |- _ => by apply elem_of_nil in H
           end;
    simplify_eq; try done; try (by repeat constructor); intuition congruence.
Qed.

(** ** The connection string *)

Lemma append_first_space (a a' x x' : string) :
  Main.spaceless a → Main.spaceless a' →
  a +:+ String " " x = a' +:+ String " " x' → a = a' ∧ x = x'.
Proof.
  unfold Main.spaceless. revert a'. induction a as [|c a IH]; intros [|c' a'] Ha Ha' H;
    simpl in *.
  - by injection H as ->.
  - injection H as <- _. exfalso. apply Ha'. by left.
  - injection H as -> _. exfalso. apply Ha. by left.
  - injection H as -> H. apply not_elem_of_cons in Ha as [_ Ha].
    apply not_elem_of_cons in Ha' as [_ Ha'].
    destruct (IH _ Ha Ha' H) as [-> ->]. done.
Qed.

(** X18: the connection string of lines 24-31 determines the five settings
    it is built from, when user, password, host and port hold no space. *)
Theorem connString_determines_settings (e1 e2 : string → string) :
  (∀ v, v ∈ ["DATABASE_USER"; "DATABASE_PASSWORD"; "DATABASE_HOST"; "DATABASE_PORT"] →
        Main.spaceless (e1 v) ∧ Main.spaceless (e2 v)) →
  Main.connString e1 = Main.connString e2 →
  ∀ v, v ∈ ["DATABASE_USER"; "DATABASE_PASSWORD"; "DATABASE_HOST"; "DATABASE_PORT";
            "DATABASE_NAME"] → e1 v = e2 v.
Proof.
  intros Hsp H.
  assert (Hu := Hsp "DATABASE_USER"). assert (Hp := Hsp "DATABASE_PASSWORD").
  assert (Hh := Hsp "DATABASE_HOST"). assert (Hport := Hsp "DATABASE_PORT").
  destruct Hu as [Hu1 Hu2]; [repeat constructor |].
  destruct Hp as [Hp1 Hp2]; [repeat constructor |].
  destruct Hh as [Hh1 Hh2]; [repeat constructor |].
  destruct Hport as [Hq1 Hq2]; [repeat constructor |].
  unfold Main.connString in H. simpl in H.
  injection H as H.
  apply append_first_space in H as [Eu H]; [| done..]. simpl in H. injection H as H.
  apply append_first_space in H as [Ep H]; [| done..]. simpl in H. injection H as H.
  apply append_first_space in H as [Eh H]; [| done..]. simpl in H. injection H as H.
  apply append_first_space in H as [Eq H]; [| done..]. simpl in H. injection H as H.
  intros v Hv. repeat (apply elem_of_cons in Hv as [-> | Hv]; [done |]).
  by apply elem_of_nil in Hv.
Qed.

(** * More of the package at work on runs of the server *)

Lemma one_subscriber_reachable :
  reachable Lib.Parse Lib.String_ Lib.decode (after one_subscriber).
Proof. apply (reachable_after one_subscriber). vm_compute. reflexivity. Qed.

Lemma session_over_reachable :
  reachable Lib.Parse Lib.String_ Lib.decode (after session_over).
Proof. apply (reachable_after session_over). vm_compute. reflexivity. Qed.

Lemma broadcast_done_reachable :
  reachable Lib.Parse Lib.String_ Lib.decode (after broadcast_done).
Proof. apply (reachable_after broadcast_done). vm_compute. reflexivity. Qed.

(** X5 on the room [room0]: the id the answer carries is the lower-case
    spelling, and a subscribe request under it is upgraded. *)
Lemma created_room_is_accepted_witness :
  Lib.String_ room0 = lower
  ∧ room_responses (handleCreateRoom Lib.String_ LibRoom.decode insert_room create_request)
    = [http_JSON (JObject [("room_id", JString (Lib.String_ room0))])]
  ∧ exec Lib.Parse Lib.String_ Lib.decode
      (ReqSubscribe store (subscribe_request lower)) init
    = Some (alloc_conn
              (spawn [Subscribe SubLockAdd (Lib.String_ room0) 0 0]
                 (emit [EvGetRoom room0; EvUpgrade (Some 0)] init))).
Proof.
  assert (Hs : Lib.String_ room0 = lower) by (vm_compute; reflexivity).
  assert (Hp : Lib.Parse (Lib.String_ room0) = Some room0) by (vm_compute; reflexivity).
  assert (Hd : LibRoom.decode (Body create_request) = Some "general")
    by (vm_compute; reflexivity).
  destruct (created_room_is_accepted Lib.Parse Lib.String_ Lib.decode LibRoom.decode
              insert_room store create_request "general" room0 (mkRoom room0 "general")
              Hp Hd eq_refl eq_refl) as (Ha & Hb & _).
  split; [exact Hs |]. split; [exact Ha |].
  exact (Hb init (subscribe_request lower) (eq_sym Hs) eq_refl).
Defined.

(** X6 on a post to the room of one waiting subscriber. *)
Lemma post_reaches_subscriber_witness :
  threads (after one_subscriber) !! 0 = Some (Subscribe SubWait lower 0 0)
  ∧ ∃ st1 st2,
      exec Lib.Parse Lib.String_ Lib.decode
        (ReqCreateMessage store (post_request lower "hello")) (after one_subscriber)
      = Some st1
      ∧ go (replicate (length (map_to_list ({[0 := 0]} : gmap nat nat)) + 4)
              (Run (length (threads (after one_subscriber)))
                   (map_to_list ({[0 := 0]} : gmap nat nat)))) st1 = Some st2
      ∧ (∃ m, threads st2 !! length (threads (after one_subscriber))
              = Some (Notify PubReturned m))
      ∧ List.filter (is_write_to 0) (since st1 st2)
        = [EvWriteJSON 0
             (JObject [("kind", JString "message_created");
                       ("value", JObject [("id", JString (Lib.String_ 7));
                                          ("message", JString "hello")])])
             true].
Proof.
  assert (H0 : threads (after one_subscriber) !! 0 = Some (Subscribe SubWait lower 0 0))
    by (vm_compute; reflexivity).
  split; [exact H0 |].
  apply (post_reaches_subscriber Lib.Parse Lib.String_ Lib.decode
           (after one_subscriber) store (post_request lower "hello") room0
           (mkRoom room0 "general") "hello" 7%N 0 SubWait 0 0 {[0 := 0]}
           (map_to_list ({[0 := 0]} : gmap nat nat))).
  - exact one_subscriber_reachable.
  - vm_compute. reflexivity.
  - vm_compute. reflexivity.
  - vm_compute. reflexivity.
  - reflexivity.
  - exact H0.
  - reflexivity.
  - vm_compute. reflexivity.
  - vm_compute. reflexivity.
  - vm_compute. reflexivity.
  - reflexivity.
Defined.

(** X7 on the first connection of a room: the slot stays behind. *)
Lemma add_then_remove_witness :
  subscribers_add lower 0 0 ∅ = Some (<[lower := <[0 := 0]> ∅]> ∅)
  ∧ delete_conn lower 0 (<[lower := <[0 := 0]> ∅]> ∅) = <[lower := ∅]> ∅.
Proof.
  assert (Ha : subscribers_add lower 0 0 ∅ = Some (<[lower := <[0 := 0]> ∅]> ∅)).
  { unfold subscribers_add, room_present, make_room, store_conn.
    rewrite bool_decide_eq_false_2 by (rewrite lookup_empty; by intros [? ?]).
    by rewrite lookup_insert_eq, insert_insert_eq. }
  assert (Hc : 0 ∉ room_conns lower (∅ : gmap string (gmap nat nat))).
  { unfold room_conns. rewrite lookup_empty. apply not_elem_of_empty. }
  destruct (add_then_remove ∅ _ lower 0 0 Ha Hc) as (_ & _ & Hn).
  split; [exact Ha |]. exact (proj1 (Hn (lookup_empty lower))).
Defined.

(** X8 on the first subscribe request the server gets. *)
Lemma subscribe_registers_witness :
  ∃ st1 st2 n,
    exec Lib.Parse Lib.String_ Lib.decode
      (ReqSubscribe store (subscribe_request lower)) init = Some st1
    ∧ (n ≤ 5)%nat
    ∧ go (replicate n (Run 0 [])) st1 = Some st2
    ∧ threads st2 !! 0 = Some (Subscribe SubWait lower 0 0)
    ∧ mutex st2 = None
    ∧ since st1 st2 = [EvStore lower 0].
Proof.
  destruct (subscribe_registers Lib.Parse Lib.String_ Lib.decode init store
              (subscribe_request lower) room0 (mkRoom room0 "general")
              init_reachable eq_refl eq_refl eq_refl eq_refl)
    as (st1 & st2 & n & H1 & Hn & Hrun & Ht & Hm & _ & _ & Hev).
  exists st1, st2, n. repeat split; assumption.
Defined.

(** X9 on the two orders of a room of two. *)
Lemma broadcast_order_independent_witness :
  cancelled (notifyClients [(0, 0); (1, 1)] (hello lower) (after broadcast_pending))
  = cancelled (notifyClients [(1, 1); (0, 0)] (hello lower) (after broadcast_pending))
  ∧ since (after broadcast_pending)
          (notifyClients [(0, 0); (1, 1)] (hello lower) (after broadcast_pending))
    ≡ₚ since (after broadcast_pending)
             (notifyClients [(1, 1); (0, 0)] (hello lower) (after broadcast_pending)).
Proof.
  destruct (broadcast_order_independent (hello lower) (after broadcast_pending)
              [(0, 0); (1, 1)] [(1, 1); (0, 0)] (perm_swap _ _ _)) as (Hc & Hs & _).
  split; [exact Hc | exact Hs].
Defined.

(** X11: the slot of the room is there when its only session has returned. *)
Lemma slots_are_never_deleted_witness :
  subscribers (after session_over) !! lower = Some ∅
  ∧ is_Some (subscribers (after session_over) !! lower).
Proof.
  assert (Hrun : go (CtxEnd 0 :: replicate 5 (Run 0 [])) (after one_subscriber)
                 = Some (after session_over)) by (vm_compute; reflexivity).
  assert (Hs : is_Some (subscribers (after one_subscriber) !! lower)).
  { exists {[0 := 0]}. vm_compute. reflexivity. }
  split; [vm_compute; reflexivity |].
  exact (proj1 (slots_are_never_deleted Lib.Parse Lib.String_ Lib.decode _ _ _ Hrun)
           lower Hs).
Defined.

(** X12 on a session that waits at line 250. *)
Lemma mutex_is_never_leaked_witness :
  threads (after one_subscriber) !! 0 = Some (Subscribe SubWait lower 0 0)
  ∧ mutex (after one_subscriber) ≠ Some 0.
Proof.
  assert (H0 : threads (after one_subscriber) !! 0 = Some (Subscribe SubWait lower 0 0))
    by (vm_compute; reflexivity).
  split; [exact H0 |].
  destruct (mutex_is_never_leaked Lib.Parse Lib.String_ Lib.decode _
              one_subscriber_reachable) as (_ & H & _).
  exact (H 0 lower 0 0 H0).
Defined.

(** X13 on a session that has returned: its connection is closed and in no room. *)
Lemma closed_is_never_written_witness :
  0 ∈ closed (after session_over)
  ∧ 0 ∉ room_conns lower (subscribers (after session_over)).
Proof.
  assert (Hc : 0 ∈ closed (after session_over)).
  { apply (bool_decide_unpack _). vm_compute. exact I. }
  split; [exact Hc |].
  exact (proj1 (closed_is_never_written Lib.Parse Lib.String_ Lib.decode _
                  session_over_reachable) 0 lower Hc).
Defined.

(** X14 on the broadcast of [broadcast_done]: the session that was cancelled
    is the one whose peer is gone. *)
Lemma only_broken_sessions_are_cancelled_witness :
  threads (after broadcast_done) !! 1 = Some (Subscribe SubWait lower 1 1)
  ∧ 1 ∈ cancelled (after broadcast_done)
  ∧ 1 ∈ broken (after broadcast_done).
Proof.
  assert (H1 : threads (after broadcast_done) !! 1 = Some (Subscribe SubWait lower 1 1))
    by (vm_compute; reflexivity).
  assert (Hc : 1 ∈ cancelled (after broadcast_done)).
  { apply (bool_decide_unpack _). vm_compute. exact I. }
  split; [exact H1 |]. split; [exact Hc |].
  exact (proj1 (only_broken_sessions_are_cancelled Lib.Parse Lib.String_ Lib.decode _
                  broadcast_done_reachable 1 SubWait lower 1 1 H1) Hc).
Defined.

(** X15 on a session that has returned: stored, deleted, closed. *)
Lemma connection_life_in_log_witness :
  threads (after session_over) !! 0 = Some (Subscribe SubReturned lower 0 0)
  ∧ about 0 (events (after session_over))
    = [EvStore lower 0; EvDelete lower 0; EvClose 0].
Proof.
  assert (H0 : threads (after session_over) !! 0
               = Some (Subscribe SubReturned lower 0 0)) by (vm_compute; reflexivity).
  split; [exact H0 |].
  exact (proj1 (connection_life_in_log Lib.Parse Lib.String_ Lib.decode _
                  session_over_reachable) 0 SubReturned lower 0 0 H0).
Defined.

Lemma broadcast_running_reachable :
  reachable Lib.Parse Lib.String_ Lib.decode (after broadcast_running).
Proof. apply (reachable_after broadcast_running). vm_compute. reflexivity. Qed.

(** X16 on a broadcast that has two entries to visit: four statements to
    the [Unlock], two of them calls of [WriteJSON]. *)
Lemma holder_releases_the_mutex_witness :
  threads (after broadcast_running) !! 2
  = Some (Notify (PubRange (map_to_list both)) (hello lower))
  ∧ steps_to_unlock (after broadcast_running)
      (Notify (PubRange (map_to_list both)) (hello lower)) = 4
  ∧ writes_to_unlock (after broadcast_running)
      (Notify (PubRange (map_to_list both)) (hello lower)) = 2
  ∧ ∃ st' t',
      go (replicate (steps_to_unlock (after broadcast_running)
                       (Notify (PubRange (map_to_list both)) (hello lower)))
            (Run 2 (range_of (after broadcast_running)
                      (Notify (PubRange (map_to_list both)) (hello lower)))))
         (after broadcast_running)
      = Some st'
      ∧ mutex st' = None ∧ threads st' !! 2 = Some t' ∧ critical t' = false
      ∧ length (List.filter is_write (since (after broadcast_running) st'))
        = writes_to_unlock (after broadcast_running)
            (Notify (PubRange (map_to_list both)) (hello lower)).
Proof.
  assert (H2 : threads (after broadcast_running) !! 2
               = Some (Notify (PubRange (map_to_list both)) (hello lower)))
    by (vm_compute; reflexivity).
  split; [exact H2 |]. split; [vm_compute; reflexivity |].
  split; [vm_compute; reflexivity |].
  exact (holder_releases_the_mutex Lib.Parse Lib.String_ Lib.decode _ 2 _
           broadcast_running_reachable H2 eq_refl).
Defined.

(** X18 on an environment whose values are the names of the variables. *)
Lemma connString_determines_settings_witness :
  Main.connString (λ v, v)
  = "user=DATABASE_USER password=DATABASE_PASSWORD host=DATABASE_HOST port=DATABASE_PORT dbname=DATABASE_NAME"
  ∧ (∀ v, v ∈ ["DATABASE_USER"; "DATABASE_PASSWORD"; "DATABASE_HOST"; "DATABASE_PORT";
               "DATABASE_NAME"] → (λ v : string, v) v = (λ v : string, v) v).
Proof.
  split; [reflexivity |].
  apply (connString_determines_settings (λ v, v) (λ v, v)); [| reflexivity].
  intros v Hv. unfold Main.spaceless.
  repeat (apply elem_of_cons in Hv as [-> | Hv];
          [split; apply (bool_decide_unpack _); vm_compute; exact I |]).
  by apply elem_of_nil in Hv.
Defined.
